(** * fsButler.utils: schema reconciliation and one-to-one catalog matching

    A shallow embedding of [src/fsButler/utils.py] and the properties of it
    that the specification states.  Python dictionaries are stdpp [gmap]s,
    exceptions are an error monad, [print] is an explicit output log. *)

From Stdlib Require Import ZArith Ascii String List.
From stdpp Require Import gmap strings list fin_maps sorting.

Local Open Scope string_scope.
Local Open Scope Z_scope.

(** ** Exceptions *)

(** The module raises [ValueError] itself; the catalog library raises when a
    column is looked up that a schema does not have, or added when the
    schema already has one of that name. *)
Inductive exn : Type :=
  | ValueError (msg : string)
  | NotFoundError (name : string)
  | DuplicateFieldError (name : string).

Inductive result (A : Type) : Type :=
  | Ok (a : A)
  | Raise (e : exn).
Arguments Ok {A} a.
Arguments Raise {A} e.

#[global] Instance result_ret : MRet result := fun _ a => Ok a.
#[global] Instance result_bind : MBind result := fun _ _ f r =>
  match r with
  | Ok a => f a
  | Raise e => Raise e
  end.

(** A Python [for] loop whose body may raise, threading the loop state. *)
Fixpoint foldM {A S : Type} (body : S → A → result S) (s : S) (l : list A)
  : result S :=
  match l with
  | [] => Ok s
  | x :: l' => s' ← body s x; foldM body s' l'
  end.

(** ** Filter suffixes *)

Definition _getFilterSuffix (filterSuffix : string) : string :=
  if String.eqb filterSuffix "HSC-G" then "_g"
  else if String.eqb filterSuffix "HSC-R" then "_r"
  else if String.eqb filterSuffix "HSC-I" then "_i"
  else if String.eqb filterSuffix "HSC-Z" then "_z"
  else if String.eqb filterSuffix "HSC-Y" then "_y"
  else filterSuffix.

(** [None] is Python's [None], returned when no [if] fires. *)
Definition _suffixOrder (suffix : string) : option Z :=
  if String.eqb suffix "_g" then Some 1
  else if String.eqb suffix "_r" then Some 2
  else if String.eqb suffix "_i" then Some 3
  else if String.eqb suffix "_z" then Some 4
  else if String.eqb suffix "_y" then Some 5
  else None.

(** The character class [[grizy]]. *)
Definition is_band (c : ascii) : bool :=
  Ascii.eqb c "g" || Ascii.eqb c "r" || Ascii.eqb c "i"
  || Ascii.eqb c "z" || Ascii.eqb c "y".

Definition newline : ascii := "010"%char.

(** [_suffixRegex.search(fieldName)] for [_suffixRegex = (_[grizy])$],
    giving [match.group(1)].  Without the MULTILINE flag Python's [$]
    matches at the end of the string and also just before a line feed that
    is the last character of the string; the name is inspected from its
    end. *)
Definition _suffixRegex_search (fieldName : string) : option string :=
  match rev (list_ascii_of_string fieldName) with
  | c :: u :: rest =>
      if Ascii.eqb u "_" && is_band c then
        Some (String u (String c EmptyString))
      else if Ascii.eqb c newline then
        match rest with
        | u' :: _ =>
            if Ascii.eqb u' "_" && is_band u then
              Some (String u' (String u EmptyString))
            else None
        | [] => None
        end
      else None
  | _ => None
  end.

(** ** Catalogs *)

(** Column types of the catalog library that this module's columns have:
    [Flag], 64-bit integer [L], 32-bit float [F], and the sky coordinate. *)
Inductive FieldType : Type := TFlag | TL | TF | TCoord.

(** [afwTable.Field[T](name, doc)]. *)
Record Field : Type := mkField {
  getName : string;
  getType : FieldType;
  getDoc : string
}.

Definition copyRenamed (f : Field) (newName : string) : Field :=
  mkField newName (getType f) (getDoc f).

(** A schema is the ordered collection of its columns. *)
Definition Schema : Type := list Field.

(** Values stored in a record.  Floating-point values are only ever copied
    or tested for zero here, so they are kept as their IEEE-754 bit
    patterns (single precision for [F], a pair of doubles for a
    coordinate). *)
Inductive value : Type :=
  | VFlag (b : bool)
  | VL (n : Z)
  | VF (bits : Z)
  | VCoord (ra dec : Z).

(** A record maps column names to values; a column that was never written
    still holds the zero it was allocated with, and is absent from the map. *)
Definition Record : Type := gmap string value.

Record Catalog : Type := mkCatalog {
  getSchema : Schema;
  records : list Record
}.

Definition fieldNames (schema : Schema) : list string := map getName schema.

(** [suffixes.sort(key=_suffixOrder)]: Python's sort is stable; in Python 2
    [None] sorts before every integer. *)
Definition key_le (a b : option Z) : bool :=
  match a, b with
  | None, _ => true
  | Some _, None => false
  | Some x, Some y => x <=? y
  end.

Fixpoint insert_by_key {A : Type} (key : A → option Z) (x : A) (l : list A)
  : list A :=
  match l with
  | [] => [x]
  | y :: l' =>
      if key_le (key x) (key y) then x :: y :: l'
      else y :: insert_by_key key x l'
  end.

Definition sort_by_key {A : Type} (key : A → option Z) (l : list A) : list A :=
  foldr (insert_by_key key) [] l.

(** The body of the scanning loop of [getCatSuffixes]; the loop state is
    the list [suffixes]. *)
Definition scanStep (suffixes : list string) (fieldName : string)
  : list string :=
  match _suffixRegex_search fieldName with
  | Some suffix =>
      if bool_decide (suffix ∈ suffixes) then suffixes
      else (suffixes ++ [suffix])%list
  | None => suffixes
  end.

Definition scanSuffixes (names : list string) : list string :=
  fold_left scanStep names [].

Definition getCatSuffixes (cat : Catalog) : list string :=
  sort_by_key _suffixOrder (scanSuffixes (fieldNames (getSchema cat))).

(** ** Schemas and schema mappers (the catalog library's interface)

    The catalog library is an external collaborator; what the module uses
    of it is modelled here after its documented behaviour. *)

(** A schema item pairs a column with the key that addresses it; both are
    modelled by the column itself. *)
Definition Key : Type := Field.
Definition getKey (item : Field) : Key := item.
Definition getField (item : Field) : Field := item.

(** Modelled from the spec: [Schema.find] is the catalog library's;
    find-by-exact-name fails if the column is absent. *)
Fixpoint find (schema : Schema) (name : string) : result Field :=
  match schema with
  | [] => Raise (NotFoundError name)
  | f :: schema' =>
      if String.eqb (getName f) name then Ok f else find schema' name
  end.

(** Shell-style matching of a whole name against a pattern, as
    [fnmatch.fnmatchcase] does it: [*] matches any run of characters, [?]
    any one character, every other character itself.  (Bracket
    expressions, which no pattern of this module contains, are left out.) *)
Fixpoint glob (pat name : list ascii) : bool :=
  match pat with
  | [] => match name with [] => true | _ => false end
  | p :: pat' =>
      if Ascii.eqb p "*" then
        (fix star (name : list ascii) : bool :=
           glob pat' name
           || match name with
              | [] => false
              | _ :: name' => star name'
              end) name
      else
        match name with
        | [] => false
        | c :: name' => (Ascii.eqb p "?" || Ascii.eqb p c) && glob pat' name'
        end
  end.

Definition fnmatchcase (name pattern : string) : bool :=
  glob (list_ascii_of_string pattern) (list_ascii_of_string name).

(** Modelled from the spec: [Schema.extract] is the catalog library's;
    extract-by-glob-pattern returns all columns whose name matches the
    pattern.  It returns a dictionary keyed by name, of which the module
    iterates the keys; they are taken in schema order. *)
Definition extract (schema : Schema) (pattern : string) : list string :=
  remove_dups (filter (fun name => fnmatchcase name pattern = true)
                      (fieldNames schema)).

(** Modelled from the spec: [SchemaMapper] is the catalog library's; a
    sequence of (source column, target column) copy directives plus
    target-only columns, producing an output schema whose column names are
    unique. *)
Record SchemaMapper : Type := mkSchemaMapper {
  getInputSchema : Schema;
  getOutputSchema : Schema;
  getMappings : list (Key * Key)
}.

Definition newSchemaMapper (schema : Schema) : SchemaMapper :=
  mkSchemaMapper schema [] [].

Definition addField (schema : Schema) (field : Field) : result Schema :=
  if bool_decide (getName field ∈ fieldNames schema)
  then Raise (DuplicateFieldError (getName field))
  else Ok (schema ++ [field])%list.

(** [scm.addOutputField(field)]. *)
Definition addOutputField (scm : SchemaMapper) (field : Field)
  : result SchemaMapper :=
  out ← addField (getOutputSchema scm) field;
  Ok (mkSchemaMapper (getInputSchema scm) out (getMappings scm)).

(** [scm.addMapping(key)] and [scm.addMapping(key, newField)]; without a
    new field the target column is the source column. *)
Definition addMapping (scm : SchemaMapper) (key : Key)
    (newField : option Field) : result SchemaMapper :=
  let target := default key newField in
  out ← addField (getOutputSchema scm) target;
  Ok (mkSchemaMapper (getInputSchema scm) out
        (getMappings scm ++ [(key, target)])%list).

(** ** Module-level configuration *)

Definition _fixedFields : list string := ["id"; "coord"].

Definition _fixedPatterns : list string := [].

Definition _suffixableFields : list string :=
  ["parent";
   "deblend.nchild";
   "classification.extendedness";
   "flags.pixel.bad";
   "flags.pixel.edge";
   "flags.pixel.interpolated.any";
   "flags.pixel.interpolated.center";
   "flags.pixel.saturated.any";
   "flags.pixel.saturated.center"].

Definition _suffixablePatterns : list string :=
  ["flux.zeromag*";
   "flux.psf*";
   "cmodel*";
   "centroid*";
   "seeing*";
   "exptime*";
   "multId*"].

Definition _zeroMagField : Field :=
  mkField "flux.zeromag" TF "The flux corresponding to zero magnitude.".
Definition _zeroMagErrField : Field :=
  mkField "flux.zeromag.err" TF
    "The flux error corresponding to zero magnitude.".
Definition _stellarField : Field :=
  mkField "stellar" TFlag
    "If true, the object is known to be a star if false it's known not to be a star.".
Definition _magAutoField : Field :=
  mkField "mag.auto" TF
    "The magnitude computed by SExtractor in the HST catalog.".
Definition _seeingField : Field := mkField "seeing" TF "The PSF FWHM.".
Definition _exptimeField : Field := mkField "exptime" TF "Exposure time.".
Definition _idField : Field :=
  mkField "multId" TL
    "Multiple id, this field is in place to keep track of the ids of the matches in other catalogs/bands".

(** ** createSchemaMapper *)

(** Python truthiness of a string, and of a parameter that is a string or
    [None]. *)
Definition str_truth (s : string) : bool := negb (String.eqb s "").

Definition truth (filterSuffix : option string) : bool :=
  match filterSuffix with
  | Some s => str_truth s
  | None => false
  end.

Definition is_not_None {A : Type} (x : option A) : bool :=
  match x with
  | Some _ => true
  | None => false
  end.

(** [scm.addMapping(schema.find(f).getKey())]. *)
Definition mapStraight (schema : Schema) (scm : SchemaMapper) (f : string)
  : result SchemaMapper :=
  item ← find schema f;
  addMapping scm (getKey item) None.

(** The three statements that map [f] to [f + suffix]. *)
Definition mapRenamed (schema : Schema) (suffix : string)
    (scm : SchemaMapper) (f : string) : result SchemaMapper :=
  item ← find schema f;
  let field := getField item in
  let newField := copyRenamed field (f +:+ suffix) in
  addMapping scm (getKey item) (Some newField).

(** The fan-out shared by the [withZeroMagFlux], [withSeeing] and
    [withExptime] blocks: the given columns renamed with the filter suffix
    when [filterSuffix] is truthy, else bare when the catalog has no
    suffixes, else once per discovered suffix. *)
Definition addSynthetic (filterSuffix : option string)
    (suffixes : list string) (fields : list Field) (scm : SchemaMapper)
  : result SchemaMapper :=
  let renamed (suffix : string) (scm : SchemaMapper) :=
    foldM (fun scm fld =>
             addOutputField scm (copyRenamed fld (getName fld +:+ suffix)))
          scm fields in
  let unsuffixed :=
    if Nat.eqb (length suffixes) 0 then foldM addOutputField scm fields
    else foldM (fun scm s => renamed s scm) scm suffixes in
  match filterSuffix with
  | Some fs =>
      if str_truth fs then renamed (_getFilterSuffix fs) scm else unsuffixed
  | None => unsuffixed
  end.

(** Step 3: the columns reserved for the second catalog. *)
Definition reserveSecond (cat2 : Catalog) (scm : SchemaMapper)
  : result SchemaMapper :=
  let suffixes2 := getCatSuffixes cat2 in
  let schema2 := getSchema cat2 in
  scm ← foldM (fun scm f =>
                 foldM (fun scm s =>
                          item ← find schema2 (f +:+ s);
                          addOutputField scm (getField item))
                       scm suffixes2)
              scm _suffixableFields;
  foldM (fun scm p =>
           foldM (fun scm f =>
                    item ← find schema2 f;
                    addOutputField scm (getField item))
                 scm (extract schema2 p))
        scm _suffixablePatterns.

Definition createSchemaMapper (cat : Catalog) (cat2 : option Catalog)
    (filterSuffix : option string)
    (withZeroMagFlux withStellar withSeeing withExptime : bool)
  : result SchemaMapper :=
  if is_not_None cat2 && truth filterSuffix then
    Raise (ValueError "Can't use filterSuffix for two catalogs")
  else
  let suffixes := getCatSuffixes cat in
  if (0 <? Z.of_nat (length suffixes)) && is_not_None filterSuffix then
    Raise (ValueError
             "Can't add a suffix to a catalog that already has suffixes")
  else
  let schema := getSchema cat in
  let scm := newSchemaMapper schema in
  (* First fixed fields and patterns *)
  scm ← foldM (mapStraight schema) scm _fixedFields;
  scm ← foldM (fun scm p => foldM (mapStraight schema) scm (extract schema p))
              scm _fixedPatterns;
  (* Now suffixable fields and patterns *)
  scm ← match filterSuffix with
        | Some fs =>
            addOutputField scm
              (copyRenamed _idField ("multId" +:+ _getFilterSuffix fs))
        | None => Ok scm
        end;
  scm ← foldM (fun scm f =>
                 match filterSuffix with
                 | Some fs => mapRenamed schema (_getFilterSuffix fs) scm f
                 | None =>
                     if Nat.eqb (length suffixes) 0 then
                       mapStraight schema scm f
                     else
                       foldM (fun scm s => mapStraight schema scm (f +:+ s))
                             scm suffixes
                 end)
              scm _suffixableFields;
  scm ← foldM (fun scm p =>
                 foldM (fun scm f =>
                          match filterSuffix with
                          | Some fs =>
                              if str_truth fs then
                                mapRenamed schema (_getFilterSuffix fs) scm f
                              else mapStraight schema scm f
                          | None => mapStraight schema scm f
                          end)
                       scm (extract schema p))
              scm _suffixablePatterns;
  scm ← match cat2 with
        | Some cat2 => reserveSecond cat2 scm
        | None => Ok scm
        end;
  scm ← (if withZeroMagFlux then
           addSynthetic filterSuffix suffixes
             [_zeroMagField; _zeroMagErrField] scm
         else Ok scm);
  scm ← (if withSeeing then
           addSynthetic filterSuffix suffixes [_seeingField] scm
         else Ok scm);
  scm ← (if withExptime then
           addSynthetic filterSuffix suffixes [_exptimeField] scm
         else Ok scm);
  scm ← (if withStellar then
           scm ← addOutputField scm _stellarField;
           addOutputField scm _magAutoField
         else Ok scm);
  Ok scm.

(** ** Records *)

(** [record.get(key)]; [None] is the zero a column is allocated with. *)
Definition get (r : Record) (key : Key) : option value := r !! getName key.

(** [record.set(key, v)]. *)
Definition set (r : Record) (key : Key) (v : option value) : Record :=
  partial_alter (fun _ => v) (getName key) r.

(** [record.getId()]: the value of the [id] column. *)
Definition getId (r : Record) : Z :=
  match r !! "id" with
  | Some (VL n) => n
  | _ => 0
  end.

(** [cat.addNew()] gives a record with every column zero. *)
Definition newRecord : Record := ∅.

(** [record.assign(m1, scm)]: every copy directive of the mapper, in order. *)
Definition assign (record m1 : Record) (scm : SchemaMapper) : Record :=
  fold_left (fun rec (m : Key * Key) => set rec m.2 (get m1 m.1))
            (getMappings scm) record.

(** ** Output *)

(** A printed line: the format string and the arguments of [format]. *)
Record printed : Type := Print {
  template : string;
  arguments : list Z
}.

(** What a function of the module hands back: a catalog, or the pair of a
    catalog and the list of unmatched identifiers. *)
Inductive retval : Type :=
  | RetCatalog (cat : Catalog)
  | RetCatalogAndNoMatch (cat : Catalog) (noMatch : list Z).

Definition len {A : Type} (l : list A) : Z := Z.of_nat (length l).

(** ** goodSources *)

(** A computation that has the catalog at hand and may raise: it returns
    the catalog as it leaves it, with its result. *)
Definition CatM (A : Type) : Type := Catalog → Catalog * result A.

#[global] Instance CatM_ret : MRet CatM := fun _ a cat => (cat, Ok a).
#[global] Instance CatM_bind : MBind CatM := fun _ _ f m cat =>
  match m cat with
  | (cat', Ok a) => f a cat'
  | (cat', Raise e) => (cat', Raise e)
  end.

(** [cat.get(name)]: the column of that name, one entry per record. *)
Definition cat_get (name : string) : CatM (list (option value)) :=
  fun cat =>
    (cat,
     item ← find (getSchema cat) name;
     Ok (map (fun r => get r (getKey item)) (records cat))).

(** Python's [reduce(function, sequence, initial)]. *)
Fixpoint reduce {A B : Type} (function : B → A → CatM B) (sequence : list A)
    (initial : B) : CatM B :=
  match sequence with
  | [] => mret initial
  | y :: sequence' => x ← function initial y; reduce function sequence' x
  end.

(** A numpy boolean: the scalar [False] the reduction starts from, or an
    array with one entry per record. *)
Inductive ndarray : Type :=
  | scalar (b : bool)
  | array (l : list bool).

(** Truth of a column entry as numpy's logical functions see it: a flag is
    its value, a number is true when nonzero (for a float, when its bits
    apart from the sign are not all zero), a coordinate object is true. *)
Definition nonzero (v : option value) : bool :=
  match v with
  | None => false
  | Some (VFlag b) => b
  | Some (VL n) => negb (n =? 0)
  | Some (VF bits) => negb (Z.land bits 2147483647 =? 0)
  | Some (VCoord _ _) => true
  end.

(** The entry-wise [column == 0]. *)
Definition eq_zero (v : option value) : bool :=
  match v with
  | Some (VCoord _ _) => false
  | _ => negb (nonzero v)
  end.

(** [np.logical_or], [np.logical_and] and [np.logical_not]; a scalar is
    broadcast over an array, two columns of one catalog have one length. *)
Definition broadcast (op : bool → bool → bool) (x y : ndarray) : ndarray :=
  match x, y with
  | scalar a, scalar b => scalar (op a b)
  | scalar a, array l => array (map (op a) l)
  | array l, scalar b => array (map (fun a => op a b) l)
  | array l, array l' => array (zip_with op l l')
  end.

Definition logical_or : ndarray → ndarray → ndarray := broadcast orb.
Definition logical_and : ndarray → ndarray → ndarray := broadcast andb.
Definition logical_not (x : ndarray) : ndarray :=
  match x with
  | scalar a => scalar (negb a)
  | array l => array (map negb l)
  end.

Definition goodSources : CatM ndarray :=
  (* Get the list of sources with bad flags *)
  bad ← reduce (fun x y =>
                  col ← cat_get y;
                  mret (logical_or x (array (map nonzero col))))
               ["flags.pixel.edge";
                "flags.pixel.bad";
                "flags.pixel.saturated.center"]
               (scalar false);
  let good := logical_not bad in
  (* Get rid of objects that have children *)
  nchild ← cat_get "deblend.nchild";
  let good := logical_and good (array (map eq_zero nchild)) in
  mret good.

(** ** strictMatch *)

Section Matcher.

(** Angular separations, with the comparison [d < d']. *)
Variable Angle : Type.
Variable angle_lt : Angle → Angle → bool.

(** A match candidate: a record of the first catalog, a record of the
    second or [None], and their separation. *)
Definition Match : Type := (Record * option Record * Angle)%type.

(** The spatial cross-match [afwTable.matchRaDec(cat1, cat2, radius, mc)],
    a collaborator; the last argument is [mc.includeMismatches]. *)
Variable matchRaDec : Catalog → Catalog → Angle → bool → list Match.

(** One pass of the reduction loop over [(m1, m2, d)]; the loop state is
    [(bestMatches, noMatch)]. *)
Definition reduceStep
    (st : gmap Z (Record * Record * Angle) * list Record) (m : Match)
  : gmap Z (Record * Record * Angle) * list Record :=
  let '(bestMatches, noMatch) := st in
  let '(m1, m2, d) := m in
  match m2 with
  | None => (bestMatches, (noMatch ++ [m1])%list)
  | Some m2 =>
      let id := getId m2 in
      match bestMatches !! id with
      | None => (<[id := (m1, m2, d)]> bestMatches, noMatch)
      | Some best =>
          if angle_lt d best.2 then
            (<[id := (m1, m2, d)]> bestMatches, noMatch)
          else (bestMatches, noMatch)
      end
  end.

Definition reduceMatches (matched : list Match)
  : gmap Z (Record * Record * Angle) * list Record :=
  fold_left reduceStep matched (∅, []).

(** The two lines printed when [includeMismatches] holds. *)
Definition report (cat1 : Catalog) (matched : list Match)
    (bestMatches : gmap Z (Record * Record * Angle))
    (noMatch : list Record) : list printed :=
  [Print "{0} objects from {1} in the first catalog had no match in the second catalog."
         [len noMatch; len (records cat1)];
   Print "{0} objects from the first catalog with a match in the second catalog were not the closest match."
         [len matched - len noMatch - Z.of_nat (size bestMatches)]].

(** The loop over the suffixes of the second catalog that fills
    [cat2Fields]. *)
Definition cat2Fields (cat2 : Catalog) : list string :=
  flat_map (fun suffix => extract (getSchema cat2) ("*" +:+ suffix))
           (getCatSuffixes cat2).

(** The loop that resolves the names in [cat2Fields] to keys of the
    second schema and of the output schema. *)
Definition resolveKeys (schema2 schema : Schema) (cat2Fields : list string)
  : result (list Key * list Key) :=
  foldM (fun (keys : list Key * list Key) f =>
           item2 ← find schema2 f;
           item ← find schema f;
           Ok ((keys.1 ++ [getKey item2])%list,
               (keys.2 ++ [getKey item])%list))
        ([], []) cat2Fields.

(** The body of the last loop, for one kept match: a new record, the
    mapped columns of [m1], then the listed columns of [m2]. *)
Definition mergedRecord (scm : SchemaMapper) (cat2Keys catKeys : list Key)
    (best : Record * Record * Angle) : Record :=
  let '(m1, m2, d) := best in
  let record := assign newRecord m1 scm in
  fold_left
    (fun record (i : nat) =>
       match catKeys !! i, cat2Keys !! i with
       | Some k, Some k2 => set record k (get m2 k2)
       | _, _ => record
       end)
    (seq 0 (length cat2Keys)) record.

(** The kept matches in the order the dictionary is iterated in. *)
Definition kept (bestMatches : gmap Z (Record * Record * Angle))
  : list (Record * Record * Angle) :=
  (map_to_list bestMatches).*2.

(** The output log and what is returned or raised. *)
Definition strictMatch (cat1 cat2 : Catalog) (matchRadius : Angle)
    (includeMismatches : bool) : list printed * result retval :=
  let matched := matchRaDec cat1 cat2 matchRadius includeMismatches in
  let '(bestMatches, noMatch) := reduceMatches matched in
  let out :=
    if includeMismatches then report cat1 matched bestMatches noMatch
    else [] in
  (out,
   scm ← createSchemaMapper cat1 (Some cat2) None false false false false;
   let schema := getOutputSchema scm in
   let schema2 := getSchema cat2 in
   keys ← resolveKeys schema2 schema (cat2Fields cat2);
   let '(cat2Keys, catKeys) := keys in
   Ok (RetCatalog
         (mkCatalog schema
            (map (mergedRecord scm cat2Keys catKeys) (kept bestMatches))))).

(** The candidates without a record of the second catalog. *)
Definition unmatched (matched : list Match) : list Match :=
  filter (fun m : Match => m.1.2 = None) matched.

(** [best] is, among the candidates of [matched] for the second-catalog
    identifier [id], the first one to attain the smallest separation: no
    candidate for [id] is strictly closer, and every earlier one is strictly
    farther. *)
Definition first_closest (matched : list Match) (id : Z)
    (best : Record * Record * Angle) : Prop :=
  ∃ k : nat,
    matched !! k = Some (best.1.1, Some best.1.2, best.2) ∧
    getId best.1.2 = id ∧
    ∀ (j : nat) m1 m2 d,
      matched !! j = Some (m1, Some m2, d) → getId m2 = id →
      angle_lt d best.2 = false ∧ ((j < k)%nat → angle_lt best.2 d = true).

End Matcher.

Arguments Match Angle : clear implicits.
Arguments reduceStep {Angle} angle_lt st m.
Arguments reduceMatches {Angle} angle_lt matched.
Arguments report {Angle} cat1 matched bestMatches noMatch.
Arguments mergedRecord {Angle} scm cat2Keys catKeys best.
Arguments kept {Angle} bestMatches.
Arguments strictMatch {Angle} angle_lt matchRaDec cat1 cat2 matchRadius
  includeMismatches.
Arguments unmatched {Angle} matched.
Arguments first_closest {Angle} angle_lt matched id best.

(** ** Vocabulary of the properties *)

(** [name] ends with [suffix]. *)
Definition ends_with (name suffix : string) : Prop :=
  ∃ pre : string, name = pre +:+ suffix.

Definition bandSuffixes : list string := ["_g"; "_r"; "_i"; "_z"; "_y"].

(** The one-character string holding a line feed. *)
Definition lf : string := String newline EmptyString.

Definition key_sorted {A} (key : A → option Z) : list A → Prop :=
  StronglySorted (fun a b => key_le (key a) (key b) = true).


(** The fixed band order g < r < i < z < y, on suffixes. *)
Definition band_lt (a b : string) : Prop :=
  match _suffixOrder a, _suffixOrder b with
  | Some i, Some j => i < j
  | _, _ => False
  end.


(** The claim about [getCatSuffixes], for one catalog: the distinct band
    suffixes that column names end in, in band order, and none exactly when
    no column name ends in one. *)
Definition suffixes_claim (cat : Catalog) : Prop :=
  NoDup (getCatSuffixes cat) ∧
  StronglySorted band_lt (getCatSuffixes cat) ∧
  (∀ s, s ∈ getCatSuffixes cat ↔
        s ∈ bandSuffixes ∧
        ∃ name, name ∈ fieldNames (getSchema cat) ∧ ends_with name s) ∧
  (getCatSuffixes cat = [] ↔
   ∀ name s, name ∈ fieldNames (getSchema cat) → s ∈ bandSuffixes →
             ¬ ends_with name s).

(** A catalog without records whose columns have the given names. *)
Definition emptyCatalog (names : list string) : Catalog :=
  mkCatalog (map (fun name => mkField name TF "") names) [].

(** The flag columns that [goodSources] treats as bad. *)
Definition badFlags : list string :=
  ["flags.pixel.edge"; "flags.pixel.bad"; "flags.pixel.saturated.center"].

(** The filter names that [_getFilterSuffix] translates. *)
Definition hscFilters : list string :=
  ["HSC-G"; "HSC-R"; "HSC-I"; "HSC-Z"; "HSC-Y"].

(** The column names that [createSchemaMapper] maps straight through when
    it is given no filter suffix, in the order it maps them. *)
Definition mappedNames (cat : Catalog) : list string :=
  let schema := getSchema cat in
  let suffixes := getCatSuffixes cat in
  (_fixedFields
   ++ flat_map (extract schema) _fixedPatterns
   ++ (if Nat.eqb (length suffixes) 0 then _suffixableFields
       else flat_map (fun f => map (fun s => f +:+ s) suffixes)
                     _suffixableFields)
   ++ flat_map (extract schema) _suffixablePatterns)%list.

(** The column names that step 3 reserves for the second catalog. *)
Definition reservedNames (cat2 : Catalog) : list string :=
  (flat_map (fun f => map (fun s => f +:+ s) (getCatSuffixes cat2))
            _suffixableFields
   ++ flat_map (extract (getSchema cat2)) _suffixablePatterns)%list.

(** One reservation of step 3: the column [f] of the second schema becomes
    an output-only column. *)
Definition reserveOne (schema2 : Schema) (scm : SchemaMapper) (f : string)
  : result SchemaMapper :=
  item ← find schema2 f;
  addOutputField scm (getField item).

(** The names of the target columns of the copy directives, and of the
    output columns. *)
Definition targetNames (scm : SchemaMapper) : list string :=
  map (fun m : Key * Key => getName m.2) (getMappings scm).

Definition outputNames (scm : SchemaMapper) : list string :=
  fieldNames (getOutputSchema scm).

(** The columns [fields] of [m2] written into [record], one after the
    other. *)
Definition copyFields (m2 : Record) (fields : list string) (record : Record)
  : Record :=
  fold_left (fun r f => partial_alter (fun _ => m2 !! f) f r) fields record.

(** What the claim says of one output record [row] built for the kept
    match [best]: the mapped columns hold the values of the first record,
    the columns picked from the second catalog hold the values of the
    second record, and no other column is written. *)
Definition merged_from {Angle : Type} (scm : SchemaMapper) (cat2 : Catalog)
    (best : Record * Record * Angle) (row : Record) : Prop :=
  (∀ m : Key * Key, m ∈ getMappings scm →
     row !! getName m.2 = best.1.1 !! getName m.1) ∧
  (∀ f, f ∈ cat2Fields cat2 → row !! f = best.1.2 !! f) ∧
  (∀ name, is_Some (row !! name) →
     name ∈ targetNames scm ∨ name ∈ cat2Fields cat2).

(** A pattern character that stands for itself. *)
Definition plain (c : ascii) : Prop := c ≠ "*"%char ∧ c ≠ "?"%char.

(** A result that is not a [ValueError]. *)
Definition no_ValueError {A : Type} (r : result A) : Prop :=
  ∀ msg, r ≠ Raise (ValueError msg).

(** The messages of the two [ValueError]s of [createSchemaMapper]. *)
Definition twoCatalogsMessage : string :=
  "Can't use filterSuffix for two catalogs".
Definition alreadySuffixedMessage : string :=
  "Can't add a suffix to a catalog that already has suffixes".

(** [scm'] is [scm] with more copy directives, each to a target column of
    the name of its source column, and more output columns. *)
Definition grows (scm scm' : SchemaMapper) : Prop :=
  (∃ ms, getMappings scm' = (getMappings scm ++ ms)%list ∧
         Forall (fun m : Key * Key => getName m.2 = getName m.1) ms) ∧
  (∃ fs, getOutputSchema scm' = (getOutputSchema scm ++ fs)%list).

(** ** Example catalogs *)

(** The schema of a single-band catalog whose suffixable columns carry the
    suffix [s] ([""] for a raw catalog). *)
Definition bandSchema (s : string) : Schema :=
  ([mkField "id" TL "unique id"; mkField "coord" TCoord "position"]
   ++ map (fun name => mkField (name +:+ s) TL "") ["parent"; "deblend.nchild"]
   ++ [mkField ("classification.extendedness" +:+ s) TF ""]
   ++ map (fun name => mkField (name +:+ s) TFlag "")
          ["flags.pixel.bad";
           "flags.pixel.edge";
           "flags.pixel.interpolated.any";
           "flags.pixel.interpolated.center";
           "flags.pixel.saturated.any";
           "flags.pixel.saturated.center"]
   ++ [mkField ("flux.psf" +:+ s) TF "psf flux";
       mkField ("flux.psf.err" +:+ s) TF "psf flux error"])%list.

(** A record of such a catalog: its identifier, whether it lies on the
    edge, its number of children and the bits of its flux. *)
Definition bandRecord (s : string) (id : Z) (edge : bool) (nchild flux : Z)
  : Record :=
  list_to_map
    [("id", VL id);
     ("coord", VCoord id id);
     ("deblend.nchild" +:+ s, VL nchild);
     ("flags.pixel.edge" +:+ s, VFlag edge);
     ("flux.psf" +:+ s, VF flux)].

Definition rawCatalog : Catalog :=
  mkCatalog (bandSchema "")
    [bandRecord "" 1 true 0 1065353216;
     bandRecord "" 2 false 0 1073741824;
     bandRecord "" 3 false 2 1077936128].

Definition catalogG : Catalog :=
  mkCatalog (bandSchema "_g")
    [bandRecord "_g" 1 false 0 1065353216;
     bandRecord "_g" 2 false 0 1073741824;
     bandRecord "_g" 3 false 0 1077936128;
     bandRecord "_g" 4 false 0 1082130432].

Definition catalogR : Catalog :=
  mkCatalog (bandSchema "_r")
    [bandRecord "_r" 101 false 0 1065353216;
     bandRecord "_r" 102 false 0 1073741824].

(** A cross-match of [catalogG] against [catalogR], separations in tenths
    of an arc second: two candidates for record 101, one for 102, and
    record 4 without a partner. *)
Definition exampleCandidates : list (Match Z) :=
  [(bandRecord "_g" 1 false 0 1065353216,
    Some (bandRecord "_r" 101 false 0 1065353216), 5);
   (bandRecord "_g" 2 false 0 1073741824,
    Some (bandRecord "_r" 101 false 0 1065353216), 3);
   (bandRecord "_g" 3 false 0 1077936128,
    Some (bandRecord "_r" 102 false 0 1073741824), 2);
   (bandRecord "_g" 4 false 0 1082130432, None, 0)].

Definition exampleMatchRaDec (cat1 cat2 : Catalog) (radius : Z)
    (includeMismatches : bool) : list (Match Z) :=
  exampleCandidates.

(** The mapper that [strictMatch] builds for the two example catalogs, the
    keys it resolves, and the catalog it returns. *)
Definition exampleMapper : SchemaMapper :=
  Eval vm_compute in
    match createSchemaMapper catalogG (Some catalogR) None
            false false false false with
    | Ok scm => scm
    | Raise _ => newSchemaMapper []
    end.

Definition exampleKeys : list Key * list Key :=
  Eval vm_compute in
    match resolveKeys (getSchema catalogR) (getOutputSchema exampleMapper)
            (cat2Fields catalogR) with
    | Ok keys => keys
    | Raise _ => ([], [])
    end.

Definition exampleMerged : Catalog :=
  mkCatalog (getOutputSchema exampleMapper)
    (map (mergedRecord exampleMapper exampleKeys.1 exampleKeys.2)
         (kept (reduceMatches Z.ltb exampleCandidates).1)).

(** The mapper built for a raw catalog, a second catalog and the empty
    string as filter suffix. *)
Definition emptySuffixMapper : SchemaMapper :=
  Eval vm_compute in
    match createSchemaMapper rawCatalog (Some catalogR) (Some "")
            false false false false with
    | Ok scm => scm
    | Raise _ => newSchemaMapper []
    end.

(** A cross-match of [catalogG] against the raw catalog, which has no
    suffixed column; what [strictMatch] builds and returns for it. *)
Definition rawCandidates : list (Match Z) :=
  [(bandRecord "_g" 1 false 0 1065353216,
    Some (bandRecord "" 1 true 0 1065353216), 4);
   (bandRecord "_g" 2 false 0 1073741824, None, 0)].

Definition rawMatchRaDec (cat1 cat2 : Catalog) (radius : Z)
    (includeMismatches : bool) : list (Match Z) :=
  rawCandidates.

Definition rawPairMapper : SchemaMapper :=
  Eval vm_compute in
    match createSchemaMapper catalogG (Some rawCatalog) None
            false false false false with
    | Ok scm => scm
    | Raise _ => newSchemaMapper []
    end.

Definition rawPairMerged : Catalog :=
  mkCatalog (getOutputSchema rawPairMapper)
    (map (mergedRecord rawPairMapper [] [])
         (kept (reduceMatches Z.ltb rawCandidates).1)).

(** ** getCatBands *)

Definition _bandOrder (suffix : string) : option Z :=
  if String.eqb suffix "g" then Some 1
  else if String.eqb suffix "r" then Some 2
  else if String.eqb suffix "i" then Some 3
  else if String.eqb suffix "z" then Some 4
  else if String.eqb suffix "y" then Some 5
  else None.

(** [_bandRegex.search(fieldName)] for [_bandRegex = (\.[grizy])$], giving
    [match.group(1)]; the dollar sign is as in [_suffixRegex]. *)
Definition _bandRegex_search (fieldName : string) : option string :=
  match rev (list_ascii_of_string fieldName) with
  | c :: u :: rest =>
      if Ascii.eqb u "." && is_band c then
        Some (String u (String c EmptyString))
      else if Ascii.eqb c newline then
        match rest with
        | u' :: _ =>
            if Ascii.eqb u' "." && is_band u then
              Some (String u' (String u EmptyString))
            else None
        | [] => None
        end
      else None
  | _ => None
  end.

(** [s[-1]] as a one-character string, for a string that is not empty (the
    group the expression captures has two characters). *)
Definition last_char (s : string) : string :=
  match rev (list_ascii_of_string s) with
  | c :: _ => String c EmptyString
  | [] => EmptyString
  end.

(** The body of the scanning loop of [getCatBands]. *)
Definition bandStep (bands : list string) (fieldName : string) : list string :=
  match _bandRegex_search fieldName with
  | Some group1 =>
      let band := last_char group1 in
      if bool_decide (band ∈ bands) then bands
      else (bands ++ [band])%list
  | None => bands
  end.

Definition getCatBands (cat : Catalog) : list string :=
  sort_by_key _bandOrder
    (fold_left bandStep (fieldNames (getSchema cat)) []).

(** ** Printing computations *)

(** A function that prints and may raise: the lines printed up to the
    point where it returns or raises, and its result. *)
Definition IO (A : Type) : Type := (list printed * result A)%type.

#[global] Instance IO_ret : MRet IO := fun _ a => ([], Ok a).
#[global] Instance IO_bind : MBind IO := fun _ _ f m =>
  match m with
  | (out, Ok a) => ((out ++ (f a).1)%list, (f a).2)
  | (out, Raise e) => (out, Raise e)
  end.

(** [print template.format(arguments)]. *)
Definition print (template : string) (arguments : list Z) : IO unit :=
  ([Print template arguments], Ok tt).

(** A step that prints nothing. *)
Definition quiet {A : Type} (r : result A) : IO A := ([], r).

(** ** buildXY *)

(** [v == 2] for a column entry [v]: an integer is compared as it is, a
    float is 2.0 when its bits are those of 2.0, a flag is at most 1, and a
    coordinate is no number. *)
Definition equals_two (v : option value) : bool :=
  match v with
  | Some (VL n) => n =? 2
  | Some (VF bits) => bits =? 1073741824
  | _ => false
  end.

Section BuildXY.

Variable Angle : Type.
Variable angle_lt : Angle → Angle → bool.
Variable matchRaDec : Catalog → Catalog → Angle → bool → list (Match Angle).

(** An entry [[isStar, magAuto, d, m1]] of the dictionary [stellar]. *)
Definition Truth : Type := (bool * option value * Angle * Record)%type.

(** One pass of the loop that builds the truth table; the loop state is
    [(stellar, noMatch)]. *)
Definition xyStep (classKey magAutoKey : Key)
    (st : gmap Z Truth * list Z) (m : Match Angle) : gmap Z Truth * list Z :=
  let '(stellar, noMatch) := st in
  let '(m1, m2, d) := m in
  match m2 with
  | None => (stellar, (noMatch ++ [getId m1])%list)
  | Some m2 =>
      let id := getId m2 in
      let isStar := equals_two (get m2 classKey) in
      let magAuto := get m2 magAutoKey in
      match stellar !! id with
      | None => (<[id := (isStar, magAuto, d, m1)]> stellar, noMatch)
      | Some old =>
          if angle_lt d old.1.2 then
            (<[id := (isStar, magAuto, d, m1)]> stellar, noMatch)
          else (stellar, noMatch)
      end
  end.

(** The body of the last loop, for one entry of [stellar]. *)
Definition truthRecord (scm : SchemaMapper) (stellarKey magAutoKey : Key)
    (entry : Truth) : Record :=
  let '(isStar, magAuto, d, m2) := entry in
  let record := assign newRecord m2 scm in
  let record := set record stellarKey (Some (VFlag isStar)) in
  set record magAutoKey magAuto.

Definition buildXY (hscCat sgTable : Catalog) (matchRadius : Angle)
    (includeMismatches : bool) : IO retval :=
  _ ← print "Matching with HST catalog" [];
  let matchedSG := matchRaDec hscCat sgTable matchRadius includeMismatches in
  _ ← print "Found {0} matches with HST objects" [len matchedSG];
  (* Build truth table *)
  classItem ← quiet (find (getSchema sgTable) "mu.class");
  magAutoItem ← quiet (find (getSchema sgTable) "mag.auto");
  let st :=
    fold_left (xyStep (getKey classItem) (getKey magAutoItem)) matchedSG
              (∅, []) in
  let stellar := st.1 in
  let noMatch := st.2 in
  _ ← (if includeMismatches then
         _ ← print "{0} objects from {1} in the HSC catalog had no match in the HST catalog."
               [len noMatch; len (records hscCat)];
         print "{0} objects from the HSC catalog with a match in the HST catalog were not the closest match."
               [len matchedSG - len noMatch - Z.of_nat (size stellar)]
       else mret tt);
  _ ← print "Of which I picked {0}" [Z.of_nat (size stellar)];
  scm ← quiet (createSchemaMapper hscCat None None false true false false);
  let schema := getOutputSchema scm in
  stellarItem ← quiet (find schema "stellar");
  magAutoItem' ← quiet (find schema "mag.auto");
  let cat :=
    mkCatalog schema
      (map (truthRecord scm (getKey stellarItem) (getKey magAutoItem'))
           (map_to_list stellar).*2) in
  mret (if includeMismatches then RetCatalogAndNoMatch cat noMatch
        else RetCatalog cat).

End BuildXY.

Arguments Truth Angle : clear implicits.
Arguments xyStep {Angle} angle_lt classKey magAutoKey st m.
Arguments truthRecord {Angle} scm stellarKey magAutoKey entry.
Arguments buildXY {Angle} angle_lt matchRaDec hscCat sgTable matchRadius
  includeMismatches.

(** ** matchMultiBand *)

(** What [matchMultiBand] can raise besides what [strictMatch] raises: an
    [IndexError] for [cats[0]] or [cats[i]], and a [TypeError] were a pair
    handed to [strictMatch] as its first catalog. *)
Inductive pyexn : Type :=
  | IndexError
  | TypeError
  | Library (e : exn).

Inductive outcome (A : Type) : Type :=
  | Returned (a : A)
  | Raised (e : pyexn).
Arguments Returned {A} a.
Arguments Raised {A} e.

Section MatchMultiBand.

Variable Angle : Type.
Variable angle_lt : Angle → Angle → bool.
Variable matchRaDec : Catalog → Catalog → Angle → bool → list (Match Angle).

(** [1*afwGeom.arcseconds], the default radius of [strictMatch]. *)
Variable oneArcsecond : Angle.

(** [butler.fetchDataset(dataType, filterSuffix=f, filter=f, **kargs)], a
    collaborator, as a function of the filter [f]. *)
Variable fetchDataset : string → Catalog.

(** The loop [for i in range(1, len(filters))] from the index list on;
    the loop state is [matched]. *)
Fixpoint matchLoop (cats : list Catalog) (indices : list nat)
    (matched : Catalog) : list printed * outcome Catalog :=
  match indices with
  | [] => ([], Returned matched)
  | i :: indices' =>
      match cats !! i with
      | None => ([], Raised IndexError)
      | Some cat =>
          match strictMatch angle_lt matchRaDec matched cat oneArcsecond true
          with
          | (out, Raise e) => (out, Raised (Library e))
          | (out, Ok (RetCatalog matched')) =>
              let rest := matchLoop cats indices' matched' in
              ((out ++ rest.1)%list, rest.2)
          | (out, Ok (RetCatalogAndNoMatch _ _)) => (out, Raised TypeError)
          end
      end
  end.

Definition matchMultiBand (filters : list string)
  : list printed * outcome Catalog :=
  let cats := map fetchDataset filters in
  match cats !! 0%nat with
  | None => ([], Raised IndexError)
  | Some matched => matchLoop cats (seq 1 (length filters - 1)) matched
  end.

End MatchMultiBand.

Arguments matchLoop {Angle} angle_lt matchRaDec oneArcsecond cats indices
  matched.
Arguments matchMultiBand {Angle} angle_lt matchRaDec oneArcsecond
  fetchDataset filters.

(** The band letters, and the order [_bandOrder] puts them in. *)
Definition bandNames : list string := ["g"; "r"; "i"; "z"; "y"].

Definition bandName_lt (a b : string) : Prop :=
  match _bandOrder a, _bandOrder b with
  | Some i, Some j => i < j
  | _, _ => False
  end.

(** The synthetic columns that the [with...] flags ask for, in the order
    they are added; [fan] gives the columns that stand for a list of
    templates. *)
Definition syntheticFields (fan : list Field → list Field)
    (withZeroMagFlux withStellar withSeeing withExptime : bool)
  : list Field :=
  ((if withZeroMagFlux then fan [_zeroMagField; _zeroMagErrField] else [])
   ++ (if withSeeing then fan [_seeingField] else [])
   ++ (if withExptime then fan [_exptimeField] else [])
   ++ (if withStellar then [_stellarField; _magAutoField] else []))%list.

(** The templates as they are, or once per discovered suffix. *)
Definition fanSuffixes (suffixes : list string) (fields : list Field)
  : list Field :=
  if Nat.eqb (length suffixes) 0 then fields
  else flat_map (fun s =>
                   map (fun fld => copyRenamed fld (getName fld +:+ s)) fields)
                suffixes.

(** The templates renamed with the filter suffix. *)
Definition fanFilter (suffix : string) (fields : list Field) : list Field :=
  map (fun fld => copyRenamed fld (getName fld +:+ suffix)) fields.

(** The schema and the reserved names of the second catalog, if any. *)
Definition schemaOf (cat2 : option Catalog) : Schema :=
  match cat2 with
  | Some cat2 => getSchema cat2
  | None => []
  end.

Definition reservedOf (cat2 : option Catalog) : list string :=
  match cat2 with
  | Some cat2 => reservedNames cat2
  | None => []
  end.

(** The fixed and the suffixable column names of a catalog, in the order
    [createSchemaMapper] goes through them. *)
Definition fixedNames (cat : Catalog) : list string :=
  (_fixedFields ++ flat_map (extract (getSchema cat)) _fixedPatterns)%list.

Definition suffixableNames (cat : Catalog) : list string :=
  (_suffixableFields
   ++ flat_map (extract (getSchema cat)) _suffixablePatterns)%list.

(** The copy of a column under its name and a suffix. *)
Definition renamed (suffix : string) (item : Field) : Field :=
  copyRenamed item (getName item +:+ suffix).

(** The mapper built for a raw catalog renamed for the g band, with all
    synthetic columns. *)
Definition bandMapper : SchemaMapper :=
  Eval vm_compute in
    match createSchemaMapper rawCatalog None (Some "HSC-G")
            true true true true with
    | Ok scm => scm
    | Raise _ => newSchemaMapper []
    end.

(** ** Vocabulary of the properties of buildXY *)

(** The entry that [buildXY] stores for a kept match [(m1, m2, d)]. *)
Definition truthOf {Angle : Type} (classKey magAutoKey : Key)
    (best : Record * Record * Angle) : Truth Angle :=
  (equals_two (get best.1.2 classKey), get best.1.2 magAutoKey,
   best.2, best.1.1).

(** What [buildXY] puts into the row for the kept match [best]: the star
    flag and the magnitude of the reference record, the mapped columns of
    the HSC record, and nothing else. *)
Definition truthRow {Angle : Type} (hscCat : Catalog)
    (best : Record * Record * Angle) (row : Record) : Prop :=
  row !! "stellar" = Some (VFlag (equals_two (best.1.2 !! "mu.class"))) ∧
  row !! "mag.auto" = best.1.2 !! "mag.auto" ∧
  (∀ f, f ∈ mappedNames hscCat → row !! f = best.1.1 !! f) ∧
  (∀ name, is_Some (row !! name) →
     name ∈ mappedNames hscCat ∨ name ∈ ["stellar"; "mag.auto"]).

(** The lines that [buildXY] prints. *)
Definition xyHead {Angle : Type} (matched : list (Match Angle))
  : list printed :=
  [Print "Matching with HST catalog" [];
   Print "Found {0} matches with HST objects" [len matched]].

Definition xyReport {Angle : Type} (hscCat : Catalog)
    (matched : list (Match Angle)) (noMatch picked : Z) : list printed :=
  [Print "{0} objects from {1} in the HSC catalog had no match in the HST catalog."
         [noMatch; len (records hscCat)];
   Print "{0} objects from the HSC catalog with a match in the HST catalog were not the closest match."
         [len matched - noMatch - picked]].

Definition xyPicked (picked : Z) : list printed :=
  [Print "Of which I picked {0}" [picked]].

(** A reference table with the classification and the magnitude, and a
    cross-match of [rawCatalog] against it: one candidate with a partner
    and one without. *)
Definition sgTable : Catalog :=
  mkCatalog
    [mkField "id" TL "unique id"; mkField "coord" TCoord "position";
     mkField "mu.class" TL "classification";
     mkField "mag.auto" TF "magnitude"]
    [list_to_map [("id", VL 7); ("coord", VCoord 1 1);
                  ("mu.class", VL 2); ("mag.auto", VF 1073741824)]].

Definition xyCandidates : list (Match Z) :=
  [(bandRecord "" 1 true 0 1065353216,
    Some (list_to_map [("id", VL 7); ("coord", VCoord 1 1);
                       ("mu.class", VL 2); ("mag.auto", VF 1073741824)]), 3);
   (bandRecord "" 2 false 0 1073741824, None, 0)].

Definition xyMatchRaDec (cat1 cat2 : Catalog) (radius : Z)
    (includeMismatches : bool) : list (Match Z) :=
  xyCandidates.

(** The mapper that [buildXY] builds for [rawCatalog]. *)
Definition xyMapper : SchemaMapper :=
  Eval vm_compute in
    match createSchemaMapper rawCatalog None None false true false false with
    | Ok scm => scm
    | Raise _ => newSchemaMapper []
    end.

(** A butler that has the two example catalogs. *)
Definition exampleFetch (f : string) : Catalog :=
  if String.eqb f "HSC-G" then catalogG else catalogR.

(** * Properties *)

(** ** The filter-name table *)

(** C8: [_getFilterSuffix] sends each of the five HSC filter names to its
    two-character suffix ("HSC-G" to "_g", "HSC-R" to "_r", "HSC-I" to
    "_i", "HSC-Z" to "_z", "HSC-Y" to "_y") and gives back every other
    string unchanged. *)
Theorem getFilterSuffix_table :
  _getFilterSuffix "HSC-G" = "_g" ∧
  _getFilterSuffix "HSC-R" = "_r" ∧
  _getFilterSuffix "HSC-I" = "_i" ∧
  _getFilterSuffix "HSC-Z" = "_z" ∧
  _getFilterSuffix "HSC-Y" = "_y" ∧
  ∀ s : string, s ∉ hscFilters → _getFilterSuffix s = s.
Proof.
  repeat split; try reflexivity.
  intros s Hs. unfold _getFilterSuffix.
  repeat match goal with
         | |- context [String.eqb s ?t] =>
             destruct (String.eqb_spec s t) as [->|_];
             [exfalso; apply Hs; unfold hscFilters; set_solver|]
         end.
  reflexivity.
Qed.

Lemma getFilterSuffix_table_witness :
  ("_g" ∉ hscFilters) ∧ _getFilterSuffix "_g" = "_g".
Proof.
  assert (H : "_g" ∉ hscFilters).
  { unfold hscFilters. intros H. repeat (apply elem_of_cons in H as [H|H]; [discriminate H|]).
    by apply elem_of_nil in H. }
  split; [exact H|].
  exact (proj2 (proj2 (proj2 (proj2 (proj2 getFilterSuffix_table)))) "_g" H).
Defined.

(** ** Strings *)

Lemma list_ascii_of_string_app (a b : string) :
  list_ascii_of_string (a +:+ b)
  = (list_ascii_of_string a ++ list_ascii_of_string b)%list.
Proof. induction a as [|c a IH]; simpl; [reflexivity | by rewrite IH]. Qed.

Lemma string_of_list_ascii_app (a b : list ascii) :
  string_of_list_ascii (a ++ b)
  = string_of_list_ascii a +:+ string_of_list_ascii b.
Proof. induction a as [|c a IH]; simpl; [reflexivity | by rewrite IH]. Qed.

Lemma string_app_assoc (a b c : string) : (a +:+ b) +:+ c = a +:+ b +:+ c.
Proof.
  induction a as [|x a IH]; [reflexivity|].
  change (String x ((a +:+ b) +:+ c) = String x (a +:+ b +:+ c)).
  by rewrite IH.
Qed.

Lemma string_of_rev_cons (name : string) (l : list ascii) (tail : list ascii) :
  rev (list_ascii_of_string name) = (tail ++ l)%list →
  name = string_of_list_ascii (rev l) +:+ string_of_list_ascii (rev tail).
Proof.
  intros E. rewrite <- string_of_list_ascii_app, <- rev_app_distr, <- E.
  by rewrite rev_involutive, string_of_list_ascii_of_string.
Qed.

Lemma is_band_suffix (c : ascii) :
  is_band c = true → String "_" (String c EmptyString) ∈ bandSuffixes.
Proof.
  unfold is_band, bandSuffixes. intros H.
  repeat match goal with
         | H : (_ || _)%bool = true |- _ => apply orb_true_iff in H as [H|H]
         | H : Ascii.eqb _ _ = true |- _ => apply Ascii.eqb_eq in H; subst c
         end; set_solver.
Qed.

Lemma bandSuffixes_inv (s : string) :
  s ∈ bandSuffixes →
  ∃ c, s = String "_" (String c EmptyString) ∧ is_band c = true.
Proof.
  unfold bandSuffixes. intros H.
  repeat (apply elem_of_cons in H as [->|H]; [eexists; split; reflexivity|]).
  by apply elem_of_nil in H.
Qed.

(** What the regular expression finds: a band suffix that closes the name,
    or that is followed by one closing line feed only. *)
Lemma suffixRegex_search_Some (name s : string) :
  _suffixRegex_search name = Some s ↔
  s ∈ bandSuffixes ∧ (ends_with name s ∨ ends_with name (s +:+ lf)).
Proof.
  split.
  - unfold _suffixRegex_search.
    destruct (rev (list_ascii_of_string name)) as [|c [|u rest]] eqn:E;
      try discriminate.
    destruct (Ascii.eqb u "_" && is_band c) eqn:T.
    + intros [= <-]. apply andb_true_iff in T as [Hu Hc].
      apply Ascii.eqb_eq in Hu. subst u. split; [by apply is_band_suffix|].
      left. exists (string_of_list_ascii (rev rest)).
      apply (string_of_rev_cons name rest [c; "_"%char]) in E. exact E.
    + destruct (Ascii.eqb c newline) eqn:Hc; [|discriminate].
      destruct rest as [|u' rest]; [discriminate|].
      destruct (Ascii.eqb u' "_" && is_band u) eqn:T'; [|discriminate].
      intros [= <-]. apply andb_true_iff in T' as [Hu' Hu].
      apply Ascii.eqb_eq in Hu', Hc. subst u' c.
      split; [by apply is_band_suffix|].
      right. exists (string_of_list_ascii (rev rest)).
      apply (string_of_rev_cons name rest [newline; u; "_"%char]) in E.
      exact E.
  - intros [Hs H]. apply bandSuffixes_inv in Hs as (c & -> & Hc).
    unfold _suffixRegex_search.
    destruct H as [[pre ->]|[pre ->]].
    + rewrite list_ascii_of_string_app, rev_app_distr. simpl.
      by rewrite Hc.
    + rewrite list_ascii_of_string_app, rev_app_distr. simpl.
      rewrite Hc.
      assert (is_band newline = false) as -> by reflexivity.
      by rewrite andb_false_r.
Qed.

Lemma ends_with_lf (name s : string) :
  ends_with name (s +:+ lf) → ends_with name lf.
Proof.
  intros [pre ->]. exists (pre +:+ s). by rewrite string_app_assoc.
Qed.

(** ** Sorting by key *)

Lemma insert_by_key_Permutation {A} (key : A → option Z) x l :
  insert_by_key key x l ≡ₚ x :: l.
Proof.
  induction l as [|y l IH]; simpl; [done|].
  destruct (key_le (key x) (key y)); [done|].
  rewrite IH. apply Permutation_swap.
Qed.

Lemma sort_by_key_Permutation {A} (key : A → option Z) l :
  sort_by_key key l ≡ₚ l.
Proof.
  induction l as [|x l IH]; simpl; [done|].
  unfold sort_by_key in *. simpl.
  by rewrite insert_by_key_Permutation, IH.
Qed.

Lemma key_le_total a b : key_le a b = false → key_le b a = true.
Proof. destruct a, b; simpl; try done. intros; lia. Qed.

Lemma key_le_trans a b c :
  key_le a b = true → key_le b c = true → key_le a c = true.
Proof. destruct a, b, c; simpl; try done. intros; lia. Qed.

Lemma insert_by_key_sorted {A} (key : A → option Z) x l :
  key_sorted key l → key_sorted key (insert_by_key key x l).
Proof.
  unfold key_sorted.
  induction 1 as [|y l Hs IH Hy]; simpl.
  - repeat constructor.
  - destruct (key_le (key x) (key y)) eqn:E.
    + constructor; [by constructor|].
      constructor; [done|].
      eapply Forall_impl; [exact Hy|]. intros z Hz. simpl in Hz.
      by eapply key_le_trans.
    + constructor; [done|].
      rewrite insert_by_key_Permutation. constructor; [|done].
      by apply key_le_total.
Qed.

Lemma sort_by_key_sorted {A} (key : A → option Z) l :
  key_sorted key (sort_by_key key l).
Proof.
  induction l as [|x l IH]; [constructor|].
  by apply insert_by_key_sorted.
Qed.

(** ** getCatSuffixes *)

Lemma scanStep_spec (acc : list string) (name s : string) :
  s ∈ scanStep acc name ↔ s ∈ acc ∨ _suffixRegex_search name = Some s.
Proof.
  unfold scanStep. destruct (_suffixRegex_search name) as [t|].
  - case_bool_decide as Ht.
    + split; [by left|]. intros [?|[= <-]]; done.
    + rewrite elem_of_app, list_elem_of_singleton.
      split; intros [?|H]; auto; [right; by subst|right; by injection H].
  - split; [by left|]. by intros [?|?].
Qed.

Lemma scanStep_NoDup (acc : list string) (name : string) :
  NoDup acc → NoDup (scanStep acc name).
Proof.
  intros Hacc. unfold scanStep. destruct (_suffixRegex_search name) as [t|]; [|done].
  case_bool_decide as Ht; [done|].
  apply NoDup_app. split; [done|]. split; [|apply NoDup_singleton].
  intros x Hx ->%list_elem_of_singleton. done.
Qed.

Lemma scan_spec (names acc : list string) (s : string) :
  s ∈ fold_left scanStep names acc ↔
  s ∈ acc ∨ ∃ name, name ∈ names ∧ _suffixRegex_search name = Some s.
Proof.
  revert acc. induction names as [|n names IH]; intros acc; simpl.
  - split; [by left|]. intros [?|(? & []%elem_of_nil & _)]. done.
  - rewrite IH, scanStep_spec. split.
    + intros [[?|?]|(name & ? & ?)]; [by left|right..].
      * exists n. split; [left|done].
      * exists name. split; [by right|done].
    + intros [?|(name & [->|?]%elem_of_cons & ?)].
      * by left; left.
      * by left; right.
      * right. by exists name.
Qed.

Lemma scan_NoDup (names acc : list string) :
  NoDup acc → NoDup (fold_left scanStep names acc).
Proof.
  revert acc. induction names as [|n names IH]; intros acc Hacc; simpl; [done|].
  by apply IH, scanStep_NoDup.
Qed.

Lemma getCatSuffixes_elem (cat : Catalog) (s : string) :
  s ∈ getCatSuffixes cat ↔
  ∃ name, name ∈ fieldNames (getSchema cat) ∧
          _suffixRegex_search name = Some s.
Proof.
  unfold getCatSuffixes, scanSuffixes.
  rewrite sort_by_key_Permutation, scan_spec.
  split; [intros [[]%elem_of_nil|?]; done | by right].
Qed.

Lemma getCatSuffixes_NoDup (cat : Catalog) : NoDup (getCatSuffixes cat).
Proof.
  unfold getCatSuffixes, scanSuffixes.
  rewrite sort_by_key_Permutation. apply scan_NoDup, NoDup_nil_2.
Qed.

Lemma getCatSuffixes_band (cat : Catalog) (s : string) :
  s ∈ getCatSuffixes cat → s ∈ bandSuffixes.
Proof.
  intros (name & _ & H)%getCatSuffixes_elem.
  by apply suffixRegex_search_Some in H as [? _].
Qed.

Lemma band_lt_of_key_le (a b : string) :
  a ∈ bandSuffixes → b ∈ bandSuffixes → a ≠ b →
  key_le (_suffixOrder a) (_suffixOrder b) = true → band_lt a b.
Proof.
  unfold bandSuffixes, band_lt. intros Ha Hb Hne.
  repeat (apply elem_of_cons in Ha as [->|Ha]);
    try (by apply elem_of_nil in Ha);
    repeat (apply elem_of_cons in Hb as [->|Hb]);
    try (by apply elem_of_nil in Hb);
    try done; simpl; intros; lia.
Qed.

Lemma getCatSuffixes_sorted (cat : Catalog) :
  StronglySorted band_lt (getCatSuffixes cat).
Proof.
  pose proof (getCatSuffixes_NoDup cat) as Hnd.
  pose proof (getCatSuffixes_band cat) as Hband.
  assert (Hs : key_sorted _suffixOrder (getCatSuffixes cat))
    by apply sort_by_key_sorted.
  induction Hs as [|a l Hs IH Ha]; [constructor|].
  apply NoDup_cons in Hnd as [Hal Hnd].
  constructor.
  - apply IH; [done|]. intros s Hs'. apply Hband. by right.
  - apply Forall_forall. intros b Hb.
    apply band_lt_of_key_le.
    + apply Hband. by left.
    + apply Hband. by right.
    + intros ->. done.
    + rewrite Forall_forall in Ha. by apply Ha.
Qed.

Lemma ends_with_last (name suffix : string) (c : ascii) :
  ends_with name suffix →
  last (list_ascii_of_string suffix) = Some c →
  last (list_ascii_of_string name) = Some c.
Proof.
  intros [pre ->] H. rewrite list_ascii_of_string_app.
  destruct (list_ascii_of_string suffix) as [|x l] using rev_ind;
    [discriminate|].
  rewrite app_assoc, last_snoc. by rewrite last_snoc in H.
Qed.

Lemma not_ends_with_lf (name : string) :
  last (list_ascii_of_string name) ≠ Some newline → ¬ ends_with name lf.
Proof. intros H E. apply H. by eapply ends_with_last. Qed.

Lemma not_ends_with_band (name s : string) :
  s ∈ bandSuffixes →
  _suffixRegex_search name = None → ¬ ends_with name s.
Proof.
  intros Hs Hn E.
  assert (_suffixRegex_search name = Some s) as H
    by (apply suffixRegex_search_Some; auto).
  congruence.
Qed.

(** Where [getCatSuffixes] meets C6: on exactly the catalogs in which every
    band suffix that stands before the final line feed of a column name is
    also the ending of a column name.  There it returns the distinct band
    suffixes that column names end in, each once, sorted by the band order
    g<r<i<z<y, and nothing exactly when no column name ends in a band
    suffix. *)
Theorem getCatSuffixes_spec (cat : Catalog) :
  suffixes_claim cat ↔
  ∀ s, s ∈ bandSuffixes →
    (∃ name, name ∈ fieldNames (getSchema cat) ∧ ends_with name (s +:+ lf)) →
    ∃ name, name ∈ fieldNames (getSchema cat) ∧ ends_with name s.
Proof.
  split.
  - intros (_ & _ & Hmem & _) s Hs (name & Hin & He).
    apply Hmem. apply getCatSuffixes_elem. exists name. split; [done|].
    apply suffixRegex_search_Some. auto.
  - intros Hlf.
    assert (Hmem : ∀ s, s ∈ getCatSuffixes cat ↔
          s ∈ bandSuffixes ∧
          ∃ name, name ∈ fieldNames (getSchema cat) ∧ ends_with name s).
    { intros s. rewrite getCatSuffixes_elem. split.
      - intros (name & Hin & H).
        apply suffixRegex_search_Some in H as [Hs [H|H]].
        + split; [done|]. by exists name.
        + split; [done|]. apply Hlf; [done|]. by exists name.
      - intros (Hs & name & Hin & H). exists name. split; [done|].
        apply suffixRegex_search_Some. auto. }
    split; [apply getCatSuffixes_NoDup|].
    split; [apply getCatSuffixes_sorted|].
    split; [exact Hmem|].
    split.
    + intros E name s Hin Hs H.
      assert (s ∈ getCatSuffixes cat) as Hc by (apply Hmem; eauto).
      rewrite E in Hc. by apply elem_of_nil in Hc.
    + intros H. destruct (getCatSuffixes cat) as [|s l] eqn:E; [done|].
      exfalso.
      assert (s ∈ s :: l) as Hs by left.
      apply Hmem in Hs as (Hs & name & Hin & He). by eapply H.
Qed.

(** Two catalogs that meet it: one without line feeds, and one with a line
    feed that stands after no band suffix. *)
Lemma getCatSuffixes_spec_witness :
  suffixes_claim (emptyCatalog ["flux.psf_r"; "id"; "flux.psf_g"]) ∧
  getCatSuffixes (emptyCatalog ["flux.psf_r"; "id"; "flux.psf_g"])
  = ["_g"; "_r"] ∧
  suffixes_claim (emptyCatalog ["x" +:+ lf; "y_g"]) ∧
  getCatSuffixes (emptyCatalog ["x" +:+ lf; "y_g"]) = ["_g"].
Proof.
  split; [|split; [reflexivity|split; [|reflexivity]]].
  - apply (proj2 (getCatSuffixes_spec
                    (emptyCatalog ["flux.psf_r"; "id"; "flux.psf_g"]))).
    intros s Hs (name & Hin & He). exfalso.
    apply ends_with_lf in He. revert He. apply not_ends_with_lf.
    simpl in Hin.
    repeat (apply elem_of_cons in Hin as [->|Hin]; [discriminate|]).
    by apply elem_of_nil in Hin.
  - apply (proj2 (getCatSuffixes_spec (emptyCatalog ["x" +:+ lf; "y_g"]))).
    intros s Hs (name & Hin & He). simpl in Hin.
    apply elem_of_cons in Hin as [->|Hin].
    + exfalso. apply bandSuffixes_inv in Hs as (c & -> & Hc).
      destruct He as [pre He].
      apply (f_equal (fun t => rev (list_ascii_of_string t))) in He.
      rewrite !list_ascii_of_string_app, !rev_app_distr in He.
      simpl in He. discriminate He.
    + apply list_elem_of_singleton in Hin as ->.
      apply bandSuffixes_inv in Hs as (c & -> & Hc).
      exfalso. apply ends_with_lf in He. revert He.
      by apply not_ends_with_lf.
Defined.

(** C6 fails for a column whose name has a line feed after the suffix: the
    expression [(_[grizy])$] is searched for, and the dollar sign also
    matches before a final line feed, so the suffix is reported although no
    column name ends in it. *)
Lemma getCatSuffixes_line_feed :
  getCatSuffixes (emptyCatalog ["x_g" +:+ lf]) = ["_g"] ∧
  ¬ suffixes_claim (emptyCatalog ["x_g" +:+ lf]).
Proof.
  split; [reflexivity|].
  intros (_ & _ & _ & [_ H]).
  assert (E : getCatSuffixes (emptyCatalog ["x_g" +:+ lf]) = []); [|discriminate E].
  apply H. intros name s Hin Hs He. simpl in Hin.
  apply list_elem_of_singleton in Hin. subst name.
  apply bandSuffixes_inv in Hs as (c & -> & Hc).
  apply (ends_with_last _ _ c) in He; [|reflexivity].
  simpl in He. injection He as <-. discriminate Hc.
Qed.

(** ** Schema lookup *)

Lemma find_Ok (schema : Schema) (name : string) (item : Field) :
  find schema name = Ok item → item ∈ schema ∧ getName item = name.
Proof.
  induction schema as [|f schema IH]; simpl; [discriminate|].
  destruct (String.eqb_spec (getName f) name) as [E|_].
  - intros [= <-]. split; [left|done].
  - intros [? ?]%IH. split; [by right|done].
Qed.

Lemma find_elem_of (schema : Schema) (name : string) :
  name ∈ fieldNames schema → ∃ item, find schema name = Ok item.
Proof.
  unfold fieldNames. induction schema as [|f schema IH]; simpl.
  - by intros ?%elem_of_nil.
  - destruct (String.eqb_spec (getName f) name) as [E|Hne]; [by eexists|].
    intros [?|?]%elem_of_cons; [congruence|auto].
Qed.

Lemma find_Ok_elem_of (schema : Schema) (name : string) (item : Field) :
  find schema name = Ok item → name ∈ fieldNames schema.
Proof.
  intros [Hin <-]%find_Ok. unfold fieldNames. by apply list_elem_of_fmap_2.
Qed.

(** ** goodSources *)

Lemma cat_get_Ok (cat : Catalog) (name : string) :
  name ∈ fieldNames (getSchema cat) →
  cat_get name cat = (cat, Ok (map (fun r : Record => r !! name) (records cat))).
Proof.
  intros [item H]%find_elem_of. unfold cat_get. rewrite H. simpl.
  apply find_Ok in H as [_ <-]. reflexivity.
Qed.

Lemma goodSources_reads_only (cat : Catalog) : (goodSources cat).1 = cat.
Proof.
  unfold goodSources, reduce, mbind, CatM_bind, mret, CatM_ret, cat_get.
  repeat match goal with
         | |- context [find ?s ?n] => destruct (find s n); simpl
         end; reflexivity.
Qed.

(** C7: [goodSources] leaves the catalog as it was, and, when the catalog
    has the columns it reads, its mask is [False] at a record exactly when
    one of the bad-flag columns (edge, bad, saturated centre) is true for
    the record or its [deblend.nchild] is not zero, and [True] otherwise. *)
Theorem goodSources_mask (cat : Catalog) :
  (goodSources cat).1 = cat ∧
  ((∀ name, name ∈ "deblend.nchild" :: badFlags →
            name ∈ fieldNames (getSchema cat)) →
   ∃ good : list bool,
     (goodSources cat).2 = Ok (array good) ∧
     length good = length (records cat) ∧
     ∀ (i : nat) (r : Record), records cat !! i = Some r →
       ∃ b : bool, good !! i = Some b ∧
         (b = false ↔
          (∃ name, name ∈ badFlags ∧ nonzero (r !! name) = true)
          ∨ eq_zero (r !! "deblend.nchild") = false)).
Proof.
  split; [apply goodSources_reads_only|].
  intros Hcols.
  assert (H0 := cat_get_Ok cat "deblend.nchild").
  assert (H1 := cat_get_Ok cat "flags.pixel.edge").
  assert (H2 := cat_get_Ok cat "flags.pixel.bad").
  assert (H3 := cat_get_Ok cat "flags.pixel.saturated.center").
  unfold badFlags in *.
  unfold goodSources, reduce, mbind, CatM_bind, mret, CatM_ret.
  rewrite H1, H2, H3, H0 by (apply Hcols; set_solver).
  simpl. eexists. split; [reflexivity|]. split.
  - rewrite !length_zip_with, !length_map, !length_zip_with, !length_map. lia.
  - intros i r Hr.
    rewrite !lookup_zip_with, !list_lookup_fmap, !lookup_zip_with,
      !list_lookup_fmap, Hr.
    simpl. eexists. split; [reflexivity|].
    destruct (nonzero (r !! "flags.pixel.edge")) eqn:E1,
             (nonzero (r !! "flags.pixel.bad")) eqn:E2,
             (nonzero (r !! "flags.pixel.saturated.center")) eqn:E3,
             (eq_zero (r !! "deblend.nchild")) eqn:E0; simpl;
      split; try done; try (intros _; right; reflexivity);
      try (intros _; left; eexists; split; [|eassumption]; set_solver).
    intros [(name & Hn & Hz)|?]; [|done].
    repeat (apply elem_of_cons in Hn as [->|Hn]; [congruence|]).
    by apply elem_of_nil in Hn.
Qed.

(** ** The reduction to one match per record of the second catalog *)

Section MatcherProperties.

Context {Angle : Type}.
Variable angle_lt : Angle → Angle → bool.
Variable matchRaDec : Catalog → Catalog → Angle → bool → list (Match Angle).

Implicit Types (matched : list (Match Angle))
  (bestMatches : gmap Z (Record * Record * Angle))
  (noMatch : list Record).

Lemma reduceMatches_snoc matched (m : Match Angle) :
  reduceMatches angle_lt (matched ++ [m])
  = reduceStep angle_lt (reduceMatches angle_lt matched) m.
Proof. unfold reduceMatches. by rewrite fold_left_app. Qed.

(** Every entry of the dictionary sits under the identifier of its
    second-catalog record. *)
Lemma reduceMatches_key matched (id : Z) (best : Record * Record * Angle) :
  (reduceMatches angle_lt matched).1 !! id = Some best →
  getId best.1.2 = id.
Proof.
  revert id best. induction matched as [|m matched IH] using rev_ind;
    intros id best.
  - unfold reduceMatches. simpl. by rewrite lookup_empty.
  - rewrite reduceMatches_snoc.
    destruct (reduceMatches angle_lt matched) as [bm nm].
    destruct m as [[m1 [m2|]] d]; simpl in *; [|by apply IH].
    destruct (bm !! getId m2) as [old|] eqn:E.
    + destruct (angle_lt d old.2); simpl; [|by apply IH].
      destruct (decide (getId m2 = id)) as [<-|Hne].
      * rewrite lookup_insert_eq. by intros [= <-].
      * rewrite lookup_insert_ne by done. by apply IH.
    + simpl. destruct (decide (getId m2 = id)) as [<-|Hne].
      * rewrite lookup_insert_eq. by intros [= <-].
      * rewrite lookup_insert_ne by done. by apply IH.
Qed.

Lemma kept_ids bestMatches :
  (∀ id best, bestMatches !! id = Some best → getId best.1.2 = id) →
  map (fun best : Record * Record * Angle => getId best.1.2) (kept bestMatches)
  = (map_to_list bestMatches).*1.
Proof.
  intros H. unfold kept. rewrite <- list_fmap_compose.
  apply list_fmap_ext. intros i [id best] Hl. simpl.
  apply H. apply elem_of_map_to_list. by eapply list_elem_of_lookup_2.
Qed.

Lemma kept_NoDup matched :
  NoDup (map (fun best : Record * Record * Angle => getId best.1.2)
             (kept (reduceMatches angle_lt matched).1)).
Proof.
  rewrite kept_ids by apply reduceMatches_key.
  apply NoDup_fst_map_to_list.
Qed.

Lemma length_kept bestMatches : length (kept bestMatches) = size bestMatches.
Proof. unfold kept. by rewrite length_fmap, length_map_to_list. Qed.

(** The list [noMatch] holds the first-catalog records of the candidates
    without a partner, in order. *)
Lemma reduceMatches_noMatch matched :
  (reduceMatches angle_lt matched).2
  = map (fun m : Match Angle => m.1.1) (unmatched matched).
Proof.
  induction matched as [|m matched IH] using rev_ind; [done|].
  rewrite reduceMatches_snoc. unfold unmatched in *.
  rewrite filter_app, map_app, <- IH.
  destruct (reduceMatches angle_lt matched) as [bm nm].
  destruct m as [[m1 [m2|]] d].
  - rewrite filter_cons_False by (simpl; congruence).
    rewrite filter_nil, app_nil_r. simpl.
    destruct (bm !! getId m2) as [old|]; [|done].
    by destruct (angle_lt d old.2).
  - by rewrite filter_cons_True.
Qed.

(** What [strictMatch] hands back is a bare catalog. *)
Lemma strictMatch_returns_catalog cat1 cat2 radius includeMismatches :
  match (strictMatch angle_lt matchRaDec cat1 cat2 radius includeMismatches).2
  with
  | Ok (RetCatalogAndNoMatch _ _) => False
  | _ => True
  end.
Proof.
  unfold strictMatch.
  destruct (reduceMatches _ _) as [bm nm]. simpl.
  destruct (createSchemaMapper _ _ _ _ _ _ _) as [scm|]; simpl; [|done].
  destruct (resolveKeys _ _ _) as [[k2 k]|]; simpl; done.
Qed.

Lemma strictMatch_Ok cat1 cat2 radius includeMismatches (v : retval) :
  (strictMatch angle_lt matchRaDec cat1 cat2 radius includeMismatches).2
  = Ok v →
  ∃ scm cat2Keys catKeys,
    createSchemaMapper cat1 (Some cat2) None false false false false = Ok scm ∧
    resolveKeys (getSchema cat2) (getOutputSchema scm) (cat2Fields cat2)
    = Ok (cat2Keys, catKeys) ∧
    v = RetCatalog
          (mkCatalog (getOutputSchema scm)
             (map (mergedRecord scm cat2Keys catKeys)
                  (kept (reduceMatches angle_lt
                           (matchRaDec cat1 cat2 radius includeMismatches)).1))).
Proof.
  unfold strictMatch.
  destruct (reduceMatches _ _) as [bm nm]. simpl.
  destruct (createSchemaMapper _ _ _ _ _ _ _) as [scm|]; simpl; [|done].
  destruct (resolveKeys _ _ _) as [[k2 k]|] eqn:Ek; simpl; [|done].
  intros [= <-]. by exists scm, k2, k.
Qed.

Lemma strictMatch_Ok_intro cat1 cat2 radius includeMismatches
    (scm : SchemaMapper) (cat2Keys catKeys : list Key) :
  createSchemaMapper cat1 (Some cat2) None false false false false = Ok scm →
  resolveKeys (getSchema cat2) (getOutputSchema scm) (cat2Fields cat2)
  = Ok (cat2Keys, catKeys) →
  (strictMatch angle_lt matchRaDec cat1 cat2 radius includeMismatches).2
  = Ok (RetCatalog
          (mkCatalog (getOutputSchema scm)
             (map (mergedRecord scm cat2Keys catKeys)
                  (kept (reduceMatches angle_lt
                           (matchRaDec cat1 cat2 radius
                              includeMismatches)).1)))).
Proof.
  intros Hscm Hk. unfold strictMatch.
  destruct (reduceMatches _ _) as [bm nm]. simpl.
  rewrite Hscm. simpl. by rewrite Hk.
Qed.

(** C1: the kept matches have pairwise different second-catalog
    identifiers, and the records of the merged catalog are built from the
    kept matches one for one; so no two output records come from the same
    record of the second catalog. *)
Theorem strictMatch_one_to_one cat1 cat2 radius includeMismatches :
  let bestMatches :=
    (reduceMatches angle_lt
       (matchRaDec cat1 cat2 radius includeMismatches)).1 in
  NoDup (map (fun best : Record * Record * Angle => getId best.1.2)
             (kept bestMatches)) ∧
  ∀ out : Catalog,
    (strictMatch angle_lt matchRaDec cat1 cat2 radius includeMismatches).2
    = Ok (RetCatalog out) →
    ∃ scm cat2Keys catKeys,
      records out = map (mergedRecord scm cat2Keys catKeys) (kept bestMatches).
Proof.
  split; [apply kept_NoDup|].
  intros out (scm & k2 & k & _ & _ & [= ->])%strictMatch_Ok.
  by exists scm, k2, k.
Qed.

(** C5, as amended: with [includeMismatches] the call prints two counts,
    whether or not it goes on to raise: the number of candidates without a
    partner, and the number of candidates minus those minus the number of
    kept matches; the records without a partner are collected, but what is
    returned is the merged catalog alone. *)
Theorem strictMatch_report cat1 cat2 radius :
  let matched := matchRaDec cat1 cat2 radius true in
  let st := reduceMatches angle_lt matched in
  (strictMatch angle_lt matchRaDec cat1 cat2 radius true).1
  = [Print "{0} objects from {1} in the first catalog had no match in the second catalog."
       [len (unmatched matched); len (records cat1)];
     Print "{0} objects from the first catalog with a match in the second catalog were not the closest match."
       [len matched - len (unmatched matched) - len (kept st.1)]] ∧
  st.2 = map (fun m : Match Angle => m.1.1) (unmatched matched) ∧
  match (strictMatch angle_lt matchRaDec cat1 cat2 radius true).2 with
  | Ok (RetCatalogAndNoMatch _ _) => False
  | _ => True
  end.
Proof.
  intros matched st.
  split; [|split; [apply reduceMatches_noMatch|apply strictMatch_returns_catalog]].
  pose proof (reduceMatches_noMatch matched) as Hnm.
  unfold strictMatch. fold matched. subst st.
  destruct (reduceMatches angle_lt matched) as [bm nm]. simpl in *.
  unfold report, len. by rewrite Hnm, length_map, length_kept.
Qed.

(** *** The closest candidate wins, the first one on ties *)

Hypothesis angle_lt_asym :
  ∀ a b, angle_lt a b = true → angle_lt b a = false.
Hypothesis angle_lt_cotrans :
  ∀ a b c, angle_lt a b = true → angle_lt a c = true ∨ angle_lt c b = true.

Lemma angle_lt_irrefl a : angle_lt a a = false.
Proof.
  destruct (angle_lt a a) eqn:E; [|done].
  by rewrite (angle_lt_asym _ _ E) in E.
Qed.

Lemma reduceMatches_complete matched (j : nat) m1 m2 d :
  matched !! j = Some (m1, Some m2, d) →
  is_Some ((reduceMatches angle_lt matched).1 !! getId m2).
Proof.
  revert j. induction matched as [|m matched IH] using rev_ind; intros j.
  - by rewrite lookup_nil.
  - rewrite reduceMatches_snoc. intros Hj.
    assert (Hstep : ∀ id, is_Some ((reduceMatches angle_lt matched).1 !! id) →
              is_Some ((reduceStep angle_lt
                          (reduceMatches angle_lt matched) m).1 !! id)).
    { intros id. destruct (reduceMatches angle_lt matched) as [bm nm].
      destruct m as [[a [b|]] e]; simpl; [|done].
      destruct (bm !! getId b) as [old|] eqn:E.
      - destruct (angle_lt e old.2); simpl; [|done].
        rewrite lookup_insert_is_Some'. auto.
      - simpl. rewrite lookup_insert_is_Some'. auto. }
    apply lookup_snoc_Some in Hj as [[_ Hj]|[_ ->]]; [by eapply Hstep, IH|].
    destruct (reduceMatches angle_lt matched) as [bm nm]. simpl.
    destruct (bm !! getId m2) as [old|] eqn:E.
    + destruct (angle_lt d old.2); simpl; [|by rewrite E].
      by rewrite lookup_insert_eq.
    + simpl. by rewrite lookup_insert_eq.
Qed.

Lemma first_closest_snoc_other matched (m : Match Angle) (id : Z) best :
  (∀ m2, m.1.2 = Some m2 → getId m2 ≠ id) →
  first_closest angle_lt matched id best →
  first_closest angle_lt (matched ++ [m]) id best.
Proof.
  intros Hm (k & Hk & Hid & Hall). exists k.
  split; [by apply lookup_app_l_Some|]. split; [done|].
  intros j m1 m2 d Hj Hj2.
  apply lookup_snoc_Some in Hj as [[_ Hj]|[_ ->]]; [by eapply Hall|].
  exfalso. by eapply Hm.
Qed.

Lemma reduceMatches_first_closest matched (id : Z) best :
  (reduceMatches angle_lt matched).1 !! id = Some best →
  first_closest angle_lt matched id best.
Proof.
  revert id best. induction matched as [|m matched IH] using rev_ind;
    intros id best.
  - unfold reduceMatches. simpl. by rewrite lookup_empty.
  - rewrite reduceMatches_snoc.
    pose proof (reduceMatches_complete matched) as Hcomplete.
    destruct (reduceMatches angle_lt matched) as [bm nm] eqn:Est.
    destruct m as [[m1 [m2|]] d]; simpl in *.
    2:{ intros H. apply first_closest_snoc_other; [by intros ? [=]|by apply IH]. }
    assert (Hnew : ∀ old,
              (∀ o, bm !! getId m2 = Some o → o = old ∧ angle_lt d old.2 = true) →
              first_closest angle_lt (matched ++ [(m1, Some m2, d)])
                            (getId m2) (m1, m2, d)).
    { intros old Hold. exists (length matched). simpl.
      split; [by apply list_lookup_middle|].
      split; [done|].
      intros j a b e Hj Hb.
      apply lookup_snoc_Some in Hj as [[_ Hj]|[-> Hj]].
      - destruct (Hcomplete _ _ _ _ Hj) as [o Ho]. rewrite Hb in Ho.
        destruct (Hold o Ho) as [-> Hlt].
        destruct (IH _ _ Ho) as (k & _ & _ & Hall).
        destruct (Hall _ _ _ _ Hj Hb) as [Hmin _].
        destruct (angle_lt_cotrans _ _ e Hlt) as [H|H]; [|congruence].
        split; [by apply angle_lt_asym|done].
      - injection Hj as <- <- <-.
        split; [apply angle_lt_irrefl|]. unfold Match in *. intros; lia. }
    assert (Hkeep : ∀ old, bm !! id = Some old →
              (getId m2 = id → angle_lt d old.2 = false) →
              first_closest angle_lt (matched ++ [(m1, Some m2, d)]) id old).
    { intros old Ho Hd.
      destruct (IH _ _ Ho) as (k & Hk & Hid & Hall). exists k.
      split; [by apply lookup_app_l_Some|]. split; [done|].
      intros j a b e Hj Hb.
      apply lookup_snoc_Some in Hj as [[_ Hj]|[-> Hj]]; [by eapply Hall|].
      injection Hj as <- <- <-.
      split; [by apply Hd|].
      apply lookup_lt_Some in Hk. unfold Match in *. intros; lia. }
    destruct (bm !! getId m2) as [old|] eqn:E.
    + destruct (angle_lt d old.2) eqn:Hlt; simpl.
      * destruct (decide (getId m2 = id)) as [<-|Hne].
        -- rewrite lookup_insert_eq. intros [= <-].
           apply (Hnew old). by intros o [= <-].
        -- rewrite lookup_insert_ne by done. intros Ho.
           apply Hkeep; [done|]. by intros.
      * intros Ho. apply Hkeep; [done|].
        intros <-. rewrite E in Ho. by injection Ho as <-.
    + simpl. destruct (decide (getId m2 = id)) as [<-|Hne].
      * rewrite lookup_insert_eq. intros [= <-].
        apply (Hnew (m1, m2, d)). by intros o [=].
      * rewrite lookup_insert_ne by done. intros Ho.
        apply Hkeep; [done|]. by intros.
Qed.

(** C2: for every candidate list and every second-catalog identifier that
    has a candidate, the reduction keeps a candidate for it, and the kept
    one is the earliest candidate of smallest separation: no candidate for
    that identifier is strictly closer, and every candidate processed
    before it is strictly farther, so that on equal separations the first
    one seen stays. *)
Theorem reduceMatches_closest matched (id : Z) :
  ((∃ (j : nat) m1 m2 d,
       matched !! j = Some (m1, Some m2, d) ∧ getId m2 = id) →
   is_Some ((reduceMatches angle_lt matched).1 !! id)) ∧
  ∀ best, (reduceMatches angle_lt matched).1 !! id = Some best →
          first_closest angle_lt matched id best.
Proof.
  split.
  - intros (j & m1 & m2 & d & Hj & <-). by eapply reduceMatches_complete.
  - apply reduceMatches_first_closest.
Qed.

End MatcherProperties.

(** ** The error monad and its loops *)

Lemma bind_Ok {A B : Type} (m : result A) (f : A → result B) (b : B) :
  (m ≫= f) = Ok b → ∃ a, m = Ok a ∧ f a = Ok b.
Proof. destruct m as [a|e]; simpl; [eauto|discriminate]. Qed.

Lemma bind_congr {A B : Type} (m m' : result A) (f f' : A → result B) :
  m = m' → (∀ a, f a = f' a) → (m ≫= f) = (m' ≫= f').
Proof. intros <- H. destruct m; simpl; [apply H|done]. Qed.

Lemma bind_assoc {A B C : Type} (m : result A) (f : A → result B)
    (g : B → result C) :
  ((m ≫= f) ≫= g) = (m ≫= fun a => f a ≫= g).
Proof. by destruct m. Qed.

Lemma bind_Ok_l {A B : Type} (a : A) (f : A → result B) : (Ok a ≫= f) = f a.
Proof. reflexivity. Qed.

Lemma bind_Ok_r {A : Type} (m : result A) (f : A → result A) :
  (∀ a, f a = Ok a) → (m ≫= f) = m.
Proof. intros H. destruct m; simpl; [apply H|done]. Qed.

Lemma foldM_app {A S : Type} (body : S → A → result S) (s : S)
    (l1 l2 : list A) :
  foldM body s (l1 ++ l2) = (foldM body s l1 ≫= fun s' => foldM body s' l2).
Proof.
  revert s. induction l1 as [|x l1 IH]; intros s; simpl; [done|].
  destruct (body s x) as [s'|e]; simpl; [apply IH|done].
Qed.

Lemma foldM_ext {A S : Type} (body body' : S → A → result S) (s : S)
    (l : list A) :
  (∀ s x, body s x = body' s x) → foldM body s l = foldM body' s l.
Proof.
  intros H. revert s. induction l as [|x l IH]; intros s; simpl; [done|].
  rewrite H. destruct (body' s x); simpl; [apply IH|done].
Qed.

Lemma foldM_map {A B S : Type} (body : S → B → result S) (g : A → B) (s : S)
    (l : list A) :
  foldM (fun s x => body s (g x)) s l = foldM body s (map g l).
Proof.
  revert s. induction l as [|x l IH]; intros s; simpl; [done|].
  destruct (body s (g x)); simpl; [apply IH|done].
Qed.

(** A loop nested in a loop runs the inner body over the concatenation. *)
Lemma foldM_flat_map {A B S : Type} (body : S → B → result S)
    (g : A → list B) (s : S) (l : list A) :
  foldM (fun s x => foldM body s (g x)) s l = foldM body s (flat_map g l).
Proof.
  revert s. induction l as [|x l IH]; intros s; simpl; [done|].
  rewrite foldM_app. destruct (foldM body s (g x)); simpl; [apply IH|done].
Qed.

Lemma foldM_inv {A S : Type} (P : S → Prop) (body : S → A → result S)
    (l : list A) (s s' : S) :
  (∀ s x s', P s → x ∈ l → body s x = Ok s' → P s') →
  P s → foldM body s l = Ok s' → P s'.
Proof.
  revert s. induction l as [|x l IH]; intros s Hbody Hs; simpl.
  - by intros [= <-].
  - intros (s1 & H1 & H2)%bind_Ok.
    apply (IH s1); [|by eapply Hbody; [| left |]|done].
    intros s0 y s0' ? ? ?. eapply Hbody; [done|by right|done].
Qed.

(** ** The primitives of the schema mapper *)

Lemma addField_Ok (schema out : Schema) (field : Field) :
  addField schema field = Ok out →
  out = (schema ++ [field])%list ∧ getName field ∉ fieldNames schema.
Proof.
  unfold addField. case_bool_decide; [discriminate|]. by intros [= <-].
Qed.

Lemma addOutputField_Ok (scm scm' : SchemaMapper) (field : Field) :
  addOutputField scm field = Ok scm' →
  scm' = mkSchemaMapper (getInputSchema scm)
           (getOutputSchema scm ++ [field])%list (getMappings scm) ∧
  getName field ∉ outputNames scm.
Proof.
  unfold addOutputField.
  intros (out & [-> ?]%addField_Ok & [= <-])%bind_Ok. done.
Qed.

Lemma addMapping_Ok (scm scm' : SchemaMapper) (key : Key)
    (newField : option Field) :
  addMapping scm key newField = Ok scm' →
  scm' = mkSchemaMapper (getInputSchema scm)
           (getOutputSchema scm ++ [default key newField])%list
           (getMappings scm ++ [(key, default key newField)])%list ∧
  getName (default key newField) ∉ outputNames scm.
Proof.
  unfold addMapping.
  intros (out & [-> ?]%addField_Ok & [= <-])%bind_Ok. done.
Qed.

Lemma mapStraight_Ok (schema : Schema) (scm scm' : SchemaMapper) (f : string) :
  mapStraight schema scm f = Ok scm' →
  ∃ item, find schema f = Ok item ∧ getName item = f ∧
    scm' = mkSchemaMapper (getInputSchema scm)
             (getOutputSchema scm ++ [item])%list
             (getMappings scm ++ [(item, item)])%list ∧
    f ∉ outputNames scm.
Proof.
  unfold mapStraight.
  intros (item & Hf & [-> Hn]%addMapping_Ok)%bind_Ok.
  pose proof (find_Ok _ _ _ Hf) as [_ Hname]. simpl in Hn.
  unfold getKey in *. rewrite Hname in Hn. by exists item.
Qed.

Lemma mapRenamed_Ok (schema : Schema) (suffix : string)
    (scm scm' : SchemaMapper) (f : string) :
  mapRenamed schema suffix scm f = Ok scm' →
  ∃ item, find schema f = Ok item ∧ getName item = f ∧
    scm' = mkSchemaMapper (getInputSchema scm)
             (getOutputSchema scm ++ [copyRenamed item (f +:+ suffix)])%list
             (getMappings scm ++ [(item, copyRenamed item (f +:+ suffix))])%list ∧
    f +:+ suffix ∉ outputNames scm.
Proof.
  unfold mapRenamed.
  intros (item & Hf & [-> Hn]%addMapping_Ok)%bind_Ok.
  pose proof (find_Ok _ _ _ Hf) as [_ Hname]. by exists item.
Qed.

Lemma reserveOne_Ok (schema2 : Schema) (scm scm' : SchemaMapper) (f : string) :
  reserveOne schema2 scm f = Ok scm' →
  ∃ item, find schema2 f = Ok item ∧ getName item = f ∧
    scm' = mkSchemaMapper (getInputSchema scm)
             (getOutputSchema scm ++ [item])%list (getMappings scm) ∧
    f ∉ outputNames scm.
Proof.
  unfold reserveOne.
  intros (item & Hf & [-> Hn]%addOutputField_Ok)%bind_Ok.
  pose proof (find_Ok _ _ _ Hf) as [_ Hname].
  unfold getField in *. rewrite Hname in Hn. by exists item.
Qed.

(** The columns that a list of names denotes in a schema. *)
Lemma found_names (schema : Schema) (l : list string) (items : list Field) :
  Forall2 (fun f item => find schema f = Ok item) l items →
  fieldNames items = l.
Proof.
  unfold fieldNames. induction 1 as [|f item l items Hf _ IH]; simpl; [done|].
  apply find_Ok in Hf as [_ ->]. by rewrite IH.
Qed.

(** A run of straight mappings appends the columns it finds, in order, to
    the output schema, and maps each to itself. *)
Lemma mapStraight_loop (schema : Schema) (l : list string)
    (scm scm' : SchemaMapper) :
  foldM (mapStraight schema) scm l = Ok scm' →
  ∃ items : list Field,
    Forall2 (fun f item => find schema f = Ok item) l items ∧
    getMappings scm'
    = (getMappings scm ++ map (fun item => (item, item)) items)%list ∧
    getOutputSchema scm' = (getOutputSchema scm ++ items)%list ∧
    (NoDup (outputNames scm) → NoDup (outputNames scm')).
Proof.
  revert scm. induction l as [|f l IH]; intros scm; simpl.
  - intros [= <-]. exists []. rewrite !app_nil_r. by repeat split.
  - intros (scm1 & (item & Hf & Hname & -> & Hn)%mapStraight_Ok & H)%bind_Ok.
    apply IH in H as (items & Hitems & Hm & Ho & Hnd). simpl in *.
    exists (item :: items). rewrite <- !app_assoc in *. simpl in *.
    split; [by constructor|]. split; [done|]. split; [done|].
    intros Hnd0. apply Hnd. unfold outputNames, fieldNames in *. simpl.
    rewrite map_app. simpl. rewrite Hname.
    apply NoDup_app. split; [done|]. split; [|apply NoDup_singleton].
    by intros x Hx ->%list_elem_of_singleton.
Qed.

(** A run of reservations appends the columns it finds in the second
    schema to the output schema, and adds no copy directive. *)
Lemma reserveOne_loop (schema2 : Schema) (l : list string)
    (scm scm' : SchemaMapper) :
  foldM (reserveOne schema2) scm l = Ok scm' →
  ∃ items : list Field,
    Forall2 (fun f item => find schema2 f = Ok item) l items ∧
    getMappings scm' = getMappings scm ∧
    getOutputSchema scm' = (getOutputSchema scm ++ items)%list ∧
    (NoDup (outputNames scm) → NoDup (outputNames scm')).
Proof.
  revert scm. induction l as [|f l IH]; intros scm; simpl.
  - intros [= <-]. exists []. rewrite !app_nil_r. by repeat split.
  - intros (scm1 & (item & Hf & Hname & -> & Hn)%reserveOne_Ok & H)%bind_Ok.
    apply IH in H as (items & Hitems & Hm & Ho & Hnd). simpl in *.
    exists (item :: items). rewrite <- !app_assoc in *. simpl in *.
    split; [by constructor|]. split; [done|]. split; [done|].
    intros Hnd0. apply Hnd. unfold outputNames, fieldNames in *. simpl.
    rewrite map_app. simpl. rewrite Hname.
    apply NoDup_app. split; [done|]. split; [|apply NoDup_singleton].
    by intros x Hx ->%list_elem_of_singleton.
Qed.

(** ** createSchemaMapper for two catalogs *)

Lemma suffixable_loop_straight (schema : Schema) (suffixes : list string)
    (scm : SchemaMapper) (fields : list string) :
  foldM (fun scm f =>
           if Nat.eqb (length suffixes) 0 then mapStraight schema scm f
           else foldM (fun scm s => mapStraight schema scm (f +:+ s))
                      scm suffixes)
        scm fields
  = foldM (mapStraight schema) scm
      (if Nat.eqb (length suffixes) 0 then fields
       else flat_map (fun f => map (fun s => f +:+ s) suffixes) fields).
Proof.
  destruct (Nat.eqb (length suffixes) 0); [done|].
  rewrite <- foldM_flat_map. apply foldM_ext. intros s f.
  apply (foldM_map (mapStraight schema) (fun s => f +:+ s)).
Qed.

Lemma reserveSecond_loop (cat2 : Catalog) (scm : SchemaMapper) :
  reserveSecond cat2 scm
  = foldM (reserveOne (getSchema cat2)) scm (reservedNames cat2).
Proof.
  unfold reserveSecond, reservedNames. rewrite foldM_app.
  rewrite (foldM_ext _
             (fun scm f =>
                foldM (reserveOne (getSchema cat2)) scm
                      (map (fun s => f +:+ s) (getCatSuffixes cat2))))
    by (intros s f;
        apply (foldM_map (reserveOne (getSchema cat2)) (fun s => f +:+ s))).
  rewrite foldM_flat_map.
  apply bind_congr; [done|]. intros scm1.
  apply (foldM_flat_map (reserveOne (getSchema cat2))).
Qed.

(** With a second catalog and no filter suffix or synthetic column, the
    mapper is built by mapping [mappedNames] straight through and then
    reserving [reservedNames]. *)
Lemma createSchemaMapper_two_catalogs (cat cat2 : Catalog) :
  createSchemaMapper cat (Some cat2) None false false false false
  = (foldM (mapStraight (getSchema cat)) (newSchemaMapper (getSchema cat))
           (mappedNames cat)
     ≫= fun scm => foldM (reserveOne (getSchema cat2)) scm (reservedNames cat2)).
Proof.
  unfold createSchemaMapper, mappedNames. simpl is_not_None. simpl truth.
  rewrite !andb_false_r. cbv iota.
  rewrite foldM_app, bind_assoc.
  apply bind_congr; [done|]. intros scm1.
  rewrite foldM_app, bind_assoc.
  apply bind_congr; [apply foldM_flat_map|]. intros scm2.
  rewrite bind_Ok_l, foldM_app, bind_assoc.
  apply bind_congr; [apply suffixable_loop_straight|]. intros scm3.
  apply bind_congr; [apply foldM_flat_map|]. intros scm4.
  rewrite reserveSecond_loop. by apply bind_Ok_r.
Qed.

(** What a successful call for two catalogs has built. *)
Lemma createSchemaMapper_two_Ok (cat cat2 : Catalog) (scm : SchemaMapper) :
  createSchemaMapper cat (Some cat2) None false false false false = Ok scm →
  ∃ items items2 : list Field,
    Forall2 (fun f item => find (getSchema cat) f = Ok item)
            (mappedNames cat) items ∧
    Forall2 (fun f item => find (getSchema cat2) f = Ok item)
            (reservedNames cat2) items2 ∧
    getMappings scm = map (fun item => (item, item)) items ∧
    getOutputSchema scm = (items ++ items2)%list ∧
    NoDup (mappedNames cat ++ reservedNames cat2).
Proof.
  rewrite createSchemaMapper_two_catalogs.
  intros (scm1 & H1 & H2)%bind_Ok.
  apply mapStraight_loop in H1 as (items & Hitems & Hm1 & Ho1 & Hnd1).
  apply reserveOne_loop in H2 as (items2 & Hitems2 & Hm2 & Ho2 & Hnd2).
  exists items, items2. simpl in Hm1, Ho1.
  split; [done|]. split; [done|]. split; [congruence|].
  split; [congruence|].
  rewrite <- (found_names _ _ _ Hitems), <- (found_names _ _ _ Hitems2).
  unfold fieldNames. rewrite <- map_app, <- Ho1, <- Ho2.
  apply Hnd2, Hnd1. unfold outputNames. simpl. constructor.
Qed.

(** ** Shell patterns *)

Lemma glob_star (pat name : list ascii) :
  glob ("*"%char :: pat) name = true ↔
  ∃ pre suf, name = (pre ++ suf)%list ∧ glob pat suf = true.
Proof.
  induction name as [|c name IH].
  - simpl. rewrite orb_false_r. split.
    + intros H. by exists [], [].
    + intros (pre & suf & E & H). symmetry in E.
      apply app_eq_nil in E as [-> ->]. done.
  - change (glob ("*"%char :: pat) (c :: name))
      with (glob pat (c :: name) || glob ("*"%char :: pat) name).
    rewrite orb_true_iff, IH. split.
    + intros [H|(pre & suf & -> & H)].
      * by exists [], (c :: name).
      * by exists (c :: pre), suf.
    + intros ([|x pre] & suf & E & H); simpl in E.
      * left. by subst suf.
      * right. injection E as -> ->. by exists pre, suf.
Qed.

Lemma glob_plain (pat name : list ascii) :
  Forall plain pat → (glob pat name = true ↔ name = pat).
Proof.
  intros Hpat. revert name.
  induction Hpat as [|p pat [Hp1 Hp2] _ IH]; intros name.
  - destruct name; simpl; split; done.
  - simpl. destruct (Ascii.eqb_spec p "*") as [->|_]; [done|].
    destruct name as [|c name]; [done|].
    destruct (Ascii.eqb_spec p "?") as [->|_]; [done|]. simpl.
    rewrite andb_true_iff, IH, Ascii.eqb_eq. split.
    + by intros [-> ->].
    + by intros [= -> ->].
Qed.

Lemma fnmatchcase_star_suffix (name suffix : string) :
  Forall plain (list_ascii_of_string suffix) →
  fnmatchcase name ("*" +:+ suffix) = true ↔ ends_with name suffix.
Proof.
  intros Hs. unfold fnmatchcase, ends_with.
  change (list_ascii_of_string ("*" +:+ suffix))
    with ("*"%char :: list_ascii_of_string suffix).
  rewrite glob_star. split.
  - intros (pre & suf & E & H). apply glob_plain in H; [|done]. subst suf.
    exists (string_of_list_ascii pre).
    rewrite <- (string_of_list_ascii_of_string name), E.
    by rewrite string_of_list_ascii_app, string_of_list_ascii_of_string.
  - intros [pre ->]. exists (list_ascii_of_string pre), (list_ascii_of_string suffix).
    split; [apply list_ascii_of_string_app|]. by apply glob_plain.
Qed.

Lemma bandSuffixes_plain (s : string) :
  s ∈ bandSuffixes → Forall plain (list_ascii_of_string s).
Proof.
  unfold bandSuffixes. intros H.
  repeat (apply elem_of_cons in H as [->|H];
          [repeat constructor; discriminate|]).
  by apply elem_of_nil in H.
Qed.

Lemma elem_of_extract (schema : Schema) (pattern f : string) :
  f ∈ extract schema pattern ↔
  f ∈ fieldNames schema ∧ fnmatchcase f pattern = true.
Proof.
  unfold extract. rewrite elem_of_remove_dups, list_elem_of_filter. tauto.
Qed.

Lemma elem_of_flat_map {A B : Type} (g : A → list B) (l : list A) (y : B) :
  y ∈ flat_map g l ↔ ∃ x, x ∈ l ∧ y ∈ g x.
Proof.
  rewrite list_elem_of_In, in_flat_map. split.
  - intros (x & ? & ?). exists x. by rewrite !list_elem_of_In.
  - intros (x & ? & ?). exists x. by rewrite <- !list_elem_of_In.
Qed.

(** [cat2Fields] holds the column names of the second catalog that end in
    one of its discovered suffixes. *)
Lemma elem_of_cat2Fields (cat2 : Catalog) (f : string) :
  f ∈ cat2Fields cat2 ↔
  f ∈ fieldNames (getSchema cat2) ∧
  ∃ s, s ∈ getCatSuffixes cat2 ∧ ends_with f s.
Proof.
  unfold cat2Fields. rewrite elem_of_flat_map. split.
  - intros (s & Hs & [Hf Hm]%elem_of_extract). split; [done|]. exists s.
    split; [done|].
    apply fnmatchcase_star_suffix in Hm; [done|].
    by eapply bandSuffixes_plain, getCatSuffixes_band.
  - intros (Hf & s & Hs & He). exists s. split; [done|].
    apply elem_of_extract. split; [done|].
    apply fnmatchcase_star_suffix; [|done].
    by eapply bandSuffixes_plain, getCatSuffixes_band.
Qed.

Lemma ends_with_band_inj (g s s' : string) :
  s ∈ bandSuffixes → s' ∈ bandSuffixes → ends_with (g +:+ s') s → s = s'.
Proof.
  intros (c & -> & _)%bandSuffixes_inv (c' & -> & _)%bandSuffixes_inv He.
  apply (ends_with_last _ _ c) in He; [|done].
  assert (ends_with (g +:+ String "_" (String c' "")) (String "_" (String c' "")))
    as He' by by exists g.
  apply (ends_with_last _ _ c') in He'; [|done]. congruence.
Qed.

(** None of the configured bare names ends in a band suffix. *)
Lemma bare_names_unsuffixed (f : string) :
  f ∈ (_fixedFields ++ _suffixableFields)%list → _suffixRegex_search f = None.
Proof.
  unfold _fixedFields, _suffixableFields. simpl. intros H.
  repeat (apply elem_of_cons in H as [->|H]; [reflexivity|]).
  by apply elem_of_nil in H.
Qed.

Lemma elem_of_mappedNames (cat : Catalog) (f : string) :
  f ∈ mappedNames cat →
  f ∈ (_fixedFields ++ _suffixableFields)%list ∨
  (∃ g s, g ∈ _suffixableFields ∧ s ∈ getCatSuffixes cat ∧ f = g +:+ s) ∨
  (∃ p, p ∈ _suffixablePatterns ∧ f ∈ extract (getSchema cat) p).
Proof.
  unfold mappedNames.
  rewrite !elem_of_app. intros [H|[H|[H|H]]].
  - left. by left.
  - by apply elem_of_nil in H.
  - destruct (Nat.eqb (length (getCatSuffixes cat)) 0).
    + left. by right.
    + right. left. apply elem_of_flat_map in H as (g & Hg & H).
      apply list_elem_of_fmap in H as (s & -> & Hs). by exists g, s.
  - right. right. by apply elem_of_flat_map in H.
Qed.

Lemma elem_of_reservedNames (cat2 : Catalog) (f : string) :
  f ∈ reservedNames cat2 ↔
  (∃ g s, g ∈ _suffixableFields ∧ s ∈ getCatSuffixes cat2 ∧ f = g +:+ s) ∨
  (∃ p, p ∈ _suffixablePatterns ∧ f ∈ extract (getSchema cat2) p).
Proof.
  unfold reservedNames. rewrite elem_of_app, !elem_of_flat_map.
  split; (intros [H|H]; [left|by right]).
  - destruct H as (g & Hg & H).
    apply list_elem_of_fmap in H as (s & -> & Hs). by exists g, s.
  - destruct H as (g & s & Hg & Hs & ->). exists g. split; [done|].
    apply list_elem_of_fmap. by exists s.
Qed.

(** A column picked for copying is never a mapped column of the first
    catalog: were it one, step 3 would reserve a column of its name
    again. *)
Lemma cat2Fields_not_mapped (cat cat2 : Catalog) (f : string) :
  NoDup (mappedNames cat ++ reservedNames cat2) →
  f ∈ cat2Fields cat2 → f ∉ mappedNames cat.
Proof.
  intros [_ [Hdisj _]]%NoDup_app [Hf2 (s & Hs & He)]%elem_of_cat2Fields Hm.
  apply (Hdisj f Hm).
  apply elem_of_mappedNames in Hm as [Hm|[(g & s' & Hg & Hs' & ->)|(p & Hp & Hm)]].
  - exfalso. apply bare_names_unsuffixed in Hm.
    eapply not_ends_with_band; [|done..]. by eapply getCatSuffixes_band.
  - apply elem_of_reservedNames. left. exists g, s. split; [done|].
    split; [done|]. f_equal. symmetry.
    eapply ends_with_band_inj; [| |done]; by eapply getCatSuffixes_band.
  - apply elem_of_reservedNames. right. exists p. split; [done|].
    apply elem_of_extract. by apply elem_of_extract in Hm as [_ ?].
Qed.

(** ** Records *)

Lemma lookup_set_eq (record : Record) (key : Key) (v : option value) :
  set record key v !! getName key = v.
Proof. unfold set, Record. apply lookup_partial_alter_eq. Qed.

Lemma lookup_set_ne (record : Record) (key : Key) (v : option value)
    (name : string) :
  name ≠ getName key → set record key v !! name = record !! name.
Proof. unfold set, Record. intros H. by apply lookup_partial_alter_ne. Qed.

Lemma assign_lookup_other (record m1 : Record) (scm : SchemaMapper)
    (name : string) :
  name ∉ targetNames scm → assign record m1 scm !! name = record !! name.
Proof.
  unfold assign, targetNames. generalize (getMappings scm) as l.
  intros l. revert record. induction l as [|m l IH]; intros record; simpl.
  - done.
  - intros Hn. apply not_elem_of_cons in Hn as [Hne Hn].
    rewrite IH by done. by apply lookup_set_ne.
Qed.

Lemma assign_lookup_target (record m1 : Record) (scm : SchemaMapper)
    (m : Key * Key) :
  NoDup (targetNames scm) → m ∈ getMappings scm →
  assign record m1 scm !! getName m.2 = m1 !! getName m.1.
Proof.
  unfold assign, targetNames. generalize (getMappings scm) as l.
  intros l. revert record. induction l as [|m0 l IH]; intros record; simpl.
  - by intros _ ?%elem_of_nil.
  - intros [Hn Hnd]%NoDup_cons [<-|Hm]%elem_of_cons; [|by apply IH].
    pose proof (assign_lookup_other (set record m.2 (get m1 m.1)) m1
                  (mkSchemaMapper [] [] l) (getName m.2)) as H.
    unfold assign, targetNames in H. simpl in H. rewrite H by done.
    apply lookup_set_eq.
Qed.

Lemma copyFields_lookup_other (m2 record : Record) (fields : list string)
    (name : string) :
  name ∉ fields → copyFields m2 fields record !! name = record !! name.
Proof.
  unfold copyFields, Record in *. revert record.
  induction fields as [|f fields IH]; intros record; simpl; [done|].
  intros [Hne Hn]%not_elem_of_cons.
  rewrite IH by done. by rewrite lookup_partial_alter_ne.
Qed.

Lemma copyFields_lookup (m2 record : Record) (fields : list string)
    (f : string) :
  f ∈ fields → copyFields m2 fields record !! f = m2 !! f.
Proof.
  unfold copyFields, Record in *. revert record.
  induction fields as [|g fields IH]; intros record; simpl.
  - by intros ?%elem_of_nil.
  - intros Hf. destruct (decide (f ∈ fields)) as [Hin|Hnin]; [by apply IH|].
    apply elem_of_cons in Hf as [->|?]; [|done].
    pose proof (copyFields_lookup_other m2
                  (partial_alter (fun _ => m2 !! g) g record) fields g Hnin)
      as H.
    unfold copyFields, Record in H. rewrite H.
    by rewrite lookup_partial_alter_eq.
Qed.

Lemma fold_left_ext_in {A B : Type} (F G : B → A → B) (l : list A) (b : B) :
  (∀ b x, x ∈ l → F b x = G b x) → fold_left F l b = fold_left G l b.
Proof.
  revert b. induction l as [|x l IH]; intros b H; simpl; [done|].
  rewrite H by left. apply IH. intros b' y Hy. apply H. by right.
Qed.

(** The loop over [range(len(cat2Keys))] writes, for each picked column,
    the value the second record has there. *)
Lemma copy_loop (m2 record : Record) (fields : list string)
    (cat2Keys catKeys : list Key) :
  fieldNames cat2Keys = fields → fieldNames catKeys = fields →
  fold_left
    (fun record (i : nat) =>
       match catKeys !! i, cat2Keys !! i with
       | Some k, Some k2 => set record k (get m2 k2)
       | _, _ => record
       end)
    (seq 0 (length cat2Keys)) record
  = copyFields m2 fields record.
Proof.
  unfold fieldNames, copyFields, Key. revert cat2Keys catKeys.
  induction fields as [|f fields IH] using rev_ind; intros k2 k H2 H.
  - apply map_eq_nil in H2 as ->. done.
  - apply map_eq_app in H2 as (k2' & l2 & -> & H2 & Hl2).
    apply map_eq_app in H as (k' & l & -> & H & Hl).
    destruct l2 as [|b [|? ?]]; try discriminate. injection Hl2 as Hb.
    destruct l as [|a [|? ?]]; try discriminate. injection Hl as Ha.
    assert (length k' = length k2') as Hlen.
    { pose proof (f_equal length H) as E. pose proof (f_equal length H2) as E2.
      rewrite length_map in E, E2. congruence. }
    rewrite length_app. simpl. rewrite Nat.add_1_r, seq_S, !fold_left_app.
    simpl.
    assert ((k' ++ [a])%list !! length k2' = Some a) as ->
      by (rewrite <- Hlen; by apply list_lookup_middle).
    assert ((k2' ++ [b])%list !! length k2' = Some b) as ->
      by by apply list_lookup_middle.
    unfold set, get. rewrite Ha, Hb. f_equal.
    rewrite <- (IH k2' k') by done.
    apply fold_left_ext_in. intros r i Hi.
    apply list_elem_of_In, in_seq in Hi.
    rewrite !lookup_app_l by lia. done.
Qed.

Lemma resolveKeys_Ok (schema2 schema : Schema) (fields : list string)
    (cat2Keys catKeys : list Key) :
  resolveKeys schema2 schema fields = Ok (cat2Keys, catKeys) →
  Forall2 (fun f key => find schema2 f = Ok key) fields cat2Keys ∧
  Forall2 (fun f key => find schema f = Ok key) fields catKeys.
Proof.
  unfold resolveKeys.
  assert (H : ∀ acc2 acc r2 r,
    foldM (fun (keys : list Key * list Key) f =>
             item2 ← find schema2 f;
             item ← find schema f;
             Ok ((keys.1 ++ [getKey item2])%list,
                 (keys.2 ++ [getKey item])%list))
          (acc2, acc) fields = Ok (r2, r) →
    ∃ k2 k, r2 = (acc2 ++ k2)%list ∧ r = (acc ++ k)%list ∧
      Forall2 (fun f key => find schema2 f = Ok key) fields k2 ∧
      Forall2 (fun f key => find schema f = Ok key) fields k).
  { induction fields as [|f fields IH]; intros acc2 acc r2 r; simpl.
    - intros [= <- <-]. exists [], []. rewrite !app_nil_r. by repeat split.
    - intros (st & (i2 & H2 & (i & Hi & [= <-])%bind_Ok)%bind_Ok & H)%bind_Ok.
      apply IH in H as (k2 & k & -> & -> & F2 & F). simpl.
      exists (i2 :: k2), (i :: k). rewrite <- !app_assoc.
      repeat split; by try constructor. }
  intros (k2 & k & -> & -> & ? & ?)%H. done.
Qed.

Lemma mergedRecord_copyFields {Angle : Type} (scm : SchemaMapper)
    (schema2 schema : Schema) (fields : list string)
    (cat2Keys catKeys : list Key) (m1 m2 : Record) (d : Angle) :
  resolveKeys schema2 schema fields = Ok (cat2Keys, catKeys) →
  mergedRecord scm cat2Keys catKeys (m1, m2, d)
  = copyFields m2 fields (assign newRecord m1 scm).
Proof.
  intros [H2 H]%resolveKeys_Ok. unfold mergedRecord.
  apply copy_loop; by eapply found_names.
Qed.

(** ** The records of the merged catalog *)

Lemma createSchemaMapper_two_names (cat cat2 : Catalog) (scm : SchemaMapper) :
  createSchemaMapper cat (Some cat2) None false false false false = Ok scm →
  targetNames scm = mappedNames cat ∧
  outputNames scm = (mappedNames cat ++ reservedNames cat2)%list ∧
  NoDup (mappedNames cat ++ reservedNames cat2) ∧
  (∀ f, f ∈ reservedNames cat2 → f ∈ fieldNames (getSchema cat2)).
Proof.
  intros (items & items2 & H1 & H2 & Hm & Ho & Hnd)%createSchemaMapper_two_Ok.
  unfold targetNames, outputNames. rewrite Hm, Ho.
  split.
  { rewrite map_map. simpl. apply (found_names _ _ _ H1). }
  split.
  { unfold fieldNames. rewrite map_app.
    f_equal; eapply found_names; eassumption. }
  split; [done|].
  intros f Hf. apply list_elem_of_lookup in Hf as [i Hi].
  destruct (Forall2_lookup_l _ _ _ _ _ H2 Hi) as (item & _ & Hfind).
  by eapply find_Ok_elem_of.
Qed.

Lemma mergedRecord_merged_from {Angle : Type} (cat1 cat2 : Catalog)
    (scm : SchemaMapper) (cat2Keys catKeys : list Key)
    (best : Record * Record * Angle) :
  createSchemaMapper cat1 (Some cat2) None false false false false = Ok scm →
  resolveKeys (getSchema cat2) (getOutputSchema scm) (cat2Fields cat2)
  = Ok (cat2Keys, catKeys) →
  merged_from scm cat2 best (mergedRecord scm cat2Keys catKeys best).
Proof.
  intros (Ht & _ & Hnd & _)%createSchemaMapper_two_names Hk.
  destruct best as [[m1 m2] d].
  rewrite (mergedRecord_copyFields _ _ _ _ _ _ _ _ _ Hk).
  assert (Hnt : NoDup (targetNames scm))
    by (rewrite Ht; by apply NoDup_app in Hnd as [? _]).
  split; [|split]; simpl.
  - intros m Hm.
    rewrite copyFields_lookup_other; [by apply assign_lookup_target|].
    intros Hc. apply (cat2Fields_not_mapped cat1 cat2 _ Hnd Hc).
    rewrite <- Ht. unfold targetNames.
    by apply (list_elem_of_fmap_2 (fun m : Key * Key => getName m.2)).
  - intros f Hf. by apply copyFields_lookup.
  - intros name Hs.
    destruct (decide (name ∈ cat2Fields cat2)) as [|Hn2]; [by right|]. left.
    rewrite copyFields_lookup_other in Hs by done.
    destruct (decide (name ∈ targetNames scm)) as [|Hn1]; [done|].
    rewrite assign_lookup_other in Hs by done.
    unfold newRecord, Record in Hs. rewrite lookup_empty in Hs.
    by destruct Hs.
Qed.

Section MergedCatalog.

Context {Angle : Type}.
Variable angle_lt : Angle → Angle → bool.
Variable matchRaDec : Catalog → Catalog → Angle → bool → list (Match Angle).

(** C3: when [strictMatch] returns, its catalog has the output schema of
    the mapper and one record for each kept match, as many as there are
    surviving matches; each record holds, in every mapped column, the value
    the first record has in the source column, and, in every column of the
    second catalog whose name ends in one of its discovered suffixes, the
    value of the second record; those columns are columns reserved in step
    3 and targets of no copy directive, and among them are all suffixable
    columns with a discovered suffix and all pattern columns ending in
    one. *)
Theorem strictMatch_merged_records cat1 cat2 radius includeMismatches
    (out : Catalog) :
  (strictMatch angle_lt matchRaDec cat1 cat2 radius includeMismatches).2
  = Ok (RetCatalog out) →
  let bestMatches :=
    (reduceMatches angle_lt
       (matchRaDec cat1 cat2 radius includeMismatches)).1 in
  ∃ scm : SchemaMapper,
    createSchemaMapper cat1 (Some cat2) None false false false false = Ok scm ∧
    getSchema out = getOutputSchema scm ∧
    length (records out) = size bestMatches ∧
    Forall2 (merged_from scm cat2) (kept bestMatches) (records out) ∧
    (∀ f, f ∈ cat2Fields cat2 →
          f ∈ reservedNames cat2 ∧ f ∈ outputNames scm ∧
          f ∉ targetNames scm) ∧
    (∀ g s, g ∈ _suffixableFields → s ∈ getCatSuffixes cat2 →
            g +:+ s ∈ cat2Fields cat2) ∧
    (∀ p f s, p ∈ _suffixablePatterns → f ∈ extract (getSchema cat2) p →
              s ∈ getCatSuffixes cat2 → ends_with f s →
              f ∈ cat2Fields cat2).
Proof.
  intros (scm & k2 & k & Hscm & Hk & [= ->])%strictMatch_Ok bm.
  exists scm. simpl. split; [done|]. split; [done|].
  split; [by rewrite length_map, length_kept|].
  destruct (createSchemaMapper_two_names _ _ _ Hscm) as (Ht & Ho & Hnd & Hr).
  split; [|split; [|split]].
  - apply Forall2_fmap_r, Forall_Forall2_diag, Forall_forall.
    intros best _. by eapply mergedRecord_merged_from.
  - intros f Hf.
    assert (f ∈ outputNames scm) as Hout.
    { apply resolveKeys_Ok in Hk as [_ Hk].
      apply list_elem_of_lookup in Hf as [i Hi].
      destruct (Forall2_lookup_l _ _ _ _ _ Hk Hi) as (item & _ & Hfind).
      by eapply find_Ok_elem_of. }
    assert (f ∉ mappedNames cat1) as Hnm by by eapply cat2Fields_not_mapped.
    split; [|split; [done|by rewrite Ht]].
    rewrite Ho in Hout. by apply elem_of_app in Hout as [|].
  - intros g s Hg Hs. apply elem_of_cat2Fields. split.
    + apply Hr, elem_of_reservedNames. left. by exists g, s.
    + exists s. split; [done|]. by exists g.
  - intros p f s Hp Hf Hs He. apply elem_of_cat2Fields.
    apply elem_of_extract in Hf as [Hf _]. split; [done|]. by exists s.
Qed.

(** C10: when the second catalog has no suffixed column, no column of it is
    picked for copying, and each record [strictMatch] returns is the
    assignment of the mapped columns of the first record and nothing
    else. *)
Theorem strictMatch_no_suffixes cat1 cat2 radius includeMismatches
    (out : Catalog) :
  getCatSuffixes cat2 = [] →
  (strictMatch angle_lt matchRaDec cat1 cat2 radius includeMismatches).2
  = Ok (RetCatalog out) →
  let bestMatches :=
    (reduceMatches angle_lt
       (matchRaDec cat1 cat2 radius includeMismatches)).1 in
  cat2Fields cat2 = [] ∧
  ∃ scm : SchemaMapper,
    createSchemaMapper cat1 (Some cat2) None false false false false = Ok scm ∧
    records out
    = map (fun best : Record * Record * Angle =>
             assign newRecord best.1.1 scm) (kept bestMatches) ∧
    ∀ row, row ∈ records out →
      ∀ name, is_Some (row !! name) → name ∈ targetNames scm.
Proof.
  intros Hs (scm & k2 & k & Hscm & Hk & [= ->])%strictMatch_Ok bm.
  assert (cat2Fields cat2 = []) as Hc by (unfold cat2Fields; by rewrite Hs).
  split; [done|]. exists scm. split; [done|]. simpl.
  rewrite Hc in Hk. injection Hk as <- <-.
  assert (∀ best : Record * Record * Angle,
            mergedRecord scm [] [] best = assign newRecord best.1.1 scm) as Hrow
    by by intros [[m1 m2] d].
  split; [by apply map_ext|].
  intros row (best & -> & _)%list_elem_of_fmap name Hn. rewrite Hrow in Hn.
  destruct (decide (name ∈ targetNames scm)) as [|Hn1]; [done|].
  rewrite assign_lookup_other in Hn by done.
  unfold newRecord, Record in Hn. rewrite lookup_empty in Hn.
  by destruct Hn.
Qed.

End MergedCatalog.

(** ** The guards of createSchemaMapper *)

(** The two preconditions, as the code tests them: a second catalog with a
    filter suffix that is true, and a filter suffix that is not [None] for
    a catalog with suffixes. *)
Lemma createSchemaMapper_guards (cat : Catalog) (cat2 : option Catalog)
    (filterSuffix : option string) (w1 w2 w3 w4 : bool) :
  (is_not_None cat2 && truth filterSuffix = true →
   createSchemaMapper cat cat2 filterSuffix w1 w2 w3 w4
   = Raise (ValueError twoCatalogsMessage)) ∧
  (is_not_None cat2 && truth filterSuffix = false →
   getCatSuffixes cat ≠ [] → filterSuffix ≠ None →
   createSchemaMapper cat cat2 filterSuffix w1 w2 w3 w4
   = Raise (ValueError alreadySuffixedMessage)).
Proof.
  unfold createSchemaMapper. split.
  - by intros ->.
  - intros -> Hs Hf.
    destruct (getCatSuffixes cat) as [|s l]; [done|].
    by destruct filterSuffix.
Qed.

Lemma no_ValueError_Ok {A : Type} (a : A) : no_ValueError (Ok a).
Proof. by intros msg. Qed.

Lemma no_ValueError_bind {A B : Type} (m : result A) (f : A → result B) :
  no_ValueError m → (∀ a, no_ValueError (f a)) → no_ValueError (m ≫= f).
Proof.
  intros Hm Hf. destruct m as [a|e]; simpl; [apply Hf|].
  intros msg [= ->]. by apply (Hm msg).
Qed.

Lemma no_ValueError_foldM {A S : Type} (body : S → A → result S) (s : S)
    (l : list A) :
  (∀ s x, no_ValueError (body s x)) → no_ValueError (foldM body s l).
Proof.
  intros H. revert s. induction l as [|x l IH]; intros s; simpl.
  - apply no_ValueError_Ok.
  - by apply no_ValueError_bind.
Qed.

Lemma no_ValueError_find (schema : Schema) (name : string) :
  no_ValueError (find schema name).
Proof.
  induction schema as [|f schema IH]; simpl; [by intros msg|].
  destruct (String.eqb (getName f) name); [apply no_ValueError_Ok|done].
Qed.

Lemma no_ValueError_addOutputField (scm : SchemaMapper) (field : Field) :
  no_ValueError (addOutputField scm field).
Proof.
  unfold addOutputField, addField. by case_bool_decide; intros msg.
Qed.

Lemma no_ValueError_addMapping (scm : SchemaMapper) (key : Key)
    (newField : option Field) :
  no_ValueError (addMapping scm key newField).
Proof. unfold addMapping, addField. by case_bool_decide; intros msg. Qed.

Ltac no_ValueError :=
  repeat first
    [ apply no_ValueError_Ok
    | apply no_ValueError_find
    | apply no_ValueError_addOutputField
    | apply no_ValueError_addMapping
    | apply no_ValueError_bind; [|intros ?]
    | apply no_ValueError_foldM; intros ? ?
    | match goal with
      | |- no_ValueError (match ?x with _ => _ end) => destruct x
      | |- no_ValueError (let _ := _ in _) => cbv zeta
      end ].

(** Past its two guards, [createSchemaMapper] raises no [ValueError]. *)
Lemma createSchemaMapper_ValueError (cat : Catalog) (cat2 : option Catalog)
    (filterSuffix : option string) (w1 w2 w3 w4 : bool) (msg : string) :
  createSchemaMapper cat cat2 filterSuffix w1 w2 w3 w4
  = Raise (ValueError msg) →
  (msg = twoCatalogsMessage ∧ is_not_None cat2 && truth filterSuffix = true)
  ∨ (msg = alreadySuffixedMessage ∧
     getCatSuffixes cat ≠ [] ∧ filterSuffix ≠ None).
Proof.
  unfold createSchemaMapper.
  destruct (is_not_None cat2 && truth filterSuffix); [by intros [= <-]; left|].
  destruct ((0 <? Z.of_nat (length (getCatSuffixes cat)))
            && is_not_None filterSuffix) eqn:G.
  - intros [= <-]. right. split; [done|].
    apply andb_true_iff in G as [G1 G2].
    split; [by destruct (getCatSuffixes cat)|by destruct filterSuffix].
  - intros H. exfalso. revert msg H.
    match goal with
    | |- ∀ msg, ?r = _ → False => change (no_ValueError r)
    end.
    unfold mapStraight, mapRenamed, reserveSecond, addSynthetic.
    no_ValueError.
Qed.

(** ** createSchemaMapper with the empty string as filter suffix *)

Lemma string_app_empty_r (s : string) : s +:+ "" = s.
Proof.
  induction s as [|c s IH]; [done|].
  change (String c (s +:+ "") = String c s). by rewrite IH.
Qed.

Lemma grows_refl (scm : SchemaMapper) : grows scm scm.
Proof. split; exists []; rewrite app_nil_r; by try constructor. Qed.

Lemma grows_trans (scm1 scm2 scm3 : SchemaMapper) :
  grows scm1 scm2 → grows scm2 scm3 → grows scm1 scm3.
Proof.
  intros [(ms & Hm & Hok) (fs & Hf)] [(ms' & Hm' & Hok') (fs' & Hf')]. split.
  - exists (ms ++ ms')%list. rewrite Hm', Hm, app_assoc. split; [done|].
    by apply Forall_app.
  - exists (fs ++ fs')%list. by rewrite Hf', Hf, app_assoc.
Qed.

Lemma grows_mappings (scm scm' : SchemaMapper) (m : Key * Key) :
  grows scm scm' → m ∈ getMappings scm → m ∈ getMappings scm'.
Proof. intros [(ms & -> & _) _] H. apply elem_of_app. by left. Qed.

Lemma grows_outputNames (scm scm' : SchemaMapper) (name : string) :
  grows scm scm' → name ∈ outputNames scm → name ∈ outputNames scm'.
Proof.
  unfold outputNames, fieldNames. intros [_ (fs & ->)] H.
  rewrite map_app. apply elem_of_app. by left.
Qed.

Lemma addOutputField_grows (scm scm' : SchemaMapper) (field : Field) :
  addOutputField scm field = Ok scm' → grows scm scm'.
Proof.
  intros [-> _]%addOutputField_Ok. split; simpl.
  - exists []. rewrite app_nil_r. by split.
  - by eexists.
Qed.

Lemma mapStraight_grows (schema : Schema) (scm scm' : SchemaMapper)
    (f : string) :
  mapStraight schema scm f = Ok scm' → grows scm scm'.
Proof.
  intros (item & _ & _ & -> & _)%mapStraight_Ok. split; simpl.
  - eexists. split; [done|]. by repeat constructor.
  - by eexists.
Qed.

Lemma mapRenamed_empty_grows (schema : Schema) (scm scm' : SchemaMapper)
    (f : string) :
  mapRenamed schema "" scm f = Ok scm' → grows scm scm'.
Proof.
  intros (item & _ & Hn & -> & _)%mapRenamed_Ok. split; simpl.
  - eexists. split; [done|]. repeat constructor. simpl.
    by rewrite string_app_empty_r.
  - by eexists.
Qed.

Lemma foldM_grows {A : Type} (body : SchemaMapper → A → result SchemaMapper)
    (l : list A) (scm scm' : SchemaMapper) :
  (∀ s x s', body s x = Ok s' → grows s s') →
  foldM body scm l = Ok scm' → grows scm scm'.
Proof.
  intros Hbody. apply (foldM_inv (grows scm)); [|apply grows_refl].
  intros s x s' Hs _ Hx. eapply grows_trans; [done|by eapply Hbody].
Qed.

Lemma reserveSecond_grows (cat2 : Catalog) (scm scm' : SchemaMapper) :
  reserveSecond cat2 scm = Ok scm' → grows scm scm'.
Proof.
  unfold reserveSecond. intros (scm1 & H1 & H2)%bind_Ok.
  eapply grows_trans; [eapply foldM_grows, H1|eapply foldM_grows, H2].
  - intros s f s'. apply foldM_grows. clear. intros s x s'.
    intros (item & _ & H)%bind_Ok. by eapply addOutputField_grows.
  - intros s p s'. apply foldM_grows. clear. intros s x s'.
    intros (item & _ & H)%bind_Ok. by eapply addOutputField_grows.
Qed.

Lemma addSynthetic_grows (filterSuffix : option string)
    (suffixes : list string) (fields : list Field)
    (scm scm' : SchemaMapper) :
  addSynthetic filterSuffix suffixes fields scm = Ok scm' → grows scm scm'.
Proof.
  assert (Hr : ∀ suffix s s',
    foldM (fun scm fld =>
             addOutputField scm (copyRenamed fld (getName fld +:+ suffix)))
          s fields = Ok s' → grows s s').
  { intros suffix s s'. apply foldM_grows. intros ? ? ?.
    apply addOutputField_grows. }
  assert (Hu : (if Nat.eqb (length suffixes) 0
                then foldM addOutputField scm fields
                else foldM (fun scm s =>
                       foldM (fun scm fld =>
                                addOutputField scm
                                  (copyRenamed fld (getName fld +:+ s)))
                             scm fields) scm suffixes) = Ok scm' →
               grows scm scm').
  { destruct (Nat.eqb (length suffixes) 0).
    - apply foldM_grows. intros ? ? ?. apply addOutputField_grows.
    - apply foldM_grows. intros s x s'. apply Hr. }
  unfold addSynthetic. destruct filterSuffix as [fs|]; [|exact Hu].
  destruct (str_truth fs); [apply Hr|exact Hu].
Qed.

(** After a loop that ran to its end, what each pass established and no
    later pass undid holds for every element. *)
Lemma foldM_each {A S : Type} (Q : A → S → Prop) (body : S → A → result S)
    (l : list A) (s s' : S) :
  (∀ s x s', body s x = Ok s' → Q x s') →
  (∀ s y s' x, Q x s → body s y = Ok s' → Q x s') →
  foldM body s l = Ok s' → ∀ x, x ∈ l → Q x s'.
Proof.
  intros Hest Hkeep. revert s. induction l as [|y l IH]; intros s; simpl.
  - by intros _ x ?%elem_of_nil.
  - intros (s1 & H1 & H2)%bind_Ok x [->|Hx]%elem_of_cons; [|by eapply IH].
    apply (foldM_inv (Q y) body l s1 s'); [|by eapply Hest|done].
    intros s0 z s0' ? _. by apply Hkeep.
Qed.

(** C9: the empty string is a filter suffix that is not [None], and with it
    and a second catalog [createSchemaMapper] does not raise the
    two-catalog [ValueError]; when the call returns, the filter-suffix
    branch has run with the empty suffix: the [multId] column is there
    under its bare name, every suffixable column is mapped to a copy
    renamed to its own name, and every target column has the name of its
    source column. *)
Theorem createSchemaMapper_empty_suffix (cat cat2 : Catalog)
    (w1 w2 w3 w4 : bool) :
  Some "" ≠ None ∧
  createSchemaMapper cat (Some cat2) (Some "") w1 w2 w3 w4
  ≠ Raise (ValueError twoCatalogsMessage) ∧
  ∀ scm : SchemaMapper,
    createSchemaMapper cat (Some cat2) (Some "") w1 w2 w3 w4 = Ok scm →
    "multId" ∈ outputNames scm ∧
    (∀ f, f ∈ _suffixableFields →
       ∃ item, find (getSchema cat) f = Ok item ∧
               (getKey item, copyRenamed (getField item) (f +:+ ""))
               ∈ getMappings scm) ∧
    (∀ m : Key * Key, m ∈ getMappings scm → getName m.2 = getName m.1).
Proof.
  split; [done|]. split.
  { intros H. apply createSchemaMapper_ValueError in H as [[_ H]|[H _]];
      discriminate. }
  intros scm. unfold createSchemaMapper.
  change (is_not_None (Some cat2) && truth (Some "")) with false. cbv iota.
  destruct (_ && _); [discriminate|].
  change (_getFilterSuffix "") with "".
  intros (s1 & H1 & (s2 & H2 & (s3 & H3 & (s4 & H4 & (s5 & H5 & (s6 & H6 &
    (s7 & H7 & (s8 & H8 & (s9 & H9 & (s10 & H10 & [= <-])%bind_Ok)%bind_Ok
    )%bind_Ok)%bind_Ok)%bind_Ok)%bind_Ok)%bind_Ok)%bind_Ok)%bind_Ok)%bind_Ok.
  assert (G1 : grows (newSchemaMapper (getSchema cat)) s1).
  { eapply foldM_grows, H1. intros ? ? ?. apply mapStraight_grows. }
  assert (G2 : grows s1 s2).
  { eapply foldM_grows, H2. intros s p s'. apply foldM_grows.
    intros ? ? ?. apply mapStraight_grows. }
  assert (G3 : grows s2 s3) by by eapply addOutputField_grows.
  assert (G4 : grows s3 s4).
  { eapply foldM_grows, H4. intros ? ? ?. apply mapRenamed_empty_grows. }
  assert (G5 : grows s4 s5).
  { eapply foldM_grows, H5. intros s p s'. apply foldM_grows.
    change (str_truth "") with false. cbv iota.
    intros ? ? ?. apply mapStraight_grows. }
  assert (G6 : grows s5 s6) by by eapply reserveSecond_grows.
  assert (G7 : grows s6 s7).
  { destruct w1; [by eapply addSynthetic_grows|].
    injection H7 as <-. apply grows_refl. }
  assert (G8 : grows s7 s8).
  { destruct w3; [by eapply addSynthetic_grows|].
    injection H8 as <-. apply grows_refl. }
  assert (G9 : grows s8 s9).
  { destruct w4; [by eapply addSynthetic_grows|].
    injection H9 as <-. apply grows_refl. }
  assert (G10 : grows s9 s10).
  { destruct w2; [|injection H10 as <-; apply grows_refl].
    apply bind_Ok in H10 as (s & Ha & Hb).
    eapply grows_trans; by eapply addOutputField_grows. }
  assert (G4' : grows s4 s10) by eauto 10 using grows_trans.
  assert (G3' : grows s3 s10) by eauto using grows_trans.
  assert (G0 : grows (newSchemaMapper (getSchema cat)) s10)
    by eauto 10 using grows_trans.
  split; [|split].
  - apply (grows_outputNames s3); [done|].
    apply addOutputField_Ok in H3 as [-> _].
    unfold outputNames, fieldNames. simpl. rewrite map_app.
    apply elem_of_app. right. by left.
  - intros f Hf.
    pose (Q := fun (f : string) (s : SchemaMapper) =>
            ∃ item, find (getSchema cat) f = Ok item ∧
              (getKey item, copyRenamed (getField item) (f +:+ ""))
              ∈ getMappings s).
    assert (Q f s4) as (item & Hfi & Hm).
    { revert f Hf. apply (foldM_each Q _ _ _ _) with (3 := H4).
      - intros s f s' (item & Hfi & _ & -> & _)%mapRenamed_Ok.
        exists item. split; [done|]. simpl. apply elem_of_app. right. by left.
      - intros s y s' f (item & Hfi & Hm) Hy%mapRenamed_empty_grows.
        exists item. split; [done|]. by apply (grows_mappings s). }
    exists item. split; [done|]. by apply (grows_mappings s4).
  - destruct G0 as [(ms & -> & Hok) _]. simpl.
    intros m Hm. rewrite Forall_forall in Hok. by apply Hok.
Qed.


(** ** The properties on the example catalogs *)

Lemma Z_ltb_asym (a b : Z) : (a <? b) = true → (b <? a) = false.
Proof. intros H%Z.ltb_lt. apply Z.ltb_ge. lia. Qed.

Lemma Z_ltb_cotrans (a b c : Z) :
  (a <? b) = true → (a <? c) = true ∨ (c <? b) = true.
Proof.
  intros H%Z.ltb_lt. destruct (Z.ltb_spec a c); [by left|].
  right. apply Z.ltb_lt. lia.
Qed.

Lemma exampleMapper_Ok :
  createSchemaMapper catalogG (Some catalogR) None false false false false
  = Ok exampleMapper.
Proof. vm_compute. reflexivity. Qed.

Lemma exampleKeys_Ok :
  resolveKeys (getSchema catalogR) (getOutputSchema exampleMapper)
    (cat2Fields catalogR)
  = Ok exampleKeys.
Proof. vm_compute. reflexivity. Qed.

Lemma exampleMerged_Ok :
  (strictMatch Z.ltb exampleMatchRaDec catalogG catalogR 10 true).2
  = Ok (RetCatalog exampleMerged).
Proof.
  apply (strictMatch_Ok_intro Z.ltb exampleMatchRaDec catalogG catalogR 10
           true exampleMapper exampleKeys.1 exampleKeys.2).
  - exact exampleMapper_Ok.
  - exact exampleKeys_Ok.
Qed.

Lemma goodSources_mask_witness :
  (goodSources rawCatalog).2 = Ok (array [false; true; false]) ∧
  ∃ good : list bool,
    (goodSources rawCatalog).2 = Ok (array good) ∧
    length good = length (records rawCatalog) ∧
    ∀ (i : nat) (r : Record), records rawCatalog !! i = Some r →
      ∃ b : bool, good !! i = Some b ∧
        (b = false ↔
         (∃ name, name ∈ badFlags ∧ nonzero (r !! name) = true)
         ∨ eq_zero (r !! "deblend.nchild") = false).
Proof.
  split; [vm_compute; reflexivity|].
  apply (proj2 (goodSources_mask rawCatalog)).
  intros name Hn. unfold badFlags in Hn.
  repeat (apply elem_of_cons in Hn as [->|Hn];
          [apply (bool_decide_unpack _); vm_compute; exact I|]).
  by apply elem_of_nil in Hn.
Defined.

Lemma strictMatch_one_to_one_witness :
  (strictMatch Z.ltb exampleMatchRaDec catalogG catalogR 10 true).2
  = Ok (RetCatalog exampleMerged) ∧
  length (records exampleMerged) = 2%nat ∧
  ∃ scm cat2Keys catKeys,
    records exampleMerged
    = map (mergedRecord scm cat2Keys catKeys)
          (kept (reduceMatches Z.ltb exampleCandidates).1).
Proof.
  split; [exact exampleMerged_Ok|]. split; [vm_compute; reflexivity|].
  exact (proj2 (strictMatch_one_to_one Z.ltb exampleMatchRaDec
                  catalogG catalogR 10 true) exampleMerged exampleMerged_Ok).
Defined.

Lemma reduceMatches_closest_witness :
  ∃ best : Record * Record * Z,
    (reduceMatches Z.ltb exampleCandidates).1 !! 101 = Some best ∧
    first_closest Z.ltb exampleCandidates 101 best.
Proof.
  destruct (reduceMatches_closest Z.ltb Z_ltb_asym Z_ltb_cotrans
              exampleCandidates 101) as [H1 H2].
  destruct H1 as [best Hbest].
  - exists 0%nat, (bandRecord "_g" 1 false 0 1065353216),
      (bandRecord "_r" 101 false 0 1065353216), 5.
    split; [reflexivity|vm_compute; reflexivity].
  - exists best. split; [exact Hbest|]. apply H2, Hbest.
Defined.

(** C5, as stated, fails: with [includeMismatches] and a record without a
    partner, the call succeeds and hands back the merged catalog, not a
    pair of it and the unmatched identifiers. *)
Lemma strictMatch_returns_no_list :
  length (reduceMatches Z.ltb
            (exampleMatchRaDec catalogG catalogR 10 true)).2 = 1%nat ∧
  (strictMatch Z.ltb exampleMatchRaDec catalogG catalogR 10 true).2
  = Ok (RetCatalog exampleMerged) ∧
  ¬ ∃ (out : Catalog) (ids : list Z),
      (strictMatch Z.ltb exampleMatchRaDec catalogG catalogR 10 true).2
      = Ok (RetCatalogAndNoMatch out ids).
Proof.
  split; [vm_compute; reflexivity|]. split; [exact exampleMerged_Ok|].
  intros (out & ids & H).
  pose proof (strictMatch_returns_catalog Z.ltb exampleMatchRaDec
                catalogG catalogR 10 true) as Hc.
  by rewrite H in Hc.
Qed.

(** C4, at the input where it fails: a raw catalog, a second catalog and
    the empty string as filter suffix; no [ValueError] is raised and a
    mapper is built. *)
Theorem createSchemaMapper_empty_suffix_accepted :
  createSchemaMapper rawCatalog (Some catalogR) (Some "")
    false false false false
  = Ok emptySuffixMapper ∧
  getMappings emptySuffixMapper ≠ [].
Proof. split; [vm_compute; reflexivity|discriminate]. Qed.

Lemma createSchemaMapper_empty_suffix_witness :
  "multId" ∈ outputNames emptySuffixMapper ∧
  ∀ m : Key * Key, m ∈ getMappings emptySuffixMapper →
                   getName m.2 = getName m.1.
Proof.
  destruct (createSchemaMapper_empty_suffix rawCatalog catalogR
              false false false false) as (_ & _ & H).
  destruct (H emptySuffixMapper) as (H1 & _ & H3).
  - vm_compute. reflexivity.
  - split; assumption.
Defined.

Lemma strictMatch_merged_records_witness :
  ∃ scm : SchemaMapper,
    createSchemaMapper catalogG (Some catalogR) None false false false false
    = Ok scm ∧
    getSchema exampleMerged = getOutputSchema scm ∧
    length (records exampleMerged) = 2%nat ∧
    Forall2 (merged_from scm catalogR)
      (kept (reduceMatches Z.ltb exampleCandidates).1)
      (records exampleMerged) ∧
    ("flux.psf_r" ∈ cat2Fields catalogR ∧
     "flux.psf_r" ∈ reservedNames catalogR ∧
     "flux.psf_r" ∉ targetNames scm).
Proof.
  destruct (strictMatch_merged_records Z.ltb exampleMatchRaDec
              catalogG catalogR 10 true exampleMerged exampleMerged_Ok)
    as (scm & H1 & H2 & _ & H4 & H5 & _).
  exists scm. split; [exact H1|]. split; [exact H2|].
  split; [vm_compute; reflexivity|]. split; [exact H4|].
  assert ("flux.psf_r" ∈ cat2Fields catalogR) as Hf
    by (apply (bool_decide_unpack _); vm_compute; exact I).
  destruct (H5 _ Hf) as (Hr & _ & Ht). by repeat split.
Defined.

Lemma rawPairMapper_Ok :
  createSchemaMapper catalogG (Some rawCatalog) None false false false false
  = Ok rawPairMapper.
Proof. vm_compute. reflexivity. Qed.

Lemma rawPairMerged_Ok :
  (strictMatch Z.ltb rawMatchRaDec catalogG rawCatalog 10 true).2
  = Ok (RetCatalog rawPairMerged).
Proof.
  apply (strictMatch_Ok_intro Z.ltb rawMatchRaDec catalogG rawCatalog 10
           true rawPairMapper [] []).
  - exact rawPairMapper_Ok.
  - vm_compute. reflexivity.
Qed.

Lemma strictMatch_no_suffixes_witness :
  getCatSuffixes rawCatalog = [] ∧
  cat2Fields rawCatalog = [] ∧
  length (records rawPairMerged) = 1%nat ∧
  ∀ row, row ∈ records rawPairMerged →
    ∀ name, is_Some (row !! name) → name ∈ targetNames rawPairMapper.
Proof.
  assert (getCatSuffixes rawCatalog = []) as Hs by (vm_compute; reflexivity).
  destruct (strictMatch_no_suffixes Z.ltb rawMatchRaDec catalogG rawCatalog
              10 true rawPairMerged Hs rawPairMerged_Ok)
    as (Hc & scm & Hscm & _ & Hrows).
  split; [exact Hs|]. split; [exact Hc|].
  split; [vm_compute; reflexivity|].
  rewrite rawPairMapper_Ok in Hscm. injection Hscm as <-. exact Hrows.
Defined.

(** * Further properties *)

(** ** getCatSuffixes, for every catalog *)

(** X1: for every catalog [getCatSuffixes] returns distinct suffixes in
    band order, and a suffix is returned exactly when it is one of the five
    band suffixes and some column name ends in it, or in it and one line
    feed. *)
Theorem getCatSuffixes_exact (cat : Catalog) :
  NoDup (getCatSuffixes cat) ∧
  StronglySorted band_lt (getCatSuffixes cat) ∧
  ∀ s, s ∈ getCatSuffixes cat ↔
       s ∈ bandSuffixes ∧
       ∃ name, name ∈ fieldNames (getSchema cat) ∧
               (ends_with name s ∨ ends_with name (s +:+ lf)).
Proof.
  split; [apply getCatSuffixes_NoDup|].
  split; [apply getCatSuffixes_sorted|].
  intros s. rewrite getCatSuffixes_elem. split.
  - intros (name & Hin & [Hs H]%suffixRegex_search_Some). eauto.
  - intros (Hs & name & Hin & H). exists name. split; [done|].
    by apply suffixRegex_search_Some.
Qed.

#[local] Instance band_lt_antisymm : AntiSymm (=) band_lt.
Proof.
  intros a b. unfold band_lt.
  destruct (_suffixOrder a), (_suffixOrder b); try done. intros; lia.
Qed.

(** X2: the suffixes depend on the set of column names only, not on the
    order of the columns or on their types. *)
Theorem getCatSuffixes_names (cat cat' : Catalog) :
  (∀ name, name ∈ fieldNames (getSchema cat) ↔
           name ∈ fieldNames (getSchema cat')) →
  getCatSuffixes cat = getCatSuffixes cat'.
Proof.
  intros H.
  apply (StronglySorted_unique band_lt); try apply getCatSuffixes_sorted.
  apply NoDup_Permutation; try apply getCatSuffixes_NoDup.
  intros s. rewrite !getCatSuffixes_elem. by setoid_rewrite H.
Qed.

Lemma getCatSuffixes_names_witness :
  getCatSuffixes (emptyCatalog ["a_r"; "id"; "b_g"])
  = getCatSuffixes (emptyCatalog ["b_g"; "a_r"; "b_g"; "id"]).
Proof.
  apply getCatSuffixes_names. intros name. simpl.
  rewrite !elem_of_cons. tauto.
Defined.

(** ** getCatBands *)

Lemma is_band_name (c : ascii) :
  is_band c = true ↔ String c EmptyString ∈ bandNames.
Proof.
  unfold is_band, bandNames. rewrite !orb_true_iff, !Ascii.eqb_eq.
  rewrite !elem_of_cons, elem_of_nil.
  split.
  - intros [[[[->| ->]| ->]| ->]| ->]; tauto.
  - intros [[= ->]|[[= ->]|[[= ->]|[[= ->]|[[= ->]|[]]]]]]; tauto.
Qed.

(** What the band expression finds, and the band letter taken from it. *)
Lemma bandRegex_search_Some (name group1 : string) :
  _bandRegex_search name = Some group1 ↔
  ∃ b, b ∈ bandNames ∧ group1 = "." +:+ b ∧
       (ends_with name group1 ∨ ends_with name (group1 +:+ lf)).
Proof.
  split.
  - unfold _bandRegex_search.
    destruct (rev (list_ascii_of_string name)) as [|c [|u rest]] eqn:E;
      try discriminate.
    destruct (Ascii.eqb u "." && is_band c) eqn:T.
    + intros [= <-]. apply andb_true_iff in T as [Hu Hc].
      apply Ascii.eqb_eq in Hu. subst u.
      exists (String c EmptyString). split; [by apply is_band_name|].
      split; [done|]. left. exists (string_of_list_ascii (rev rest)).
      apply (string_of_rev_cons name rest [c; "."%char]) in E. exact E.
    + destruct (Ascii.eqb c newline) eqn:Hc; [|discriminate].
      destruct rest as [|u' rest]; [discriminate|].
      destruct (Ascii.eqb u' "." && is_band u) eqn:T'; [|discriminate].
      intros [= <-]. apply andb_true_iff in T' as [Hu' Hu].
      apply Ascii.eqb_eq in Hu', Hc. subst u' c.
      exists (String u EmptyString). split; [by apply is_band_name|].
      split; [done|]. right. exists (string_of_list_ascii (rev rest)).
      apply (string_of_rev_cons name rest [newline; u; "."%char]) in E.
      exact E.
  - intros (b & Hb & -> & H).
    assert (∃ c, b = String c EmptyString ∧ is_band c = true)
      as (c & -> & Hc).
    { unfold bandNames in Hb.
      repeat (apply elem_of_cons in Hb as [->|Hb];
              [eexists; split; reflexivity|]).
      by apply elem_of_nil in Hb. }
    unfold _bandRegex_search.
    destruct H as [[pre ->]|[pre ->]].
    + rewrite list_ascii_of_string_app, rev_app_distr. simpl.
      by rewrite Hc.
    + rewrite list_ascii_of_string_app, rev_app_distr. simpl.
      rewrite Hc.
      assert (is_band newline = false) as -> by reflexivity.
      by rewrite andb_false_r.
Qed.

Lemma bandStep_spec (acc : list string) (name b : string) :
  b ∈ bandStep acc name ↔
  b ∈ acc ∨ ∃ group1, _bandRegex_search name = Some group1 ∧
                       b = last_char group1.
Proof.
  unfold bandStep. destruct (_bandRegex_search name) as [t|].
  - simpl. case_bool_decide as Ht.
    + split; [by left|]. intros [?|(g & [= <-] & ->)]; done.
    + rewrite elem_of_app, list_elem_of_singleton. split.
      * intros [?| ->]; [by left|right; eauto].
      * intros [?|(g & [= <-] & ->)]; auto.
  - split; [by left|]. by intros [?|(? & ? & _)].
Qed.

Lemma bandStep_NoDup (acc : list string) (name : string) :
  NoDup acc → NoDup (bandStep acc name).
Proof.
  intros Hacc. unfold bandStep.
  destruct (_bandRegex_search name) as [t|]; [|done]. simpl.
  case_bool_decide as Ht; [done|].
  apply NoDup_app. split; [done|]. split; [|apply NoDup_singleton].
  by intros x Hx ->%list_elem_of_singleton.
Qed.

Lemma bandScan_spec (names acc : list string) (b : string) :
  b ∈ fold_left bandStep names acc ↔
  b ∈ acc ∨ ∃ name group1, name ∈ names ∧
                _bandRegex_search name = Some group1 ∧ b = last_char group1.
Proof.
  revert acc. induction names as [|n names IH]; intros acc; simpl.
  - split; [by left|]. intros [?|(? & ? & []%elem_of_nil & _)]. done.
  - rewrite IH, bandStep_spec. split.
    + intros [[?|(g & ? & ?)]|(name & g & ? & ? & ?)]; [by left|right..].
      * exists n, g. split; [left|done].
      * exists name, g. split; [by right|done].
    + intros [?|(name & g & [->|?]%elem_of_cons & ? & ?)].
      * by left; left.
      * left; right. eauto.
      * right. by exists name, g.
Qed.

Lemma bandScan_NoDup (names acc : list string) :
  NoDup acc → NoDup (fold_left bandStep names acc).
Proof.
  revert acc. induction names as [|n names IH]; intros acc Hacc; simpl; [done|].
  by apply IH, bandStep_NoDup.
Qed.

Lemma getCatBands_elem (cat : Catalog) (b : string) :
  b ∈ getCatBands cat ↔
  b ∈ bandNames ∧
  ∃ name, name ∈ fieldNames (getSchema cat) ∧
          (ends_with name ("." +:+ b) ∨ ends_with name ("." +:+ b +:+ lf)).
Proof.
  unfold getCatBands. rewrite sort_by_key_Permutation, bandScan_spec.
  split.
  - intros [[]%elem_of_nil|(name & g & Hin & Hg & ->)].
    apply bandRegex_search_Some in Hg as (b & Hb & -> & H).
    assert (last_char ("." +:+ b) = b) as ->.
    { unfold bandNames in Hb.
      repeat (apply elem_of_cons in Hb as [->|Hb]; [reflexivity|]).
      by apply elem_of_nil in Hb. }
    split; [done|]. by exists name.
  - intros (Hb & name & Hin & H). right. exists name, ("." +:+ b).
    split; [done|]. split.
    + apply bandRegex_search_Some. by exists b.
    + unfold bandNames in Hb.
      repeat (apply elem_of_cons in Hb as [->|Hb]; [reflexivity|]).
      by apply elem_of_nil in Hb.
Qed.

Lemma bandName_lt_of_key_le (a b : string) :
  a ∈ bandNames → b ∈ bandNames → a ≠ b →
  key_le (_bandOrder a) (_bandOrder b) = true → bandName_lt a b.
Proof.
  unfold bandNames, bandName_lt. intros Ha Hb Hne.
  repeat (apply elem_of_cons in Ha as [->|Ha]);
    try (by apply elem_of_nil in Ha);
    repeat (apply elem_of_cons in Hb as [->|Hb]);
    try (by apply elem_of_nil in Hb);
    try done; simpl; intros; lia.
Qed.

(** X3: for every catalog [getCatBands] returns distinct band letters in
    the order g, r, i, z, y, and a letter is returned exactly when some
    column name ends in a dot and that letter, or in them and one line
    feed. *)
Theorem getCatBands_exact (cat : Catalog) :
  NoDup (getCatBands cat) ∧
  StronglySorted bandName_lt (getCatBands cat) ∧
  ∀ b, b ∈ getCatBands cat ↔
       b ∈ bandNames ∧
       ∃ name, name ∈ fieldNames (getSchema cat) ∧
               (ends_with name ("." +:+ b) ∨
                ends_with name ("." +:+ b +:+ lf)).
Proof.
  assert (Hnd : NoDup (getCatBands cat)).
  { unfold getCatBands. rewrite sort_by_key_Permutation.
    apply bandScan_NoDup, NoDup_nil_2. }
  split; [done|]. split; [|apply getCatBands_elem].
  assert (Hband : ∀ b, b ∈ getCatBands cat → b ∈ bandNames)
    by (by intros b [? _]%getCatBands_elem).
  assert (Hs : key_sorted _bandOrder (getCatBands cat))
    by apply sort_by_key_sorted.
  induction Hs as [|a l Hs IH Ha]; [constructor|].
  apply NoDup_cons in Hnd as [Hal Hnd].
  constructor.
  - apply IH; [done|]. intros s Hs'. apply Hband. by right.
  - apply Forall_forall. intros b Hb.
    apply bandName_lt_of_key_le.
    + apply Hband. by left.
    + apply Hband. by right.
    + by intros ->.
    + rewrite Forall_forall in Ha. by apply Ha.
Qed.

(** ** createSchemaMapper, step by step *)

Lemma foldM_nil_if {A S : Type} (body : S → A → result S) (s : S)
    (b : bool) (l : list A) (r : result S) :
  (b = true → r = foldM body s l) →
  (if b then r else Ok s) = foldM body s (if b then l else []).
Proof. destruct b; [by intros ->|done]. Qed.

Lemma addSynthetic_unsuffixed (filterSuffix : option string)
    (suffixes : list string) (fields : list Field) (scm : SchemaMapper) :
  truth filterSuffix = false →
  addSynthetic filterSuffix suffixes fields scm
  = foldM addOutputField scm (fanSuffixes suffixes fields).
Proof.
  intros Ht. unfold addSynthetic, fanSuffixes.
  assert ((if Nat.eqb (length suffixes) 0
           then foldM addOutputField scm fields
           else foldM (fun scm s =>
                  foldM (fun scm fld =>
                           addOutputField scm
                             (copyRenamed fld (getName fld +:+ s)))
                        scm fields) scm suffixes)
          = foldM addOutputField scm
              (if Nat.eqb (length suffixes) 0 then fields
               else flat_map (fun s =>
                      map (fun fld => copyRenamed fld (getName fld +:+ s))
                          fields) suffixes)) as E.
  { destruct (Nat.eqb (length suffixes) 0); [done|].
    rewrite <- foldM_flat_map. apply foldM_ext. intros s x.
    apply (foldM_map addOutputField
             (fun fld => copyRenamed fld (getName fld +:+ x))). }
  destruct filterSuffix as [fs|]; [|exact E].
  simpl in Ht. by rewrite Ht.
Qed.

Lemma addSynthetic_suffixed (fs : string) (suffixes : list string)
    (fields : list Field) (scm : SchemaMapper) :
  str_truth fs = true →
  addSynthetic (Some fs) suffixes fields scm
  = foldM addOutputField scm (fanFilter (_getFilterSuffix fs) fields).
Proof.
  intros Ht. unfold addSynthetic, fanFilter. rewrite Ht.
  apply (foldM_map addOutputField
           (fun fld => copyRenamed fld (getName fld +:+ _getFilterSuffix fs))).
Qed.

(** The four blocks that add synthetic columns, as one loop. *)
Lemma synthetic_blocks (filterSuffix : option string)
    (suffixes : list string) (fan : list Field → list Field)
    (w1 w2 w3 w4 : bool) (scm : SchemaMapper) :
  (∀ fields s, addSynthetic filterSuffix suffixes fields s
               = foldM addOutputField s (fan fields)) →
  ((if w1 then
      addSynthetic filterSuffix suffixes [_zeroMagField; _zeroMagErrField] scm
    else Ok scm) ≫= fun scm =>
   (if w3 then addSynthetic filterSuffix suffixes [_seeingField] scm
    else Ok scm) ≫= fun scm =>
   (if w4 then addSynthetic filterSuffix suffixes [_exptimeField] scm
    else Ok scm) ≫= fun scm =>
   (if w2 then
      addOutputField scm _stellarField ≫= fun scm =>
      addOutputField scm _magAutoField
    else Ok scm) ≫= fun scm => Ok scm)
  = foldM addOutputField scm (syntheticFields fan w1 w2 w3 w4).
Proof.
  intros Hfan. unfold syntheticFields. rewrite foldM_app.
  apply bind_congr; [by apply foldM_nil_if|]. intros s1.
  rewrite foldM_app.
  apply bind_congr; [by apply foldM_nil_if|]. intros s2.
  rewrite foldM_app.
  apply bind_congr; [by apply foldM_nil_if|]. intros s3.
  rewrite bind_Ok_r by done.
  apply foldM_nil_if. intros _. simpl.
  apply bind_congr; [done|]. intros s4. by rewrite bind_Ok_r.
Qed.

(** Without a filter suffix the mapper is built by mapping [mappedNames]
    straight through, reserving the columns of the second catalog, and
    adding the synthetic columns. *)
Lemma createSchemaMapper_unsuffixed (cat : Catalog) (cat2 : option Catalog)
    (w1 w2 w3 w4 : bool) :
  createSchemaMapper cat cat2 None w1 w2 w3 w4
  = (foldM (mapStraight (getSchema cat)) (newSchemaMapper (getSchema cat))
           (mappedNames cat) ≫= fun scm =>
     foldM (reserveOne (schemaOf cat2)) scm (reservedOf cat2) ≫= fun scm =>
     foldM addOutputField scm
       (syntheticFields (fanSuffixes (getCatSuffixes cat)) w1 w2 w3 w4)).
Proof.
  unfold createSchemaMapper, mappedNames. simpl truth.
  rewrite !andb_false_r. cbv iota.
  rewrite foldM_app, bind_assoc.
  apply bind_congr; [done|]. intros scm1.
  rewrite foldM_app, bind_assoc.
  apply bind_congr; [apply foldM_flat_map|]. intros scm2.
  rewrite bind_Ok_l, foldM_app, bind_assoc.
  apply bind_congr; [apply suffixable_loop_straight|]. intros scm3.
  apply bind_congr; [apply foldM_flat_map|]. intros scm4.
  apply bind_congr.
  { destruct cat2 as [cat2|]; [apply reserveSecond_loop|done]. }
  intros scm5. apply synthetic_blocks.
  intros fields s. by apply addSynthetic_unsuffixed.
Qed.

(** With a filter suffix that is true, for a catalog without suffixes and
    no second catalog: the fixed columns straight, the [multId] column,
    the suffixable columns renamed, the synthetic columns renamed. *)
Lemma createSchemaMapper_suffixed (cat : Catalog) (fs : string)
    (w1 w2 w3 w4 : bool) :
  str_truth fs = true → getCatSuffixes cat = [] →
  createSchemaMapper cat None (Some fs) w1 w2 w3 w4
  = (foldM (mapStraight (getSchema cat)) (newSchemaMapper (getSchema cat))
           (fixedNames cat) ≫= fun scm =>
     addOutputField scm
       (copyRenamed _idField ("multId" +:+ _getFilterSuffix fs))
     ≫= fun scm =>
     foldM (mapRenamed (getSchema cat) (_getFilterSuffix fs)) scm
           (suffixableNames cat) ≫= fun scm =>
     foldM addOutputField scm
       (syntheticFields (fanFilter (_getFilterSuffix fs)) w1 w2 w3 w4)).
Proof.
  intros Ht Hs. unfold createSchemaMapper, fixedNames, suffixableNames.
  rewrite Hs. simpl is_not_None. simpl andb. cbv iota.
  rewrite Ht.
  rewrite foldM_app, bind_assoc.
  apply bind_congr; [done|]. intros scm1.
  apply bind_congr; [apply foldM_flat_map|]. intros scm2.
  apply bind_congr; [done|]. intros scm3.
  rewrite foldM_app, bind_assoc.
  apply bind_congr; [by apply foldM_ext|]. intros scm4.
  apply bind_congr; [apply foldM_flat_map|]. intros scm5.
  rewrite bind_Ok_l. apply synthetic_blocks.
  intros fields s. by apply addSynthetic_suffixed.
Qed.

(** A run of output-only additions appends the columns and adds no copy
    directive. *)
Lemma addOutputField_loop (fields : list Field) (scm scm' : SchemaMapper) :
  foldM addOutputField scm fields = Ok scm' →
  getMappings scm' = getMappings scm ∧
  getOutputSchema scm' = (getOutputSchema scm ++ fields)%list ∧
  (NoDup (outputNames scm) → NoDup (outputNames scm')).
Proof.
  revert scm. induction fields as [|f fields IH]; intros scm; simpl.
  - intros [= <-]. by rewrite app_nil_r.
  - intros (scm1 & [-> Hn]%addOutputField_Ok & H)%bind_Ok.
    apply IH in H as (Hm & Ho & Hnd). simpl in *.
    rewrite <- app_assoc in Ho. simpl in Ho.
    split; [done|]. split; [done|].
    intros Hnd0. apply Hnd. unfold outputNames, fieldNames in *. simpl.
    rewrite map_app. simpl.
    apply NoDup_app. split; [done|]. split; [|apply NoDup_singleton].
    by intros x Hx ->%list_elem_of_singleton.
Qed.

(** A run of renaming mappings appends the renamed columns to the output
    schema, and maps each column found to its renamed copy. *)
Lemma mapRenamed_loop (schema : Schema) (suffix : string) (l : list string)
    (scm scm' : SchemaMapper) :
  foldM (mapRenamed schema suffix) scm l = Ok scm' →
  ∃ items : list Field,
    Forall2 (fun f item => find schema f = Ok item) l items ∧
    getMappings scm'
    = (getMappings scm
       ++ map (fun item => (item, renamed suffix item)) items)%list ∧
    getOutputSchema scm'
    = (getOutputSchema scm ++ map (renamed suffix) items)%list ∧
    (NoDup (outputNames scm) → NoDup (outputNames scm')).
Proof.
  revert scm. induction l as [|f l IH]; intros scm; simpl.
  - intros [= <-]. exists []. simpl. rewrite !app_nil_r. by repeat split.
  - intros (scm1 & (item & Hf & Hname & -> & Hn)%mapRenamed_Ok & H)%bind_Ok.
    apply IH in H as (items & Hitems & Hm & Ho & Hnd). simpl in *.
    exists (item :: items). rewrite <- !app_assoc in *. simpl in *.
    unfold renamed at 1 3. rewrite Hname.
    split; [by constructor|]. split; [done|]. split; [done|].
    intros Hnd0. apply Hnd. unfold outputNames, fieldNames in *. simpl.
    rewrite map_app. simpl.
    apply NoDup_app. split; [done|]. split; [|apply NoDup_singleton].
    by intros x Hx ->%list_elem_of_singleton.
Qed.

Lemma NoDup_outputNames_new (schema : Schema) :
  NoDup (outputNames (newSchemaMapper schema)).
Proof. constructor. Qed.

(** The trace of a call without a filter suffix. *)
Lemma createSchemaMapper_unsuffixed_trace (cat : Catalog)
    (cat2 : option Catalog) (w1 w2 w3 w4 : bool) (scm : SchemaMapper) :
  createSchemaMapper cat cat2 None w1 w2 w3 w4 = Ok scm →
  ∃ items items2 : list Field,
    Forall2 (fun f item => find (getSchema cat) f = Ok item)
            (mappedNames cat) items ∧
    Forall2 (fun f item => find (schemaOf cat2) f = Ok item)
            (reservedOf cat2) items2 ∧
    getMappings scm = map (fun item => (item, item)) items ∧
    getOutputSchema scm
    = (items ++ items2
       ++ syntheticFields (fanSuffixes (getCatSuffixes cat)) w1 w2 w3 w4)%list ∧
    NoDup (outputNames scm).
Proof.
  rewrite createSchemaMapper_unsuffixed.
  intros (scm1 & H1 & (scm2 & H2 & H3)%bind_Ok)%bind_Ok.
  apply mapStraight_loop in H1 as (items & Hitems & Hm1 & Ho1 & Hnd1).
  apply reserveOne_loop in H2 as (items2 & Hitems2 & Hm2 & Ho2 & Hnd2).
  apply addOutputField_loop in H3 as (Hm3 & Ho3 & Hnd3).
  exists items, items2. simpl in Hm1, Ho1.
  split; [done|]. split; [done|]. split; [congruence|].
  split; [by rewrite Ho3, Ho2, Ho1, app_assoc|].
  apply Hnd3, Hnd2, Hnd1, NoDup_outputNames_new.
Qed.

(** X4: without a filter suffix, a call that returns has mapped every
    column of [mappedNames] to itself, reserved every column of
    [reservedNames] with the field of the second catalog, and added the
    synthetic columns asked for, in this order; the targets of the copy
    directives are the mapped names, and all output column names are
    distinct. *)
Theorem createSchemaMapper_unsuffixed_Ok (cat : Catalog)
    (cat2 : option Catalog) (w1 w2 w3 w4 : bool) (scm : SchemaMapper) :
  createSchemaMapper cat cat2 None w1 w2 w3 w4 = Ok scm →
  ∃ items items2 : list Field,
    Forall2 (fun f item => find (getSchema cat) f = Ok item)
            (mappedNames cat) items ∧
    Forall2 (fun f item => find (schemaOf cat2) f = Ok item)
            (reservedOf cat2) items2 ∧
    getMappings scm = map (fun item => (item, item)) items ∧
    getOutputSchema scm
    = (items ++ items2
       ++ syntheticFields (fanSuffixes (getCatSuffixes cat)) w1 w2 w3 w4)%list ∧
    targetNames scm = mappedNames cat ∧
    outputNames scm
    = (mappedNames cat ++ reservedOf cat2
       ++ fieldNames (syntheticFields (fanSuffixes (getCatSuffixes cat))
                        w1 w2 w3 w4))%list ∧
    NoDup (outputNames scm).
Proof.
  intros (items & items2 & Hitems & Hitems2 & Hm & Ho & Hnd)
    %createSchemaMapper_unsuffixed_trace.
  exists items, items2.
  split; [done|]. split; [done|]. split; [done|]. split; [done|].
  split; [|split; [|done]].
  - unfold targetNames. rewrite Hm, map_map. simpl.
    apply (found_names _ _ _ Hitems).
  - unfold outputNames, fieldNames. rewrite Ho, !map_app.
    fold (fieldNames items). fold (fieldNames items2).
    by rewrite (found_names _ _ _ Hitems), (found_names _ _ _ Hitems2).
Qed.

(** The trace of a call with a true filter suffix and no second catalog. *)
Lemma createSchemaMapper_suffixed_trace (cat : Catalog) (fs : string)
    (w1 w2 w3 w4 : bool) (scm : SchemaMapper) :
  str_truth fs = true →
  createSchemaMapper cat None (Some fs) w1 w2 w3 w4 = Ok scm →
  let suffix := _getFilterSuffix fs in
  getCatSuffixes cat = [] ∧
  ∃ items1 items2 : list Field,
    Forall2 (fun f item => find (getSchema cat) f = Ok item)
            (fixedNames cat) items1 ∧
    Forall2 (fun f item => find (getSchema cat) f = Ok item)
            (suffixableNames cat) items2 ∧
    getMappings scm
    = (map (fun item => (item, item)) items1
       ++ map (fun item => (item, renamed suffix item)) items2)%list ∧
    getOutputSchema scm
    = (items1 ++ [copyRenamed _idField ("multId" +:+ suffix)]
       ++ map (renamed suffix) items2
       ++ syntheticFields (fanFilter suffix) w1 w2 w3 w4)%list ∧
    NoDup (outputNames scm).
Proof.
  intros Ht Hok suffix.
  assert (getCatSuffixes cat = []) as Hs.
  { destruct (getCatSuffixes cat) as [|s l] eqn:E; [done|].
    destruct (createSchemaMapper_guards cat None (Some fs) w1 w2 w3 w4)
      as [_ H].
    rewrite H in Hok; [done|done|by rewrite E|done]. }
  split; [done|].
  rewrite createSchemaMapper_suffixed in Hok by done.
  apply bind_Ok in Hok as (scm1 & H1 & Hok).
  apply bind_Ok in Hok as (scm2 & H2 & Hok).
  apply bind_Ok in Hok as (scm3 & H3 & H4).
  apply mapStraight_loop in H1 as (items1 & Hitems1 & Hm1 & Ho1 & Hnd1).
  pose proof (addOutputField_loop [_] _ _
                ltac:(simpl; rewrite H2; reflexivity)) as (Hm2 & Ho2 & Hnd2).
  apply mapRenamed_loop in H3 as (items2 & Hitems2 & Hm3 & Ho3 & Hnd3).
  apply addOutputField_loop in H4 as (Hm4 & Ho4 & Hnd4).
  exists items1, items2. simpl in Hm1, Ho1.
  split; [done|]. split; [done|].
  split; [by rewrite Hm4, Hm3, Hm2, Hm1|].
  split.
  - rewrite Ho4, Ho3, Ho2, Ho1. by rewrite <- !app_assoc.
  - apply Hnd4, Hnd3, Hnd2, Hnd1, NoDup_outputNames_new.
Qed.

(** X5: with a filter suffix that is true and no second catalog, a call
    that returns was made on a catalog without suffixes; it has mapped the
    fixed columns to themselves and every suffixable column to its copy
    renamed with the translated suffix, and its output schema is the fixed
    columns, the [multId] column with the suffix, the renamed columns and
    the synthetic columns with the suffix; the targets of the copy
    directives are the fixed names and the suffixed names, and all output
    column names are distinct. *)
Theorem createSchemaMapper_suffixed_Ok (cat : Catalog) (fs : string)
    (w1 w2 w3 w4 : bool) (scm : SchemaMapper) :
  str_truth fs = true →
  createSchemaMapper cat None (Some fs) w1 w2 w3 w4 = Ok scm →
  let suffix := _getFilterSuffix fs in
  getCatSuffixes cat = [] ∧
  ∃ items1 items2 : list Field,
    Forall2 (fun f item => find (getSchema cat) f = Ok item)
            (fixedNames cat) items1 ∧
    Forall2 (fun f item => find (getSchema cat) f = Ok item)
            (suffixableNames cat) items2 ∧
    getMappings scm
    = (map (fun item => (item, item)) items1
       ++ map (fun item => (item, renamed suffix item)) items2)%list ∧
    getOutputSchema scm
    = (items1 ++ [copyRenamed _idField ("multId" +:+ suffix)]
       ++ map (renamed suffix) items2
       ++ syntheticFields (fanFilter suffix) w1 w2 w3 w4)%list ∧
    targetNames scm
    = (fixedNames cat
       ++ map (fun f => f +:+ suffix) (suffixableNames cat))%list ∧
    outputNames scm
    = (fixedNames cat ++ ["multId" +:+ suffix]
       ++ map (fun f => f +:+ suffix) (suffixableNames cat)
       ++ fieldNames (syntheticFields (fanFilter suffix) w1 w2 w3 w4))%list ∧
    NoDup (outputNames scm).
Proof.
  intros Ht Hok suffix.
  destruct (createSchemaMapper_suffixed_trace _ _ _ _ _ _ _ Ht Hok)
    as (Hs & items1 & items2 & H1 & H2 & Hm & Ho & Hnd).
  fold suffix in Hm, Ho.
  split; [done|]. exists items1, items2.
  split; [done|]. split; [done|]. split; [done|]. split; [done|].
  assert (Hren : map getName (map (renamed suffix) items2)
                 = map (fun f => f +:+ suffix) (suffixableNames cat)).
  { rewrite <- (found_names _ _ _ H2). unfold fieldNames.
    by rewrite !map_map. }
  split; [|split; [|done]].
  - unfold targetNames. rewrite Hm, map_app, !map_map, <- Hren, map_map.
    f_equal. apply (found_names _ _ _ H1).
  - unfold outputNames, fieldNames. rewrite Ho, !map_app, Hren.
    fold (fieldNames items1). by rewrite (found_names _ _ _ H1).
Qed.

(** ** The suffixes of the catalogs that are built *)

Lemma search_app_band (g s : string) :
  s ∈ bandSuffixes → _suffixRegex_search (g +:+ s) = Some s.
Proof.
  intros Hs. apply suffixRegex_search_Some. split; [done|]. left. by exists g.
Qed.

Lemma NoDup_singleton_eq {A : Type} (l : list A) (a : A) :
  NoDup l → (∀ x, x ∈ l ↔ x = a) → l = [a].
Proof.
  intros Hnd H. destruct l as [|x l]; [exfalso; by apply (elem_of_nil a), H|].
  assert (x = a) as -> by (apply H; left).
  apply NoDup_cons in Hnd as [Hx _].
  destruct l as [|y l]; [done|].
  assert (y = a) as -> by (apply H; right; left).
  destruct Hx. left.
Qed.

Lemma elem_of_syntheticFields_filter (suffix : string) (w1 w2 w3 w4 : bool)
    (f : Field) :
  f ∈ syntheticFields (fanFilter suffix) w1 w2 w3 w4 →
  (∃ base, getName f = base +:+ suffix) ∨
  getName f ∈ ["stellar"; "mag.auto"].
Proof.
  unfold syntheticFields, fanFilter. rewrite !elem_of_app.
  intros [H|[H|[H|H]]].
  - destruct w1; [|by apply elem_of_nil in H]. simpl in H.
    repeat (apply elem_of_cons in H as [->|H]; [left; by eexists|]).
    by apply elem_of_nil in H.
  - destruct w3; [|by apply elem_of_nil in H]. simpl in H.
    repeat (apply elem_of_cons in H as [->|H]; [left; by eexists|]).
    by apply elem_of_nil in H.
  - destruct w4; [|by apply elem_of_nil in H]. simpl in H.
    repeat (apply elem_of_cons in H as [->|H]; [left; by eexists|]).
    by apply elem_of_nil in H.
  - destruct w2; [|by apply elem_of_nil in H].
    repeat (apply elem_of_cons in H as [->|H]; [right; simpl; set_solver|]).
    by apply elem_of_nil in H.
Qed.

(** X6: a catalog renamed for a band has that band's suffix and no other:
    when the translated filter suffix is one of the five band suffixes, the
    suffixes discovered in a catalog with the output schema are exactly
    that one. *)
Theorem createSchemaMapper_suffixed_suffixes (cat : Catalog) (fs : string)
    (w1 w2 w3 w4 : bool) (scm : SchemaMapper) (rows : list Record) :
  str_truth fs = true →
  _getFilterSuffix fs ∈ bandSuffixes →
  createSchemaMapper cat None (Some fs) w1 w2 w3 w4 = Ok scm →
  getCatSuffixes (mkCatalog (getOutputSchema scm) rows)
  = [_getFilterSuffix fs].
Proof.
  intros Ht Hband Hok.
  destruct (createSchemaMapper_suffixed_trace _ _ _ _ _ _ _ Ht Hok)
    as (_ & items1 & items2 & H1 & H2 & _ & Ho & _).
  set (suffix := _getFilterSuffix fs) in *.
  apply NoDup_singleton_eq; [apply getCatSuffixes_NoDup|].
  intros s. rewrite getCatSuffixes_elem. simpl. rewrite Ho. split.
  - intros (name & Hin & Hs). unfold fieldNames in Hin.
    apply list_elem_of_fmap in Hin as (f & -> & Hf).
    rewrite !elem_of_app in Hf. destruct Hf as [Hf|[Hf|[Hf|Hf]]].
    + exfalso.
      assert (getName f ∈ fieldNames items1) as Hn
        by by apply list_elem_of_fmap_2.
      rewrite (found_names _ _ _ H1) in Hn.
      unfold fixedNames in Hn. simpl in Hn.
      rewrite bare_names_unsuffixed in Hs; [done|].
      apply elem_of_app. left. exact Hn.
    + apply list_elem_of_singleton in Hf as ->. simpl in Hs.
      rewrite search_app_band in Hs by done. by injection Hs.
    + apply list_elem_of_fmap in Hf as (item & -> & _). simpl in Hs.
      rewrite search_app_band in Hs by done. by injection Hs.
    + apply elem_of_syntheticFields_filter in Hf as [[base E]|Hf].
      * rewrite E, search_app_band in Hs by done. by injection Hs.
      * exfalso.
        repeat (apply elem_of_cons in Hf as [E|Hf];
                [rewrite E in Hs; discriminate Hs|]).
        by apply elem_of_nil in Hf.
  - intros ->. exists ("multId" +:+ suffix).
    split; [|by apply search_app_band].
    unfold fieldNames. rewrite !map_app. simpl.
    rewrite !elem_of_app. right. left.
Qed.

Lemma suffixed_mapped (cat : Catalog) (s : string) :
  s ∈ getCatSuffixes cat → "parent" +:+ s ∈ mappedNames cat.
Proof.
  intros Hs. unfold mappedNames.
  rewrite !elem_of_app. right. right. left.
  destruct (getCatSuffixes cat) as [|s0 l] eqn:E;
    [by apply elem_of_nil in Hs|].
  simpl Nat.eqb. cbv iota. apply elem_of_flat_map.
  exists "parent". split; [left|]. by apply list_elem_of_fmap_2.
Qed.

Lemma suffixed_reserved (cat2 : Catalog) (s : string) :
  s ∈ getCatSuffixes cat2 → "parent" +:+ s ∈ reservedNames cat2.
Proof.
  intros Hs. apply elem_of_reservedNames. left.
  exists "parent", s. split; [left|done].
Qed.

Lemma createSchemaMapper_two_suffixes (cat1 cat2 : Catalog)
    (scm : SchemaMapper) (rows : list Record) (s : string) :
  createSchemaMapper cat1 (Some cat2) None false false false false = Ok scm →
  s ∈ getCatSuffixes (mkCatalog (getOutputSchema scm) rows) ↔
  s ∈ getCatSuffixes cat1 ∨ s ∈ getCatSuffixes cat2.
Proof.
  intros Hscm.
  destruct (createSchemaMapper_two_names _ _ _ Hscm) as (_ & Ho & _ & _).
  rewrite getCatSuffixes_elem. simpl. fold (outputNames scm). rewrite Ho.
  split.
  - intros (name & [Hin|Hin]%elem_of_app & Hs).
    + apply elem_of_mappedNames in Hin
        as [Hb|[(g & s1 & _ & Hs1 & ->)|(p & _ & [Hin _]%elem_of_extract)]].
      * by rewrite bare_names_unsuffixed in Hs.
      * rewrite search_app_band in Hs by by eapply getCatSuffixes_band.
        injection Hs as <-. by left.
      * left. apply getCatSuffixes_elem. by exists name.
    + apply elem_of_reservedNames in Hin
        as [(g & s2 & _ & Hs2 & ->)|(p & _ & [Hin _]%elem_of_extract)].
      * rewrite search_app_band in Hs by by eapply getCatSuffixes_band.
        injection Hs as <-. by right.
      * right. apply getCatSuffixes_elem. by exists name.
  - intros [Hs|Hs]; exists ("parent" +:+ s).
    + split; [|by eapply search_app_band, getCatSuffixes_band].
      apply elem_of_app. left. by apply suffixed_mapped.
    + split; [|by eapply search_app_band, getCatSuffixes_band].
      apply elem_of_app. right. by apply suffixed_reserved.
Qed.

Lemma createSchemaMapper_two_clash (cat1 cat2 : Catalog)
    (scm : SchemaMapper) :
  createSchemaMapper cat1 (Some cat2) None false false false false = Ok scm →
  (∀ s, s ∈ getCatSuffixes cat1 → s ∉ getCatSuffixes cat2) ∧
  (∀ p f, p ∈ _suffixablePatterns → f ∈ extract (getSchema cat1) p →
          f ∉ extract (getSchema cat2) p).
Proof.
  intros Hscm.
  destruct (createSchemaMapper_two_names _ _ _ Hscm) as (_ & _ & Hnd & _).
  apply NoDup_app in Hnd as (_ & Hdisj & _). split.
  - intros s Hs1 Hs2. apply (Hdisj ("parent" +:+ s)).
    + by apply suffixed_mapped.
    + by apply suffixed_reserved.
  - intros p f Hp Hf1 Hf2. apply (Hdisj f).
    + unfold mappedNames. rewrite !elem_of_app. right. right. right.
      apply elem_of_flat_map. by exists p.
    + apply elem_of_reservedNames. right. by exists p.
Qed.

(** X7: the merged catalog of [strictMatch] carries the suffixes of both
    catalogs and no other. *)
Theorem strictMatch_suffixes {Angle : Type} (angle_lt : Angle → Angle → bool)
    (matchRaDec : Catalog → Catalog → Angle → bool → list (Match Angle))
    (cat1 cat2 : Catalog) (radius : Angle) (includeMismatches : bool)
    (out : Catalog) :
  (strictMatch angle_lt matchRaDec cat1 cat2 radius includeMismatches).2
  = Ok (RetCatalog out) →
  ∀ s, s ∈ getCatSuffixes out ↔
       s ∈ getCatSuffixes cat1 ∨ s ∈ getCatSuffixes cat2.
Proof.
  intros (scm & k2 & k & Hscm & _ & [= ->])%strictMatch_Ok s.
  by apply createSchemaMapper_two_suffixes.
Qed.

(** X8: [strictMatch] raises when the two catalogs share a discovered
    suffix, or a column that one of the suffixable patterns matches: the
    column would be in the merged schema twice. *)
Theorem strictMatch_clash {Angle : Type} (angle_lt : Angle → Angle → bool)
    (matchRaDec : Catalog → Catalog → Angle → bool → list (Match Angle))
    (cat1 cat2 : Catalog) (radius : Angle) (includeMismatches : bool) :
  (∃ s, s ∈ getCatSuffixes cat1 ∧ s ∈ getCatSuffixes cat2) ∨
  (∃ p f, p ∈ _suffixablePatterns ∧
          f ∈ extract (getSchema cat1) p ∧ f ∈ extract (getSchema cat2) p) →
  ∃ e : exn,
    (strictMatch angle_lt matchRaDec cat1 cat2 radius includeMismatches).2
    = Raise e.
Proof.
  intros Hclash.
  destruct (strictMatch angle_lt matchRaDec cat1 cat2 radius
              includeMismatches).2 as [v|e] eqn:E; [exfalso|by exists e].
  apply strictMatch_Ok in E as (scm & _ & _ & Hscm & _).
  destruct (createSchemaMapper_two_clash _ _ _ Hscm) as [H1 H2].
  destruct Hclash as [(s & Hs1 & Hs2)|(p & f & Hp & Hf1 & Hf2)].
  - by apply (H1 s).
  - by apply (H2 p f).
Qed.

(** ** When a mapper is returned *)

Lemma find_Raise (schema : Schema) (name : string) :
  name ∉ fieldNames schema → find schema name = Raise (NotFoundError name).
Proof.
  unfold fieldNames. induction schema as [|f schema IH]; simpl; [done|].
  intros H. apply not_elem_of_cons in H as [Hne H].
  destruct (String.eqb_spec (getName f) name) as [E|_]; [congruence|auto].
Qed.

(** A loop whose body adds one output column per element runs through when
    the columns are new and distinct. *)
Lemma foldM_adds {A : Type} (body : SchemaMapper → A → result SchemaMapper)
    (name : A → string) (l : list A) (scm : SchemaMapper) :
  (∀ scm x, x ∈ l → name x ∉ outputNames scm →
     ∃ scm', body scm x = Ok scm' ∧
             outputNames scm' = (outputNames scm ++ [name x])%list) →
  NoDup (outputNames scm ++ map name l) →
  ∃ scm', foldM body scm l = Ok scm' ∧
          outputNames scm' = (outputNames scm ++ map name l)%list.
Proof.
  revert scm. induction l as [|x l IH]; intros scm Hbody Hnd; simpl.
  - exists scm. by rewrite app_nil_r.
  - destruct (Hbody scm x) as (scm1 & H1 & Ho1); [left|..].
    { apply NoDup_app in Hnd as (_ & Hd & _). intros Hin.
      apply (Hd _ Hin). simpl. left. }
    rewrite H1. simpl.
    destruct (IH scm1) as (scm' & H' & Ho').
    + intros s y Hy. apply Hbody. by right.
    + rewrite Ho1, <- app_assoc. exact Hnd.
    + exists scm'. split; [done|]. by rewrite Ho', Ho1, <- app_assoc.
Qed.

Lemma addOutputField_new (scm : SchemaMapper) (field : Field) :
  getName field ∉ outputNames scm →
  ∃ scm', addOutputField scm field = Ok scm' ∧
          outputNames scm' = (outputNames scm ++ [getName field])%list.
Proof.
  intros Hn. unfold addOutputField, addField.
  rewrite bool_decide_eq_false_2 by exact Hn. simpl.
  eexists. split; [reflexivity|].
  unfold outputNames, fieldNames. simpl. by rewrite map_app.
Qed.

Lemma mapStraight_new (schema : Schema) (scm : SchemaMapper) (f : string) :
  f ∈ fieldNames schema → f ∉ outputNames scm →
  ∃ scm', mapStraight schema scm f = Ok scm' ∧
          outputNames scm' = (outputNames scm ++ [f])%list.
Proof.
  intros [item Hitem]%find_elem_of Hn. unfold mapStraight. rewrite Hitem.
  apply find_Ok in Hitem as [_ <-]. simpl.
  unfold addMapping, addField. simpl.
  rewrite bool_decide_eq_false_2 by exact Hn. simpl.
  eexists. split; [reflexivity|].
  unfold outputNames, fieldNames. simpl. by rewrite map_app.
Qed.

Lemma reserveOne_new (schema2 : Schema) (scm : SchemaMapper) (f : string) :
  f ∈ fieldNames schema2 → f ∉ outputNames scm →
  ∃ scm', reserveOne schema2 scm f = Ok scm' ∧
          outputNames scm' = (outputNames scm ++ [f])%list.
Proof.
  intros [item Hitem]%find_elem_of Hn. unfold reserveOne. rewrite Hitem.
  apply find_Ok in Hitem as [_ <-]. simpl.
  by apply addOutputField_new.
Qed.

(** Without a filter suffix [createSchemaMapper] returns a mapper exactly
    when the catalogs have the columns it maps and reserves, and the names
    of all output columns are distinct. *)
Lemma createSchemaMapper_unsuffixed_returns (cat : Catalog)
    (cat2 : option Catalog) (w1 w2 w3 w4 : bool) :
  (∃ scm, createSchemaMapper cat cat2 None w1 w2 w3 w4 = Ok scm) ↔
  (∀ f, f ∈ mappedNames cat → f ∈ fieldNames (getSchema cat)) ∧
  (∀ f, f ∈ reservedOf cat2 → f ∈ fieldNames (schemaOf cat2)) ∧
  NoDup (mappedNames cat ++ reservedOf cat2
         ++ fieldNames (syntheticFields (fanSuffixes (getCatSuffixes cat))
                          w1 w2 w3 w4)).
Proof.
  split.
  - intros [scm Hok]. rewrite createSchemaMapper_unsuffixed in Hok.
    apply bind_Ok in Hok as (scm1 & H1 & (scm2 & H2 & H3)%bind_Ok).
    apply mapStraight_loop in H1 as (items & Hitems & Hm1 & Ho1 & Hnd1).
    apply reserveOne_loop in H2 as (items2 & Hitems2 & Hm2 & Ho2 & Hnd2).
    apply addOutputField_loop in H3 as (Hm3 & Ho3 & Hnd3).
    simpl in Ho1. split; [|split].
    + intros f Hf. apply list_elem_of_lookup in Hf as [i Hi].
      destruct (Forall2_lookup_l _ _ _ _ _ Hitems Hi) as (item & _ & Hfind).
      by eapply find_Ok_elem_of.
    + intros f Hf. apply list_elem_of_lookup in Hf as [i Hi].
      destruct (Forall2_lookup_l _ _ _ _ _ Hitems2 Hi) as (item & _ & Hfind).
      by eapply find_Ok_elem_of.
    + rewrite <- (found_names _ _ _ Hitems), <- (found_names _ _ _ Hitems2).
      unfold fieldNames. rewrite <- !map_app.
      rewrite app_assoc, <- Ho1, <- Ho2, <- Ho3.
      apply Hnd3, Hnd2, Hnd1, NoDup_outputNames_new.
  - intros (Hc & Hc2 & Hnd). rewrite createSchemaMapper_unsuffixed.
    destruct (foldM_adds (mapStraight (getSchema cat)) id (mappedNames cat)
                (newSchemaMapper (getSchema cat))) as (scm1 & H1 & Ho1).
    { intros scm f Hf. apply mapStraight_new. by apply Hc. }
    { simpl. rewrite map_id. by apply NoDup_app in Hnd as (? & _). }
    rewrite H1. simpl. rewrite map_id in Ho1. simpl in Ho1.
    destruct (foldM_adds (reserveOne (schemaOf cat2)) id (reservedOf cat2)
                scm1) as (scm2 & H2 & Ho2).
    { intros scm f Hf. apply reserveOne_new. by apply Hc2. }
    { rewrite map_id, Ho1. rewrite app_assoc in Hnd.
      by apply NoDup_app in Hnd as (? & _). }
    rewrite H2. simpl. rewrite map_id in Ho2.
    destruct (foldM_adds addOutputField getName
                (syntheticFields (fanSuffixes (getCatSuffixes cat))
                   w1 w2 w3 w4) scm2) as (scm3 & H3 & Ho3).
    { intros scm f _. apply addOutputField_new. }
    { rewrite Ho2, Ho1, <- app_assoc. exact Hnd. }
    by exists scm3.
Qed.

Lemma resolveKeys_returns (schema2 schema : Schema) (fields : list string) :
  (∀ f, f ∈ fields → f ∈ fieldNames schema2 ∧ f ∈ fieldNames schema) →
  ∃ keys, resolveKeys schema2 schema fields = Ok keys.
Proof.
  unfold resolveKeys. generalize (@nil Key, @nil Key).
  induction fields as [|f fields IH]; intros acc H; simpl; [by eexists|].
  destruct (H f) as [[item2 H2]%find_elem_of [item H1]%find_elem_of]; [left|].
  rewrite H2. simpl. rewrite H1. simpl.
  apply IH. intros g Hg. apply H. by right.
Qed.

(** ** strictMatch: when it returns, and what it keeps of the first
    catalog *)

(** X9: [strictMatch] returns a catalog exactly when the first catalog has
    every column mapped for it, the second has every column reserved for
    it, the names of these columns are distinct, and every suffixed column
    of the second catalog is one of them. *)
Theorem strictMatch_returns_iff {Angle : Type}
    (angle_lt : Angle → Angle → bool)
    (matchRaDec : Catalog → Catalog → Angle → bool → list (Match Angle))
    (cat1 cat2 : Catalog) (radius : Angle) (includeMismatches : bool) :
  (∃ out : Catalog,
     (strictMatch angle_lt matchRaDec cat1 cat2 radius includeMismatches).2
     = Ok (RetCatalog out)) ↔
  (∀ f, f ∈ mappedNames cat1 → f ∈ fieldNames (getSchema cat1)) ∧
  (∀ f, f ∈ reservedNames cat2 → f ∈ fieldNames (getSchema cat2)) ∧
  NoDup (mappedNames cat1 ++ reservedNames cat2) ∧
  (∀ f, f ∈ cat2Fields cat2 →
        f ∈ (mappedNames cat1 ++ reservedNames cat2)%list).
Proof.
  pose proof (createSchemaMapper_unsuffixed_returns cat1 (Some cat2)
                false false false false) as Hiff.
  change (reservedOf (Some cat2)) with (reservedNames cat2) in Hiff.
  change (schemaOf (Some cat2)) with (getSchema cat2) in Hiff.
  change (fieldNames (syntheticFields _ false false false false))
    with (@nil string) in Hiff.
  rewrite app_nil_r in Hiff.
  split.
  - intros [out H].
    apply strictMatch_Ok in H as (scm & k2 & k & Hscm & Hk & _).
    destruct (proj1 Hiff (ex_intro _ scm Hscm)) as (H1 & H2 & H3).
    split; [done|]. split; [done|]. split; [done|].
    intros f Hf.
    destruct (createSchemaMapper_two_names _ _ _ Hscm) as (_ & <- & _).
    apply resolveKeys_Ok in Hk as [_ Hk].
    apply list_elem_of_lookup in Hf as [i Hi].
    destruct (Forall2_lookup_l _ _ _ _ _ Hk Hi) as (item & _ & Hfind).
    by eapply find_Ok_elem_of.
  - intros (H1 & H2 & H3 & H4).
    destruct (proj2 Hiff) as [scm Hscm]; [done|].
    destruct (createSchemaMapper_two_names _ _ _ Hscm) as (_ & Ho & _).
    destruct (resolveKeys_returns (getSchema cat2) (getOutputSchema scm)
                (cat2Fields cat2)) as [[k2 k] Hk].
    { intros f Hf. split.
      - by apply elem_of_cat2Fields in Hf as [? _].
      - fold (outputNames scm). rewrite Ho. by apply H4. }
    eexists. by eapply strictMatch_Ok_intro.
Qed.

(** X10: every row of the catalog that [strictMatch] returns has the [id]
    and [coord] of the first-catalog record of its match; its identifier is
    the one of that record. *)
Theorem strictMatch_fixed_columns {Angle : Type}
    (angle_lt : Angle → Angle → bool)
    (matchRaDec : Catalog → Catalog → Angle → bool → list (Match Angle))
    (cat1 cat2 : Catalog) (radius : Angle) (includeMismatches : bool)
    (out : Catalog) :
  (strictMatch angle_lt matchRaDec cat1 cat2 radius includeMismatches).2
  = Ok (RetCatalog out) →
  Forall2 (fun (best : Record * Record * Angle) (row : Record) =>
             (∀ f, f ∈ _fixedFields → row !! f = best.1.1 !! f) ∧
             getId row = getId best.1.1)
          (kept (reduceMatches angle_lt
                   (matchRaDec cat1 cat2 radius includeMismatches)).1)
          (records out).
Proof.
  intros (scm & k2 & k & Hscm & Hk & [= ->])%strictMatch_Ok. simpl.
  apply Forall2_fmap_r, Forall_Forall2_diag, Forall_forall. intros best _.
  destruct (mergedRecord_merged_from cat1 cat2 scm k2 k best Hscm Hk)
    as (Hmap & _ & _).
  destruct (createSchemaMapper_two_Ok _ _ _ Hscm)
    as (items & _ & Hitems & _ & Hm & _).
  assert (Hfixed : ∀ f, f ∈ _fixedFields →
            mergedRecord scm k2 k best !! f = best.1.1 !! f).
  { intros f Hf.
    assert (f ∈ mappedNames cat1) as Hin
      by (unfold mappedNames; apply elem_of_app; by left).
    apply list_elem_of_lookup in Hin as [i Hi].
    destruct (Forall2_lookup_l _ _ _ _ _ Hitems Hi) as (item & Hit & Hfind).
    apply find_Ok in Hfind as [_ <-].
    apply (Hmap (item, item)). rewrite Hm.
    apply (list_elem_of_fmap_2 (fun item => (item, item))).
    by eapply list_elem_of_lookup_2. }
  split; [exact Hfixed|].
  unfold getId. rewrite Hfixed; [done|left].
Qed.

(** ** goodSources on a catalog that lacks a column *)

Lemma cat_get_Raise (cat : Catalog) (name : string) :
  name ∉ fieldNames (getSchema cat) →
  cat_get name cat = (cat, Raise (NotFoundError name)).
Proof. intros H. unfold cat_get. by rewrite find_Raise. Qed.

(** X11: [goodSources] reads the edge, bad and saturated-centre flags and
    then [deblend.nchild]; on a catalog that lacks one of them it raises
    the lookup error of the first one that is missing, and leaves the
    catalog as it was. *)
Theorem goodSources_missing_column (cat : Catalog) (pre post : list string)
    (name : string) :
  (badFlags ++ ["deblend.nchild"])%list = (pre ++ name :: post)%list →
  (∀ n, n ∈ pre → n ∈ fieldNames (getSchema cat)) →
  name ∉ fieldNames (getSchema cat) →
  goodSources cat = (cat, Raise (NotFoundError name)).
Proof.
  intros Hsplit Hpre Hname.
  assert (Hget : ∀ n, n ∈ pre →
            cat_get n cat
            = (cat, Ok (map (fun r : Record => r !! n) (records cat))))
    by (intros n Hn; by apply cat_get_Ok, Hpre).
  pose proof (cat_get_Raise cat name Hname) as Hraise.
  unfold goodSources, reduce, mbind, CatM_bind, mret, CatM_ret.
  unfold badFlags in Hsplit.
  destruct pre as [|n1 [|n2 [|n3 [|n4 pre]]]]; simpl in Hsplit.
  - injection Hsplit as <- _. by rewrite Hraise.
  - injection Hsplit as <- <- _.
    rewrite (Hget "flags.pixel.edge") by set_solver. by rewrite Hraise.
  - injection Hsplit as <- <- <- _.
    rewrite (Hget "flags.pixel.edge") by set_solver.
    rewrite (Hget "flags.pixel.bad") by set_solver. by rewrite Hraise.
  - injection Hsplit as <- <- <- <- _.
    rewrite (Hget "flags.pixel.edge") by set_solver.
    rewrite (Hget "flags.pixel.bad") by set_solver.
    rewrite (Hget "flags.pixel.saturated.center") by set_solver.
    by rewrite Hraise.
  - exfalso. injection Hsplit as _ _ _ _ Hsplit.
    by destruct pre.
Qed.

Lemma goodSources_missing_column_witness :
  goodSources (emptyCatalog ["flags.pixel.edge"; "deblend.nchild"])
  = (emptyCatalog ["flags.pixel.edge"; "deblend.nchild"],
     Raise (NotFoundError "flags.pixel.bad")).
Proof.
  apply (goodSources_missing_column _ ["flags.pixel.edge"]
           ["flags.pixel.saturated.center"; "deblend.nchild"]).
  - reflexivity.
  - intros n ->%list_elem_of_singleton. simpl. left.
  - simpl. intros H.
    repeat (apply elem_of_cons in H as [H|H]; [discriminate H|]).
    by apply elem_of_nil in H.
Defined.

(** ** buildXY *)

Lemma xyStep_reduceStep {Angle : Type} (angle_lt : Angle → Angle → bool)
    (classKey magAutoKey : Key) (matched : list (Match Angle)) :
  fold_left (xyStep angle_lt classKey magAutoKey) matched (∅, [])
  = (truthOf classKey magAutoKey <$> (reduceMatches angle_lt matched).1,
     map getId (reduceMatches angle_lt matched).2).
Proof.
  induction matched as [|m matched IH] using rev_ind; simpl.
  - by rewrite fmap_empty.
  - rewrite fold_left_app, IH, reduceMatches_snoc. simpl.
    destruct (reduceMatches angle_lt matched) as [bm nm].
    destruct m as [[m1 [m2|]] d]; simpl.
    + rewrite lookup_fmap.
      destruct (bm !! getId m2) as [old|] eqn:E; simpl.
      * destruct (angle_lt d old.2); simpl; [|done].
        by rewrite fmap_insert.
      * by rewrite fmap_insert.
    + by rewrite map_app.
Qed.

Lemma truth_entries {Angle : Type} (classKey magAutoKey : Key)
    (bestMatches : gmap Z (Record * Record * Angle)) :
  (map_to_list (truthOf classKey magAutoKey <$> bestMatches)).*2
  = map (truthOf classKey magAutoKey) (kept bestMatches).
Proof.
  unfold kept. rewrite map_to_list_fmap, <- !list_fmap_compose.
  apply list_fmap_ext. by intros i [id best] _.
Qed.

(** [buildXY], statement by statement. *)
Lemma buildXY_unfold {Angle : Type} (angle_lt : Angle → Angle → bool)
    (matchRaDec : Catalog → Catalog → Angle → bool → list (Match Angle))
    (hscCat sgTable : Catalog) (radius : Angle) (includeMismatches : bool) :
  buildXY angle_lt matchRaDec hscCat sgTable radius includeMismatches
  = let matched := matchRaDec hscCat sgTable radius includeMismatches in
    match find (getSchema sgTable) "mu.class" with
    | Raise e => (xyHead matched, Raise e)
    | Ok classItem =>
    match find (getSchema sgTable) "mag.auto" with
    | Raise e => (xyHead matched, Raise e)
    | Ok magAutoItem =>
        let st := reduceMatches angle_lt matched in
        let out :=
          (xyHead matched
           ++ (if includeMismatches
               then xyReport hscCat matched (len st.2)
                      (Z.of_nat (size st.1))
               else [])
           ++ xyPicked (Z.of_nat (size st.1)))%list in
        (out,
         scm ← createSchemaMapper hscCat None None false true false false;
         stellarItem ← find (getOutputSchema scm) "stellar";
         magAutoItem' ← find (getOutputSchema scm) "mag.auto";
         let cat :=
           mkCatalog (getOutputSchema scm)
             (map (fun best =>
                     truthRecord scm stellarItem magAutoItem'
                       (truthOf classItem magAutoItem best))
                  (kept st.1)) in
         Ok (if includeMismatches
             then RetCatalogAndNoMatch cat (map getId st.2)
             else RetCatalog cat))
    end
    end.
Proof.
  unfold buildXY, print, quiet, mbind, IO_bind, mret, IO_ret. simpl.
  destruct (find (getSchema sgTable) "mu.class") as [ci|e]; [|done]. simpl.
  destruct (find (getSchema sgTable) "mag.auto") as [mi|e]; [|done]. simpl.
  rewrite xyStep_reduceStep. simpl.
  rewrite map_size_fmap, truth_entries.
  unfold len. rewrite length_map.
  destruct (createSchemaMapper hscCat None None false true false false)
    as [scm|e]; simpl.
  2: { by destruct includeMismatches. }
  destruct (find (getOutputSchema scm) "stellar") as [si|e]; simpl.
  2: { by destruct includeMismatches. }
  destruct (find (getOutputSchema scm) "mag.auto") as [mi'|e]; simpl.
  2: { by destruct includeMismatches. }
  rewrite <- list_fmap_compose.
  by destruct includeMismatches.
Qed.

(** The mapper that [buildXY] asks for. *)
Lemma buildXY_mapper (hscCat : Catalog) (scm : SchemaMapper) :
  createSchemaMapper hscCat None None false true false false = Ok scm →
  ∃ items : list Field,
    Forall2 (fun f item => find (getSchema hscCat) f = Ok item)
            (mappedNames hscCat) items ∧
    getMappings scm = map (fun item => (item, item)) items ∧
    targetNames scm = mappedNames hscCat ∧
    outputNames scm = (mappedNames hscCat ++ ["stellar"; "mag.auto"])%list ∧
    NoDup (mappedNames hscCat ++ ["stellar"; "mag.auto"]).
Proof.
  intros (items & items2 & Hitems & Hitems2 & Hm & Ho & Hnd)
    %createSchemaMapper_unsuffixed_trace.
  apply Forall2_nil_inv_l in Hitems2 as ->.
  change (syntheticFields _ false true false false)
    with [_stellarField; _magAutoField] in Ho.
  assert (outputNames scm
          = (mappedNames hscCat ++ ["stellar"; "mag.auto"])%list) as Hnames.
  { unfold outputNames, fieldNames. rewrite Ho, map_app.
    fold (fieldNames items). by rewrite (found_names _ _ _ Hitems). }
  exists items. split; [done|]. split; [done|]. split.
  - unfold targetNames. rewrite Hm, map_map. simpl.
    apply (found_names _ _ _ Hitems).
  - split; [done|]. by rewrite <- Hnames.
Qed.

Lemma buildXY_returns_mapper {Angle : Type} (angle_lt : Angle → Angle → bool)
    (matchRaDec : Catalog → Catalog → Angle → bool → list (Match Angle))
    (hscCat sgTable : Catalog) (radius : Angle) (includeMismatches : bool) :
  (∃ v, (buildXY angle_lt matchRaDec hscCat sgTable radius
           includeMismatches).2 = Ok v) ↔
  "mu.class" ∈ fieldNames (getSchema sgTable) ∧
  "mag.auto" ∈ fieldNames (getSchema sgTable) ∧
  ∃ scm, createSchemaMapper hscCat None None false true false false = Ok scm.
Proof.
  rewrite buildXY_unfold. cbv zeta. split.
  - intros [v H].
    destruct (find (getSchema sgTable) "mu.class") as [ci|e] eqn:E1;
      [|discriminate H].
    destruct (find (getSchema sgTable) "mag.auto") as [mi|e] eqn:E2;
      [|discriminate H].
    simpl in H. apply bind_Ok in H as (scm & Hscm & _).
    split; [by eapply find_Ok_elem_of|].
    split; [by eapply find_Ok_elem_of|]. by exists scm.
  - intros ([ci E1]%find_elem_of & [mi E2]%find_elem_of & [scm Hscm]).
    rewrite E1, E2. simpl. rewrite Hscm. simpl.
    destruct (buildXY_mapper _ _ Hscm) as (_ & _ & _ & _ & Ho & _).
    destruct (find_elem_of (getOutputSchema scm) "stellar") as [si E3].
    { fold (outputNames scm). rewrite Ho. set_solver. }
    destruct (find_elem_of (getOutputSchema scm) "mag.auto") as [mi' E4].
    { fold (outputNames scm). rewrite Ho. set_solver. }
    rewrite E3. simpl. rewrite E4. simpl. by eexists.
Qed.

(** X12: [buildXY] returns exactly when the reference table has the
    columns [mu.class] and [mag.auto], the HSC catalog has every column
    mapped for it, and the names of these columns, [stellar] and
    [mag.auto] are distinct. *)
Theorem buildXY_returns_iff {Angle : Type} (angle_lt : Angle → Angle → bool)
    (matchRaDec : Catalog → Catalog → Angle → bool → list (Match Angle))
    (hscCat sgTable : Catalog) (radius : Angle) (includeMismatches : bool) :
  (∃ v, (buildXY angle_lt matchRaDec hscCat sgTable radius
           includeMismatches).2 = Ok v) ↔
  "mu.class" ∈ fieldNames (getSchema sgTable) ∧
  "mag.auto" ∈ fieldNames (getSchema sgTable) ∧
  (∀ f, f ∈ mappedNames hscCat → f ∈ fieldNames (getSchema hscCat)) ∧
  NoDup (mappedNames hscCat ++ ["stellar"; "mag.auto"]).
Proof.
  rewrite buildXY_returns_mapper.
  rewrite (createSchemaMapper_unsuffixed_returns hscCat None
             false true false false).
  change (reservedOf None) with (@nil string).
  change (fieldNames (syntheticFields _ false true false false))
    with ["stellar"; "mag.auto"].
  split.
  - intros (H1 & H2 & H3 & _ & H4). done.
  - intros (H1 & H2 & H3 & H4). split; [done|]. split; [done|].
    split; [done|]. split; [|done]. by intros f ?%elem_of_nil.
Qed.

Lemma truthRecord_truthRow {Angle : Type} (hscCat : Catalog)
    (scm : SchemaMapper) (classItem magAutoItem stellarItem magAutoItem' : Key)
    (best : Record * Record * Angle) :
  createSchemaMapper hscCat None None false true false false = Ok scm →
  getName classItem = "mu.class" → getName magAutoItem = "mag.auto" →
  getName stellarItem = "stellar" → getName magAutoItem' = "mag.auto" →
  truthRow hscCat best
    (truthRecord scm stellarItem magAutoItem'
       (truthOf classItem magAutoItem best)).
Proof.
  intros (items & Hitems & Hm & Ht & Ho & Hnd)%buildXY_mapper Hc Hma Hs Hma'.
  destruct best as [[m1 m2] d]. unfold truthRecord, truthOf, get. simpl.
  rewrite Hc, Hma.
  assert (Hnt : NoDup (targetNames scm))
    by (rewrite Ht; by apply NoDup_app in Hnd as (? & _)).
  assert (Hfresh : ∀ f, f ∈ mappedNames hscCat →
            f ≠ "stellar" ∧ f ≠ "mag.auto").
  { intros f Hf. apply NoDup_app in Hnd as (_ & Hd & _).
    split; intros ->; apply (Hd _ Hf); [left|right; left]. }
  split; [|split; [|split]].
  - rewrite lookup_set_ne by by rewrite Hma'.
    rewrite <- Hs at 1. apply lookup_set_eq.
  - rewrite <- Hma' at 1. apply lookup_set_eq.
  - intros f Hf. destruct (Hfresh f Hf) as [Hn1 Hn2].
    rewrite !lookup_set_ne by by (rewrite ?Hma', ?Hs).
    apply list_elem_of_lookup in Hf as [i Hi].
    destruct (Forall2_lookup_l _ _ _ _ _ Hitems Hi) as (item & Hit & Hfind).
    apply find_Ok in Hfind as [_ <-].
    apply (assign_lookup_target newRecord m1 scm (item, item)); [done|].
    rewrite Hm. apply (list_elem_of_fmap_2 (fun item => (item, item))).
    by eapply list_elem_of_lookup_2.
  - intros name Hsome.
    destruct (decide (name = "mag.auto")) as [->|Hn2]; [right; right; left|].
    destruct (decide (name = "stellar")) as [->|Hn1]; [right; left|].
    left. rewrite !lookup_set_ne in Hsome by by (rewrite ?Hma', ?Hs).
    destruct (decide (name ∈ targetNames scm)) as [Hin|Hnin].
    + by rewrite <- Ht.
    + rewrite assign_lookup_other in Hsome by done.
      destruct Hsome as [x Hx]. unfold newRecord, Record in Hx.
      by rewrite lookup_empty in Hx.
Qed.

(** X13: the catalog that [buildXY] returns has one row per match that the
    reduction of [strictMatch] keeps: it holds the mapped columns of the HSC
    record, the star flag ([mu.class] equal to 2) and the [mag.auto] of the
    reference record.  With [includeMismatches] the identifiers of the HSC
    records without a partner are returned with it. *)
Theorem buildXY_rows {Angle : Type} (angle_lt : Angle → Angle → bool)
    (matchRaDec : Catalog → Catalog → Angle → bool → list (Match Angle))
    (hscCat sgTable : Catalog) (radius : Angle) (includeMismatches : bool)
    (v : retval) :
  (buildXY angle_lt matchRaDec hscCat sgTable radius includeMismatches).2
  = Ok v →
  let matched := matchRaDec hscCat sgTable radius includeMismatches in
  let st := reduceMatches angle_lt matched in
  ∃ (scm : SchemaMapper) (cat : Catalog),
    createSchemaMapper hscCat None None false true false false = Ok scm ∧
    getSchema cat = getOutputSchema scm ∧
    v = (if includeMismatches
         then RetCatalogAndNoMatch cat
                (map (fun m : Match Angle => getId m.1.1) (unmatched matched))
         else RetCatalog cat) ∧
    Forall2 (truthRow hscCat) (kept st.1) (records cat).
Proof.
  rewrite buildXY_unfold. cbv zeta. intros H.
  destruct (find (getSchema sgTable) "mu.class") as [ci|e] eqn:E1;
    [|discriminate H].
  destruct (find (getSchema sgTable) "mag.auto") as [mi|e] eqn:E2;
    [|discriminate H].
  simpl in H.
  apply bind_Ok in H as (scm & Hscm & H).
  apply bind_Ok in H as (si & E3 & H).
  apply bind_Ok in H as (mi' & E4 & [= <-]).
  apply find_Ok in E1 as [_ E1]. apply find_Ok in E2 as [_ E2].
  apply find_Ok in E3 as [_ E3]. apply find_Ok in E4 as [_ E4].
  exists scm,
    (mkCatalog (getOutputSchema scm)
       (map (fun best => truthRecord scm si mi' (truthOf ci mi best))
            (kept (reduceMatches angle_lt
                     (matchRaDec hscCat sgTable radius
                        includeMismatches)).1))).
  split; [done|]. split; [reflexivity|]. split.
  - by rewrite reduceMatches_noMatch, map_map.
  - simpl. apply Forall2_fmap_r, Forall_Forall2_diag, Forall_forall.
    intros best _. by apply truthRecord_truthRow.
Qed.

(** X14: once the reference table has its two columns, [buildXY] prints
    the whole report, whether or not a catalog can be built afterwards: the
    two lines on the matching, with [includeMismatches] the number of HSC
    records without a partner and the number of candidates that were not
    the closest, and the number of matches picked. *)
Theorem buildXY_log {Angle : Type} (angle_lt : Angle → Angle → bool)
    (matchRaDec : Catalog → Catalog → Angle → bool → list (Match Angle))
    (hscCat sgTable : Catalog) (radius : Angle) (includeMismatches : bool) :
  "mu.class" ∈ fieldNames (getSchema sgTable) →
  "mag.auto" ∈ fieldNames (getSchema sgTable) →
  let matched := matchRaDec hscCat sgTable radius includeMismatches in
  let picked := len (kept (reduceMatches angle_lt matched).1) in
  (buildXY angle_lt matchRaDec hscCat sgTable radius includeMismatches).1
  = (xyHead matched
     ++ (if includeMismatches
         then xyReport hscCat matched (len (unmatched matched)) picked
         else [])
     ++ xyPicked picked)%list.
Proof.
  intros [ci E1]%find_elem_of [mi E2]%find_elem_of.
  rewrite buildXY_unfold. cbv zeta. rewrite E1, E2. simpl.
  rewrite reduceMatches_noMatch. unfold len.
  by rewrite length_map, length_kept.
Qed.

(** X15: [buildXY] looks up [mu.class] and then [mag.auto] in the
    reference table after the matching: when one of them is missing it
    raises the lookup error of the first that is, having printed the two
    lines on the matching and nothing else. *)
Theorem buildXY_missing_column {Angle : Type}
    (angle_lt : Angle → Angle → bool)
    (matchRaDec : Catalog → Catalog → Angle → bool → list (Match Angle))
    (hscCat sgTable : Catalog) (radius : Angle) (includeMismatches : bool)
    (name : string) :
  name = "mu.class" ∨
  (name = "mag.auto" ∧ "mu.class" ∈ fieldNames (getSchema sgTable)) →
  name ∉ fieldNames (getSchema sgTable) →
  buildXY angle_lt matchRaDec hscCat sgTable radius includeMismatches
  = (xyHead (matchRaDec hscCat sgTable radius includeMismatches),
     Raise (NotFoundError name)).
Proof.
  intros Hname Hmiss. rewrite buildXY_unfold. cbv zeta.
  destruct Hname as [->|[-> [ci E1]%find_elem_of]].
  - by rewrite find_Raise.
  - rewrite E1. by rewrite find_Raise.
Qed.

(** ** matchMultiBand *)

Section MatchMultiBandProperties.

Context {Angle : Type}.
Variable angle_lt : Angle → Angle → bool.
Variable matchRaDec : Catalog → Catalog → Angle → bool → list (Match Angle).
Variable oneArcsecond : Angle.

(** One pass of the loop, by what [strictMatch] does. *)
Lemma matchLoop_cons (cats : list Catalog) (i : nat) (indices : list nat)
    (matched cat : Catalog) :
  cats !! i = Some cat →
  (∃ e, (strictMatch angle_lt matchRaDec matched cat oneArcsecond true).2
        = Raise e ∧
        (matchLoop angle_lt matchRaDec oneArcsecond cats (i :: indices)
           matched).2 = Raised (Library e)) ∨
  (∃ matched',
     (strictMatch angle_lt matchRaDec matched cat oneArcsecond true).2
     = Ok (RetCatalog matched') ∧
     (matchLoop angle_lt matchRaDec oneArcsecond cats (i :: indices)
        matched).2
     = (matchLoop angle_lt matchRaDec oneArcsecond cats indices matched').2).
Proof.
  intros Hi. simpl. rewrite Hi.
  pose proof (strictMatch_returns_catalog angle_lt matchRaDec matched cat
                oneArcsecond true) as Hret.
  destruct (strictMatch angle_lt matchRaDec matched cat oneArcsecond true)
    as [out [[matched'|c nm]|e]]; simpl in *.
  - right. by exists matched'.
  - done.
  - left. by exists e.
Qed.

Lemma matchLoop_errors (cats : list Catalog) (m k : nat) (matched : Catalog) :
  (k + m ≤ length cats)%nat →
  (matchLoop angle_lt matchRaDec oneArcsecond cats (seq k m) matched).2
  ≠ Raised IndexError ∧
  (matchLoop angle_lt matchRaDec oneArcsecond cats (seq k m) matched).2
  ≠ Raised TypeError.
Proof.
  revert k matched. induction m as [|m IH]; intros k matched Hk.
  - simpl. split; discriminate.
  - destruct (lookup_lt_is_Some_2 cats k) as [cat Hcat]; [lia|].
    change (seq k (S m)) with (k :: seq (S k) m).
    destruct (matchLoop_cons cats k (seq (S k) m) matched cat Hcat)
      as [(e & _ & ->)|(matched' & _ & ->)].
    + split; discriminate.
    + apply IH. lia.
Qed.

(** X16: [matchMultiBand] raises an [IndexError] exactly for the empty
    list of filters, and never passes [strictMatch] anything but a catalog;
    for one filter it returns the catalog fetched for it and prints
    nothing. *)
Theorem matchMultiBand_errors (fetchDataset : string → Catalog)
    (filters : list string) :
  ((matchMultiBand angle_lt matchRaDec oneArcsecond fetchDataset filters).2
   = Raised IndexError ↔ filters = []) ∧
  (matchMultiBand angle_lt matchRaDec oneArcsecond fetchDataset filters).2
  ≠ Raised TypeError ∧
  ∀ f, matchMultiBand angle_lt matchRaDec oneArcsecond fetchDataset [f]
       = ([], Returned (fetchDataset f)).
Proof.
  split; [|split; [|done]].
  - destruct filters as [|f filters]; [done|].
    split; [|done]. intros H. exfalso. revert H.
    unfold matchMultiBand. cbn [map lookup list_lookup].
    apply matchLoop_errors. simpl. rewrite length_map. lia.
  - destruct filters as [|f filters]; [done|].
    unfold matchMultiBand. cbn [map lookup list_lookup].
    apply matchLoop_errors. simpl. rewrite length_map. lia.
Qed.

Lemma matchLoop_suffixes (cats : list Catalog) (m k : nat)
    (matched out : Catalog) :
  (k + m ≤ length cats)%nat →
  (matchLoop angle_lt matchRaDec oneArcsecond cats (seq k m) matched).2
  = Returned out →
  ∀ s, s ∈ getCatSuffixes out ↔
       s ∈ getCatSuffixes matched ∨
       ∃ i cat, (k ≤ i < k + m)%nat ∧ cats !! i = Some cat ∧
                s ∈ getCatSuffixes cat.
Proof.
  revert k matched. induction m as [|m IH]; intros k matched Hk.
  - simpl. intros [= ->] s. split; [by left|].
    intros [?|(i & cat & ? & _)]; [done|lia].
  - destruct (lookup_lt_is_Some_2 cats k) as [cat Hcat]; [lia|].
    change (seq k (S m)) with (k :: seq (S k) m).
    destruct (matchLoop_cons cats k (seq (S k) m) matched cat Hcat)
      as [(e & _ & ->)|(matched' & Hstep & ->)]; [discriminate|].
    intros Hout s. rewrite (IH (S k) matched' ltac:(lia) Hout s).
    apply strictMatch_Ok in Hstep as (scm & k2 & kk & Hscm & _ & [= ->]).
    rewrite (createSchemaMapper_two_suffixes _ _ _ _ _ Hscm).
    split.
    + intros [[?|?]|(i & c & ? & ? & ?)].
      * by left.
      * right. exists k, cat. split; [lia|done].
      * right. exists i, c. split; [lia|done].
    + intros [?|(i & c & Hi & Hc & ?)]; [left; by left|].
      destruct (decide (i = k)) as [->|Hne].
      * left. right. congruence.
      * right. exists i, c. split; [lia|done].
Qed.

(** X17: the catalog that [matchMultiBand] returns carries the suffixes of
    the catalogs fetched for the filters, and no other. *)
Theorem matchMultiBand_suffixes (fetchDataset : string → Catalog)
    (filters : list string) (out : Catalog) :
  (matchMultiBand angle_lt matchRaDec oneArcsecond fetchDataset filters).2
  = Returned out →
  ∀ s, s ∈ getCatSuffixes out ↔
       ∃ f, f ∈ filters ∧ s ∈ getCatSuffixes (fetchDataset f).
Proof.
  destruct filters as [|f filters]; [discriminate|].
  unfold matchMultiBand. cbn [map lookup list_lookup].
  replace (length (f :: filters) - 1)%nat with (length filters)
    by (simpl; lia).
  intros Hout s.
  assert (Hlen : (1 + length filters
                  ≤ length (fetchDataset f :: map fetchDataset filters))%nat)
    by (simpl; rewrite length_map; lia).
  rewrite (matchLoop_suffixes _ _ _ _ _ Hlen Hout s).
  split.
  - intros [?|(i & cat & Hi & Hcat & ?)].
    + exists f. split; [left|done].
    + destruct i as [|i]; [lia|]. simpl in Hcat.
      apply list_lookup_fmap_Some in Hcat as (g & -> & Hg).
      exists g. split; [|done]. right. by eapply list_elem_of_lookup_2.
  - intros (g & [->|Hg]%elem_of_cons & Hs); [by left|].
    right. apply list_elem_of_lookup in Hg as [i Hi].
    exists (S i), (fetchDataset g). split.
    + apply lookup_lt_Some in Hi. lia.
    + split; [|done]. simpl. by rewrite list_lookup_fmap, Hi.
Qed.

Lemma matchLoop_clash (cats : list Catalog) (m k : nat) (matched : Catalog)
    (s : string) (i : nat) (cat : Catalog) :
  (k + m ≤ length cats)%nat → (k ≤ i < k + m)%nat →
  cats !! i = Some cat → s ∈ getCatSuffixes cat →
  (s ∈ getCatSuffixes matched ∨
   ∃ j cat', (k ≤ j < i)%nat ∧ cats !! j = Some cat' ∧
             s ∈ getCatSuffixes cat') →
  ∃ e, (matchLoop angle_lt matchRaDec oneArcsecond cats (seq k m) matched).2
       = Raised (Library e).
Proof.
  revert k matched. induction m as [|m IH]; intros k matched Hk Hi Hcat Hs Hearlier;
    [lia|].
  destruct (lookup_lt_is_Some_2 cats k) as [catk Hcatk]; [lia|].
  change (seq k (S m)) with (k :: seq (S k) m).
  destruct (matchLoop_cons cats k (seq (S k) m) matched catk Hcatk)
    as [(e & _ & ->)|(matched' & Hstep & ->)]; [by exists e|].
  apply strictMatch_Ok in Hstep as (scm & k2 & kk & Hscm & _ & [= ->]).
  pose proof (createSchemaMapper_two_suffixes _ _ _
                (map (mergedRecord scm k2 kk)
                   (kept (reduceMatches angle_lt
                            (matchRaDec matched catk oneArcsecond true)).1))
                s Hscm) as Hsuf.
  destruct (createSchemaMapper_two_clash _ _ _ Hscm) as [Hdisj _].
  destruct (decide (i = k)) as [->|Hne].
  - exfalso. assert (cat = catk) as -> by congruence.
    destruct Hearlier as [Hm|(j & c & ? & _)]; [|lia].
    by apply (Hdisj s).
  - apply IH; [lia|lia|done|done|].
    destruct Hearlier as [Hm|(j & c & Hj & Hc & Hsc)].
    + left. apply Hsuf. by left.
    + destruct (decide (j = k)) as [->|Hjk].
      * left. apply Hsuf. right. congruence.
      * right. exists j, c. split; [lia|done].
Qed.

(** X18: when the catalogs fetched for two of the filters share a
    discovered suffix, [matchMultiBand] does not return: a [strictMatch]
    of the chain raises. *)
Theorem matchMultiBand_clash (fetchDataset : string → Catalog)
    (filters : list string) (i j : nat) (fi fj s : string) :
  (i < j)%nat → filters !! i = Some fi → filters !! j = Some fj →
  s ∈ getCatSuffixes (fetchDataset fi) →
  s ∈ getCatSuffixes (fetchDataset fj) →
  ∃ e, (matchMultiBand angle_lt matchRaDec oneArcsecond fetchDataset
          filters).2 = Raised (Library e).
Proof.
  intros Hij Hi Hj Hsi Hsj.
  destruct filters as [|f filters]; [done|].
  unfold matchMultiBand. cbn [map lookup list_lookup].
  replace (length (f :: filters) - 1)%nat with (length filters)
    by (simpl; lia).
  pose proof (lookup_lt_Some _ _ _ Hj) as Hlen. simpl in Hlen.
  apply (matchLoop_clash _ _ _ _ s j (fetchDataset fj)).
  - simpl. rewrite length_map. lia.
  - lia.
  - change (fetchDataset f :: map fetchDataset filters)
      with (fetchDataset <$> f :: filters).
    by rewrite list_lookup_fmap, Hj.
  - done.
  - destruct i as [|i].
    + left. simpl in Hi. congruence.
    + right. exists (S i), (fetchDataset fi). split; [lia|]. split; [|done].
      change (fetchDataset f :: map fetchDataset filters)
        with (fetchDataset <$> f :: filters).
      by rewrite list_lookup_fmap, Hi.
Qed.

End MatchMultiBandProperties.

(** ** _getFilterSuffix, applied again *)

(** X19: translating a filter name twice is translating it once, and the
    translation is never one of the five HSC filter names; it is a band
    suffix exactly for the five filter names and the five suffixes. *)
Theorem getFilterSuffix_idempotent (s : string) :
  _getFilterSuffix (_getFilterSuffix s) = _getFilterSuffix s ∧
  (_getFilterSuffix s ∉ hscFilters) ∧
  (_getFilterSuffix s ∈ bandSuffixes ↔ s ∈ hscFilters ∨ s ∈ bandSuffixes).
Proof.
  assert (Hcases : (s ∈ hscFilters ∧ _getFilterSuffix s ∈ bandSuffixes) ∨
                   ((s ∉ hscFilters) ∧ _getFilterSuffix s = s)).
  { unfold _getFilterSuffix, hscFilters, bandSuffixes.
    repeat match goal with
           | |- context [String.eqb s ?t] =>
               destruct (String.eqb_spec s t) as [->|?];
               [left; split; simpl; repeat constructor|]
           end.
    right. split; [|done]. intros H.
    repeat (apply elem_of_cons in H as [H|H]; [done|]).
    by apply elem_of_nil in H. }
  assert (Hband : ∀ t, t ∈ bandSuffixes →
            (t ∉ hscFilters) ∧ _getFilterSuffix t = t).
  { intros t Ht. unfold bandSuffixes in Ht.
    repeat (apply elem_of_cons in Ht as [->|Ht];
            [split; [|reflexivity]; unfold hscFilters; intros H;
             repeat (apply elem_of_cons in H as [H|H]; [discriminate H|]);
             by apply elem_of_nil in H|]).
    by apply elem_of_nil in Ht. }
  destruct Hcases as [[Hs Hb]|[Hs E]].
  - destruct (Hband _ Hb) as [Hn Hi]. split; [done|]. split; [done|].
    split; [by left|done].
  - rewrite E. split; [done|]. split; [done|]. split; [by right|].
    by intros [?|?].
Qed.

(** ** The further properties on the example catalogs *)

Lemma bandMapper_Ok :
  createSchemaMapper rawCatalog None (Some "HSC-G") true true true true
  = Ok bandMapper.
Proof. vm_compute. reflexivity. Qed.

Lemma createSchemaMapper_unsuffixed_Ok_witness :
  createSchemaMapper catalogG (Some catalogR) None false false false false
  = Ok exampleMapper ∧
  NoDup (outputNames exampleMapper).
Proof.
  split; [exact exampleMapper_Ok|].
  destruct (createSchemaMapper_unsuffixed_Ok catalogG (Some catalogR)
              false false false false exampleMapper exampleMapper_Ok)
    as (items & items2 & _ & _ & _ & _ & _ & _ & H).
  exact H.
Defined.

Lemma createSchemaMapper_suffixed_Ok_witness :
  str_truth "HSC-G" = true ∧
  createSchemaMapper rawCatalog None (Some "HSC-G") true true true true
  = Ok bandMapper ∧
  getCatSuffixes rawCatalog = [] ∧
  NoDup (outputNames bandMapper).
Proof.
  split; [reflexivity|]. split; [exact bandMapper_Ok|].
  destruct (createSchemaMapper_suffixed_Ok rawCatalog "HSC-G"
              true true true true bandMapper eq_refl bandMapper_Ok)
    as (Hs & items1 & items2 & _ & _ & _ & _ & _ & _ & H).
  split; [exact Hs|exact H].
Defined.

Lemma createSchemaMapper_suffixed_suffixes_witness :
  _getFilterSuffix "HSC-G" ∈ bandSuffixes ∧
  getCatSuffixes (mkCatalog (getOutputSchema bandMapper) []) = ["_g"].
Proof.
  assert (_getFilterSuffix "HSC-G" ∈ bandSuffixes) as H by (simpl; left).
  split; [exact H|].
  exact (createSchemaMapper_suffixed_suffixes rawCatalog "HSC-G"
           true true true true bandMapper [] eq_refl H bandMapper_Ok).
Defined.

Lemma strictMatch_suffixes_witness :
  (strictMatch Z.ltb exampleMatchRaDec catalogG catalogR 10 true).2
  = Ok (RetCatalog exampleMerged) ∧
  ∀ s, s ∈ getCatSuffixes exampleMerged ↔
       s ∈ getCatSuffixes catalogG ∨ s ∈ getCatSuffixes catalogR.
Proof.
  split; [exact exampleMerged_Ok|].
  exact (strictMatch_suffixes Z.ltb exampleMatchRaDec catalogG catalogR 10
           true exampleMerged exampleMerged_Ok).
Defined.

Lemma strictMatch_clash_witness :
  "_g" ∈ getCatSuffixes catalogG ∧
  ∃ e : exn,
    (strictMatch Z.ltb exampleMatchRaDec catalogG catalogG 10 true).2
    = Raise e.
Proof.
  assert ("_g" ∈ getCatSuffixes catalogG) as H.
  { assert (getCatSuffixes catalogG = ["_g"]) as -> by (vm_compute; reflexivity).
    left. }
  split; [exact H|].
  apply (strictMatch_clash Z.ltb exampleMatchRaDec catalogG catalogG 10 true).
  left. exists "_g". split; exact H.
Defined.

Lemma xyMapper_Ok :
  createSchemaMapper rawCatalog None None false true false false
  = Ok xyMapper.
Proof. vm_compute. reflexivity. Qed.

Lemma sgTable_columns :
  "mu.class" ∈ fieldNames (getSchema sgTable) ∧
  "mag.auto" ∈ fieldNames (getSchema sgTable).
Proof. split; simpl; [right; right; left|right; right; right; left]. Qed.

Lemma xyExample_returns :
  ∃ v, (buildXY Z.ltb xyMatchRaDec rawCatalog sgTable 10 true).2 = Ok v.
Proof.
  apply buildXY_returns_mapper.
  split; [apply sgTable_columns|]. split; [apply sgTable_columns|].
  exists xyMapper. exact xyMapper_Ok.
Qed.

Lemma matchMultiBand_pair {Angle : Type} (angle_lt : Angle → Angle → bool)
    (matchRaDec : Catalog → Catalog → Angle → bool → list (Match Angle))
    (oneArcsecond : Angle) (fetchDataset : string → Catalog)
    (f g : string) (out : Catalog) :
  (strictMatch angle_lt matchRaDec (fetchDataset f) (fetchDataset g)
     oneArcsecond true).2 = Ok (RetCatalog out) →
  (matchMultiBand angle_lt matchRaDec oneArcsecond fetchDataset [f; g]).2
  = Returned out.
Proof.
  intros H. unfold matchMultiBand. simpl.
  destruct (strictMatch angle_lt matchRaDec (fetchDataset f) (fetchDataset g)
              oneArcsecond true) as [log [[c|c nm]|e]]; simpl in *.
  - by injection H as ->.
  - discriminate.
  - discriminate.
Qed.

Lemma strictMatch_fixed_columns_witness :
  (strictMatch Z.ltb exampleMatchRaDec catalogG catalogR 10 true).2
  = Ok (RetCatalog exampleMerged) ∧
  Forall2 (fun (best : Record * Record * Z) (row : Record) =>
             (∀ f, f ∈ _fixedFields → row !! f = best.1.1 !! f) ∧
             getId row = getId best.1.1)
          (kept (reduceMatches Z.ltb
                   (exampleMatchRaDec catalogG catalogR 10 true)).1)
          (records exampleMerged).
Proof.
  split; [exact exampleMerged_Ok|].
  exact (strictMatch_fixed_columns Z.ltb exampleMatchRaDec catalogG catalogR
           10 true exampleMerged exampleMerged_Ok).
Defined.

Lemma buildXY_rows_witness :
  ∃ v : retval,
    (buildXY Z.ltb xyMatchRaDec rawCatalog sgTable 10 true).2 = Ok v ∧
    ∃ (scm : SchemaMapper) (cat : Catalog),
      createSchemaMapper rawCatalog None None false true false false
      = Ok scm ∧
      getSchema cat = getOutputSchema scm ∧
      v = RetCatalogAndNoMatch cat
            (map (fun m : Match Z => getId m.1.1) (unmatched xyCandidates)) ∧
      Forall2 (truthRow rawCatalog)
        (kept (reduceMatches Z.ltb xyCandidates).1) (records cat).
Proof.
  destruct xyExample_returns as [v Hv]. exists v. split; [exact Hv|].
  exact (buildXY_rows Z.ltb xyMatchRaDec rawCatalog sgTable 10 true v Hv).
Defined.

Lemma buildXY_log_witness :
  (buildXY Z.ltb xyMatchRaDec rawCatalog sgTable 10 true).1
  = (xyHead xyCandidates
     ++ xyReport rawCatalog xyCandidates (len (unmatched xyCandidates))
          (len (kept (reduceMatches Z.ltb xyCandidates).1))
     ++ xyPicked (len (kept (reduceMatches Z.ltb xyCandidates).1)))%list.
Proof.
  exact (buildXY_log Z.ltb xyMatchRaDec rawCatalog sgTable 10 true
           (proj1 sgTable_columns) (proj2 sgTable_columns)).
Defined.

Lemma buildXY_missing_column_witness :
  buildXY Z.ltb xyMatchRaDec rawCatalog (emptyCatalog ["mag.auto"]) 10 true
  = (xyHead xyCandidates, Raise (NotFoundError "mu.class")).
Proof.
  apply (buildXY_missing_column Z.ltb xyMatchRaDec rawCatalog
           (emptyCatalog ["mag.auto"]) 10 true "mu.class").
  - by left.
  - simpl. intros H.
    repeat (apply elem_of_cons in H as [H|H]; [discriminate H|]).
    by apply elem_of_nil in H.
Defined.

Lemma matchMultiBand_suffixes_witness :
  (matchMultiBand Z.ltb exampleMatchRaDec 10 exampleFetch
     ["HSC-G"; "HSC-R"]).2 = Returned exampleMerged ∧
  ∀ s, s ∈ getCatSuffixes exampleMerged ↔
       ∃ f, f ∈ ["HSC-G"; "HSC-R"] ∧ s ∈ getCatSuffixes (exampleFetch f).
Proof.
  assert ((matchMultiBand Z.ltb exampleMatchRaDec 10 exampleFetch
             ["HSC-G"; "HSC-R"]).2 = Returned exampleMerged) as H
    by (apply matchMultiBand_pair; exact exampleMerged_Ok).
  split; [exact H|].
  exact (matchMultiBand_suffixes Z.ltb exampleMatchRaDec 10 exampleFetch
           ["HSC-G"; "HSC-R"] exampleMerged H).
Defined.

Lemma matchMultiBand_clash_witness :
  "_g" ∈ getCatSuffixes (exampleFetch "HSC-G") ∧
  ∃ e, (matchMultiBand Z.ltb exampleMatchRaDec 10 exampleFetch
          ["HSC-G"; "HSC-G"]).2 = Raised (Library e).
Proof.
  assert ("_g" ∈ getCatSuffixes (exampleFetch "HSC-G")) as H.
  { change (exampleFetch "HSC-G") with catalogG.
    assert (getCatSuffixes catalogG = ["_g"]) as ->
      by (vm_compute; reflexivity).
    left. }
  split; [exact H|].
  exact (matchMultiBand_clash Z.ltb exampleMatchRaDec 10 exampleFetch
           ["HSC-G"; "HSC-G"] 0 1 "HSC-G" "HSC-G" "_g"
           ltac:(lia) eq_refl eq_refl H H).
Defined.
